(** * Stepper: incremental thinking parser, session state and event fan-out

  A shallow embedding of the Python back end of the thinking visualiser:

  - [app/utils/text_analysis.py]      (module [TextAnalysis])
  - [app/models/thought_node.py]      (module [Model])
  - [app/services/thinking_parser.py] (module [Parser])
  - [app/services/session_manager.py] (module [Sessions])
  - [app/services/websocket_manager.py] (module [WS])

  Conventions of the embedding.

  - A Python [str] is a [string]; its characters are code points below
    128, and the character classes below ([\s], [\w], [str.lower],
    [str.strip], [str.split]) are Python's on that range.
  - A Python [float] is an exact rational ([Q]); the only float
    computation of the program is the affine confidence score and its
    clamp.
  - Mutable objects are explicit state: every method takes the object
    and returns the updated object next to its result.  An [async]
    generator is the list of the values it yields together with the
    state it leaves, for a consumer that runs it to exhaustion.
  - A [datetime] is an integer count of microseconds; the clock and
    the uuid generator are inputs of the operations that read them. *)

From Stdlib Require Import QArith Qminmax.
From stdpp Require Import gmap strings list fin_maps pretty sorting.
From Stdlib Require Import Ascii.

Local Open Scope Z_scope.
Local Open Scope nat_scope.

(** ** Python string primitives *)

Module Py.

(** [str.isspace] on one character, which is also [\s] of [re] for a
    [str] pattern and what [strip] and [split] remove. *)
Definition is_space (c : ascii) : bool :=
  let n := nat_of_ascii c in
  ((9 <=? n) && (n <=? 13)) || ((28 <=? n) && (n <=? 32)).

Definition is_upper (c : ascii) : bool :=
  let n := nat_of_ascii c in (65 <=? n) && (n <=? 90).

(** [a-z] *)
Definition is_lower (c : ascii) : bool :=
  let n := nat_of_ascii c in (97 <=? n) && (n <=? 122).

Definition is_digit (c : ascii) : bool :=
  let n := nat_of_ascii c in (48 <=? n) && (n <=? 57).

(** [\w] *)
Definition is_word (c : ascii) : bool :=
  is_upper c || is_lower c || is_digit c || (nat_of_ascii c =? 95).

Definition lower_char (c : ascii) : ascii :=
  if is_upper c then ascii_of_nat (nat_of_ascii c + 32) else c.

(** [s.lower()] *)
Fixpoint lower (s : string) : string :=
  match s with
  | EmptyString => EmptyString
  | String c r => String (lower_char c) (lower r)
  end.

(** [s.lstrip()], [s.rstrip()], [s.strip()] *)
Fixpoint lstrip (s : string) : string :=
  match s with
  | String c r => if is_space c then lstrip r else s
  | EmptyString => EmptyString
  end.

Definition rstrip (s : string) : string := String.rev (lstrip (String.rev s)).

Definition strip (s : string) : string := rstrip (lstrip s).

(** [len(s)] *)
Definition len (s : string) : nat := String.length s.

(** [s.split()]: the maximal runs of non-space characters.  [cur] is
    the run being read, reversed. *)
Fixpoint split_go (cur : string) (s : string) : list string :=
  match s with
  | EmptyString =>
      match cur with EmptyString => [] | _ => [String.rev cur] end
  | String c r =>
      if is_space c
      then match cur with
           | EmptyString => split_go EmptyString r
           | _ => String.rev cur :: split_go EmptyString r
           end
      else split_go (String c cur) r
  end.

Definition split (s : string) : list string := split_go EmptyString s.

(** [needle in hay] on strings. *)
Fixpoint contains (needle hay : string) : bool :=
  String.prefix needle hay ||
  match hay with
  | EmptyString => false
  | String _ r => contains needle r
  end.

(** [s.count(c)] for a one-character [c]. *)
Fixpoint count_char (c : ascii) (s : string) : nat :=
  match s with
  | EmptyString => 0
  | String d r => (if Ascii.eqb c d then 1 else 0) + count_char c r
  end.

(** [s.count(sub)] for a non-empty [sub]: occurrences counted from the
    left without overlap.  [skip] is the number of characters still
    covered by the occurrence found last. *)
Fixpoint count_go (sub : string) (skip : nat) (s : string) : nat :=
  match s with
  | EmptyString => 0
  | String _ r =>
      match skip with
      | S k => count_go sub k r
      | O => if String.prefix sub s
             then 1 + count_go sub (String.length sub - 1) r
             else count_go sub 0 r
      end
  end.

Definition count (sub s : string) : nat := count_go sub 0 s.

(** Length of the longest prefix of [s] whose characters satisfy [p],
    and [s[n:]]. *)
Fixpoint prefix_len (p : ascii → bool) (s : string) : nat :=
  match s with
  | String c r => if p c then S (prefix_len p r) else 0
  | EmptyString => 0
  end.

Fixpoint drop (n : nat) (s : string) : string :=
  match n, s with
  | S k, String _ r => drop k r
  | _, _ => s
  end.

Fixpoint take (n : nat) (s : string) : string :=
  match n, s with
  | S k, String c r => String c (take k r)
  | _, _ => EmptyString
  end.

Fixpoint all_chars (p : ascii → bool) (s : string) : bool :=
  match s with
  | String c r => p c && all_chars p r
  | EmptyString => true
  end.

Definition head (s : string) : option ascii :=
  match s with String c _ => Some c | EmptyString => None end.

(** *** The fragment of [re] the program uses

    A pattern is given by its matcher at one position: [m prev s] is
    the length of the match of the pattern that starts at the head of
    [s], where [prev] is the character before it ([None] at the start
    of the text), or [None] when the pattern does not match there.
    None of the program's patterns matches the empty string, and a
    zero length is read as no match. *)
Definition matcher := option ascii → string → option nat.

(** [\b]: exactly one side is a word character. *)
Definition is_word_opt (c : option ascii) : bool :=
  match c with Some c => is_word c | None => false end.

Definition boundary (before after : option ascii) : bool :=
  xorb (is_word_opt before) (is_word_opt after).

(** The boundary test after the first [n] characters of [s] ([0 < n],
    [n] at most the length of [s]). *)
Definition boundary_after (n : nat) (s : string) : bool :=
  boundary (head (drop (n - 1) s)) (head (drop n s)).

(** [re.split(p, s)]: the pieces between the successive matches. *)
Fixpoint re_split_go (m : matcher) (prev : option ascii) (skip : nat)
    (cur : string) (s : string) : list string :=
  match s with
  | EmptyString => [String.rev cur]
  | String c r =>
      match skip with
      | S k => re_split_go m (Some c) k cur r
      | O =>
          match m prev s with
          | Some (S n) => String.rev cur :: re_split_go m (Some c) n EmptyString r
          | _ => re_split_go m (Some c) 0 (String c cur) r
          end
      end
  end.

Definition re_split (m : matcher) (s : string) : list string :=
  re_split_go m None 0 EmptyString s.

(** [re.findall(p, s)]: the successive matches, from the left and
    without overlap. *)
Fixpoint re_findall_go (m : matcher) (prev : option ascii) (skip : nat)
    (s : string) : list string :=
  match s with
  | EmptyString => []
  | String c r =>
      match skip with
      | S k => re_findall_go m (Some c) k r
      | O =>
          match m prev s with
          | Some (S n) => take (S n) s :: re_findall_go m (Some c) n r
          | _ => re_findall_go m (Some c) 0 r
          end
      end
  end.

Definition re_findall (m : matcher) (s : string) : list string :=
  re_findall_go m None 0 s.

(** [bool(re.search(p, s))]: the pattern matches at some position. *)
Fixpoint re_search_go (m : matcher) (prev : option ascii) (s : string) : bool :=
  match s with
  | EmptyString => false
  | String c r =>
      match m prev s with
      | Some (S _) => true
      | _ => re_search_go m (Some c) r
      end
  end.

Definition re_search (m : matcher) (s : string) : bool :=
  re_search_go m None s.

(** [\b(w1|...|wn)\b]: the first alternative, in order, that is a
    prefix of the text and ends at a boundary. *)
Definition whole_word (alts : list string) : matcher := λ prev s,
  if boundary prev (head s)
  then String.length <$>
         List.find (λ w, String.prefix w s && boundary_after (String.length w) s) alts
  else None.

(** [\b[a-z]{3,}\b]: the longest run of at least three lower-case
    letters that ends at a boundary (the greedy quantifier tries the
    longest run first and gives characters back one at a time). *)
Definition lower_run : matcher := λ prev s,
  if boundary prev (head s)
  then let n := prefix_len is_lower s in
       List.find (λ k, boundary_after k s) (reverse (seq 3 (n - 2)))
  else None.

(** [[.!?]+\s+]: both quantifiers are greedy; giving back a
    terminator leaves a terminator, not a space, as the next
    character, so only the longest run of terminators can match. *)
Definition is_terminator (c : ascii) : bool :=
  (Ascii.eqb c ".") || (Ascii.eqb c "!") || (Ascii.eqb c "?").

Definition sentence_end : matcher := λ _ s,
  let t := prefix_len is_terminator s in
  let w := prefix_len is_space (drop t s) in
  if (0 <? t) && (0 <? w) then Some (t + w) else None.

End Py.

(** ** app/utils/text_analysis.py *)

Module TextAnalysis.

(** [collections.Counter] over strings: the counts in order of first
    insertion, which is the order [most_common] breaks ties by. *)
Fixpoint counter_add (w : string) (c : list (string * nat)) : list (string * nat) :=
  match c with
  | [] => [(w, 1)]
  | (k, n) :: r => if decide (k = w) then (k, S n) :: r else (k, n) :: counter_add w r
  end.

Definition Counter (ws : list string) : list (string * nat) :=
  foldl (λ c w, counter_add w c) [] ws.

(** [sorted(items, key=itemgetter(1), reverse=True)]: descending in
    the count, entries of equal count in their original order. *)
Fixpoint insert_desc (x : string * nat) (l : list (string * nat)) : list (string * nat) :=
  match l with
  | [] => [x]
  | y :: r => if y.2 <=? x.2 then x :: y :: r else y :: insert_desc x r
  end.

Definition sorted_desc (l : list (string * nat)) : list (string * nat) :=
  foldr insert_desc [] l.

(** [Counter.most_common(n)], which is [heapq.nlargest(n, items, key)],
    that is [sorted(items, key=key, reverse=True)[:n]]. *)
Definition most_common (n : nat) (c : list (string * nat)) : list (string * nat) :=
  List.firstn n (sorted_desc c).

Definition stop_words : list string :=
  [ "the"; "is"; "at"; "which"; "on"; "a"; "an"; "and"; "or"; "but";
    "in"; "with"; "to"; "for"; "of"; "as"; "by"; "that"; "this";
    "from"; "are"; "was"; "were"; "been"; "be"; "have"; "has"; "had";
    "do"; "does"; "did"; "will"; "would"; "could"; "should"; "may";
    "might"; "can"; "it"; "its"; "they"; "them"; "their"; "we"; "our";
    "you"; "your"; "i"; "my"; "me"; "he"; "she"; "him"; "her" ].

Definition words_of (text : string) : list string :=
  Py.re_findall Py.lower_run (Py.lower text).

Definition filtered_words (text : string) : list string :=
  filter (λ w, w ∉ stop_words) (words_of text).

Definition extract_keywords_n (text : string) (top_n : nat) : list string :=
  let word_counts := Counter (filtered_words text) in
  (most_common top_n word_counts).*1.

(** [extract_keywords(text)] with the default [top_n = 5]. *)
Definition extract_keywords (text : string) : list string :=
  extract_keywords_n text 5.

Definition certainty_patterns : list Py.matcher :=
  [ Py.whole_word ["clearly"; "obviously"; "definitely"; "certainly"; "surely"; "must"; "will"];
    Py.whole_word ["always"; "never"; "absolutely"; "undoubtedly"; "unquestionably"];
    Py.whole_word ["correct"; "right"; "true"; "exact"; "precise"] ].

Definition hedging_patterns : list Py.matcher :=
  [ Py.whole_word ["maybe"; "perhaps"; "possibly"; "probably"; "might"; "could"; "may"];
    Py.whole_word ["uncertain"; "unsure"; "unclear"; "ambiguous"; "vague"];
    Py.whole_word ["seems"; "appears"; "suggests"; "indicates"];
    Py.whole_word ["somewhat"; "slightly"; "fairly"; "rather"; "quite"];
    Py.whole_word ["I think"; "I believe"; "I guess"; "I assume"] ].

(** [sum(len(re.findall(pattern, text_lower)) for pattern in patterns)] *)
Definition count_matches (patterns : list Py.matcher) (text_lower : string) : nat :=
  sum_list ((λ p, length (Py.re_findall p text_lower)) <$> patterns).

Definition clamp01 (q : Q) : Q := Qmax 0 (Qmin 1 q).

Definition calculate_confidence (text : string) : Q :=
  let text_lower := Py.lower text in
  let question_marks := Py.count_char "?" text in
  let certainty_count := count_matches certainty_patterns text_lower in
  let hedging_count := count_matches hedging_patterns text_lower in
  let base_confidence := (7 # 10)%Q in
  let confidence := base_confidence in
  let confidence := (confidence + inject_Z (Z.of_nat certainty_count) * (5 # 100))%Q in
  let confidence := (confidence - inject_Z (Z.of_nat hedging_count) * (8 # 100))%Q in
  let confidence := (confidence - inject_Z (Z.of_nat question_marks) * (5 # 100))%Q in
  clamp01 confidence.

Record Cues := {
  has_therefore : bool; has_since : bool; has_this : bool; has_that : bool;
  has_because : bool; has_so : bool; has_thus : bool; has_hence : bool }.

Definition detect_linguistic_cues (text : string) : Cues :=
  let text_lower := Py.lower text in
  let cue w := Py.re_search (Py.whole_word [w]) text_lower in
  {| has_therefore := cue "therefore"; has_since := cue "since";
     has_this := cue "this"; has_that := cue "that";
     has_because := cue "because"; has_so := cue "so";
     has_thus := cue "thus"; has_hence := cue "hence" |}.

(** [len(set(keywords1) & set(keywords2))] *)
Definition count_shared_keywords (keywords1 keywords2 : list string) : nat :=
  size ((list_to_set keywords1 : gset string) ∩ list_to_set keywords2).

End TextAnalysis.

(** ** app/models/thought_node.py *)

Module Model.

Inductive ThoughtType :=
  ANALYSIS | DECISION | VERIFICATION | ALTERNATIVE | IMPLEMENTATION.

#[global] Instance ThoughtType_eq_dec : EqDecision ThoughtType.
Proof. solve_decision. Defined.

Record Position := { pos_x : Z; pos_y : Z }.

(** The node as the parser builds it.  The creation time stamp, which
    defaults to the wall clock, is not represented. *)
Record ThoughtNode := {
  id : string;
  type : ThoughtType;
  content : string;
  confidence : Q;
  keywords : list string;
  dependencies : list string;
  position : Position;
  session_id : string }.

Definition with_dependencies (n : ThoughtNode) (deps : list string) : ThoughtNode :=
  {| id := id n; type := type n; content := content n;
     confidence := confidence n; keywords := keywords n;
     dependencies := deps; position := position n;
     session_id := session_id n |}.

(** JSON values, as [model_dump(mode='json')] and [send_json] carry
    them.  An object keeps its keys in insertion order; a serialised
    [datetime] keeps its instant. *)
#[warnings="-register-all"]
Inductive json :=
| JNull
| JBool (b : bool)
| JInt (z : Z)
| JNum (q : Q)
| JStr (s : string)
| JTime (t : Z)
| JList (l : list json)
| JObj (d : list (string * json)).

Abbreviation dict := (list (string * json)).

Definition keys_of (d : dict) : list string := d.*1.

End Model.

(** ** app/services/thinking_parser.py *)

Module Parser.
Import Model.

Record ThinkingParser := {
  p_session_id : string;
  node_counter : nat;
  recent_nodes : list ThoughtNode;
  x_position : Z;
  y_position : Z;
  accumulated_text : string }.

(** [ThinkingParser(session_id)] *)
Definition init (sid : string) : ThinkingParser :=
  {| p_session_id := sid; node_counter := 0; recent_nodes := [];
     x_position := 0; y_position := 0; accumulated_text := "" |}.

(** [f"{session_id}_node_{counter}"] *)
Definition node_id (sid : string) (counter : nat) : string :=
  sid +:+ "_node_" +:+ pretty counter.

Definition generate_node_id (p : ThinkingParser) : string * ThinkingParser :=
  let counter := node_counter p + 1 in
  (node_id (p_session_id p) counter,
   {| p_session_id := p_session_id p; node_counter := counter;
      recent_nodes := recent_nodes p; x_position := x_position p;
      y_position := y_position p; accumulated_text := accumulated_text p |}).

Definition analysis_keywords : list string :=
  [ "need to"; "first"; "let's"; "consider"; "analyze";
    "understand"; "examine"; "look at"; "review"; "assess" ].

Definition decision_keywords : list string :=
  [ "will use"; "best approach"; "should"; "choose";
    "decide"; "select"; "opt for"; "go with"; "prefer" ].

Definition verification_keywords : list string :=
  [ "check"; "verify"; "confirm"; "ensure"; "test";
    "validate"; "prove"; "demonstrate"; "show that" ].

Definition alternative_keywords : list string :=
  [ "alternatively"; "another option"; "could also"; "or";
    "instead"; "different approach"; "other way"; "else" ].

Definition implementation_keywords : list string :=
  [ "implement"; "code"; "function"; "class"; "def";
    "create"; "build"; "write"; "develop"; "construct" ].

(** The keyword table, in the order in which the [scores] dictionary
    is filled. *)
Definition keyword_table : list (ThoughtType * list string) :=
  [ (IMPLEMENTATION, implementation_keywords);
    (VERIFICATION, verification_keywords);
    (DECISION, decision_keywords);
    (ALTERNATIVE, alternative_keywords);
    (ANALYSIS, analysis_keywords) ].

(** [sum(1 for kw in kws if kw in text_lower)] *)
Definition score (kws : list string) (text_lower : string) : nat :=
  length (List.filter (λ kw, Py.contains kw text_lower) kws).

(** [max(items, key=lambda x: x[1])] on a non-empty list: the first
    item whose key no later item exceeds. *)
Fixpoint max_from {A} (key : A → nat) (best : A) (l : list A) : A :=
  match l with
  | [] => best
  | x :: r => if key best <? key x then max_from key x r else max_from key best r
  end.

Definition scores (text : string) : list (ThoughtType * nat) :=
  let text_lower := Py.lower text in
  (λ '(t, kws), (t, score kws text_lower)) <$> keyword_table.

(** [max_type[0] if max_type[1] > 0 else ThoughtType.ANALYSIS] for
    [max_type = max(scores.items(), key=lambda x: x[1])] *)
Definition pick_max (scores : list (ThoughtType * nat)) : ThoughtType :=
  match scores with
  | [] => ANALYSIS
  | first :: rest =>
      let max_type := max_from snd first rest in
      if 0 <? max_type.2 then max_type.1 else ANALYSIS
  end.

Definition classify_thought_type (text : string) : ThoughtType :=
  pick_max (scores text).

(** One turn of the loop of [split_into_segments]; the state is
    [(segments, current_segment)]. *)
Definition segment_step (min_words : nat) (st : list string * string)
    (sentence : string) : list string * string :=
  let '(segments, current_segment) := st in
  let sentence := Py.strip sentence in
  if decide (sentence = "") then st
  else
    let current_segment :=
      if decide (current_segment = "") then sentence
      else current_segment +:+ ". " +:+ sentence in
    let word_count := length (Py.split current_segment) in
    if min_words <=? word_count
    then (segments ++ [current_segment], "")
    else (segments, current_segment).

Definition split_into_segments_n (text : string) (min_words : nat) : list string :=
  let sentences := Py.re_split Py.sentence_end text in
  let '(segments, current_segment) :=
    foldl (segment_step min_words) ([], "") sentences in
  if negb (bool_decide (current_segment = ""))
     && (min_words / 2 <=? length (Py.split current_segment))
  then segments ++ [current_segment]
  else segments.

(** [split_into_segments(text)] with the default [min_words = 20]. *)
Definition split_into_segments (text : string) : list string :=
  split_into_segments_n text 20.

Definition any_referential_cue (c : TextAnalysis.Cues) : bool :=
  TextAnalysis.has_this c || TextAnalysis.has_that c
  || TextAnalysis.has_therefore c || TextAnalysis.has_since c
  || TextAnalysis.has_because c.

(** [l[-3:]] *)
Definition last3 {A} (l : list A) : list A := List.skipn (length l - 3) l.

Definition detect_dependencies (p : ThinkingParser) (node : ThoughtNode) : list string :=
  let dependencies := [] in
  let cues := TextAnalysis.detect_linguistic_cues (content node) in
  let dependencies :=
    if any_referential_cue cues
    then match last (recent_nodes p) with
         | Some prev => dependencies ++ [id prev]
         | None => dependencies
         end
    else dependencies in
  let dependencies :=
    foldl (λ deps recent_node,
             let shared_count :=
               TextAnalysis.count_shared_keywords (keywords node) (keywords recent_node) in
             if (2 <=? shared_count) && negb (bool_decide (id recent_node ∈ deps))
             then deps ++ [id recent_node] else deps)
          dependencies (last3 (recent_nodes p)) in
  match dependencies, last (recent_nodes p) with
  | [], Some prev => [id prev]
  | _, _ => dependencies
  end.

Definition generate_position (p : ThinkingParser) : Position * ThinkingParser :=
  let position := {| pos_x := x_position p; pos_y := y_position p |} in
  let x := (x_position p + 200)%Z in
  let '(x, y) :=
    if node_counter p mod 3 =? 0
    then (0%Z, (y_position p + 100)%Z) else (x, y_position p) in
  (position,
   {| p_session_id := p_session_id p; node_counter := node_counter p;
      recent_nodes := recent_nodes p; x_position := x;
      y_position := y; accumulated_text := accumulated_text p |}).

(** [recent_nodes.append(node)], then [pop(0)] above five entries. *)
Definition remember (p : ThinkingParser) (node : ThoughtNode) : ThinkingParser :=
  let recent := recent_nodes p ++ [node] in
  let recent := if 5 <? length recent then List.tl recent else recent in
  {| p_session_id := p_session_id p; node_counter := node_counter p;
     recent_nodes := recent; x_position := x_position p;
     y_position := y_position p; accumulated_text := accumulated_text p |}.

Definition _create_node_from_segment (p : ThinkingParser) (segment : string)
    : option ThoughtNode * ThinkingParser :=
  if bool_decide (segment = "") || (Py.len (Py.strip segment) <? 10)
  then (None, p)
  else
    let '(node_id, p) := generate_node_id p in
    let thought_type := classify_thought_type segment in
    let keywords := TextAnalysis.extract_keywords segment in
    let confidence := TextAnalysis.calculate_confidence segment in
    let '(position, p) := generate_position p in
    let node :=
      {| id := node_id; type := thought_type; content := Py.strip segment;
         confidence := confidence; keywords := keywords; dependencies := [];
         position := position; session_id := p_session_id p |} in
    let node := with_dependencies node (detect_dependencies p node) in
    (Some node, remember p node).

Definition set_accumulated_text (p : ThinkingParser) (text : string) : ThinkingParser :=
  {| p_session_id := p_session_id p; node_counter := node_counter p;
     recent_nodes := recent_nodes p; x_position := x_position p;
     y_position := y_position p; accumulated_text := text |}.

(** The loop over the complete segments: the nodes yielded so far and
    the parser. *)
Definition emit_segment (st : list ThoughtNode * ThinkingParser) (segment : string)
    : list ThoughtNode * ThinkingParser :=
  let '(out, p) := st in
  match _create_node_from_segment p segment with
  | (Some node, p) => (out ++ [node], p)
  | (None, p) => (out, p)
  end.

Definition parse_incremental (p : ThinkingParser) (text_chunk : string)
    : list ThoughtNode * ThinkingParser :=
  let p := set_accumulated_text p (accumulated_text p +:+ text_chunk) in
  let segments := split_into_segments (accumulated_text p) in
  if 1 <? length segments
  then
    let complete_segments := removelast segments in
    let p := set_accumulated_text p (List.last segments "") in
    foldl emit_segment ([], p) complete_segments
  else ([], p).

Definition finalize (p : ThinkingParser) : list ThoughtNode * ThinkingParser :=
  if negb (bool_decide (Py.strip (accumulated_text p) = ""))
  then match _create_node_from_segment p (accumulated_text p) with
       | (Some node, p) => ([node], p)
       | (None, p) => ([], p)
       end
  else ([], p).

(** A use of the parser: the fragments fed in order, then [finalize]. *)
Fixpoint feed_all (p : ThinkingParser) (fragments : list string)
    : list ThoughtNode * ThinkingParser :=
  match fragments with
  | [] => ([], p)
  | chunk :: rest =>
      let '(out, p) := parse_incremental p chunk in
      let '(out', p) := feed_all p rest in
      (out ++ out', p)
  end.

Definition run (sid : string) (fragments : list string) : list ThoughtNode :=
  let '(out, p) := feed_all (init sid) fragments in
  let '(out', _) := finalize p in
  out ++ out'.

(** The calls a client can make on a parser, for statements about
    every reachable parser. *)
Inductive call :=
| Feed (text_chunk : string)
| Finalize.

Definition do_call (p : ThinkingParser) (c : call) : list ThoughtNode * ThinkingParser :=
  match c with
  | Feed text_chunk => parse_incremental p text_chunk
  | Finalize => finalize p
  end.

Fixpoint do_calls (p : ThinkingParser) (cs : list call)
    : list ThoughtNode * ThinkingParser :=
  match cs with
  | [] => ([], p)
  | c :: rest =>
      let '(out, p) := do_call p c in
      let '(out', p) := do_calls p rest in
      (out ++ out', p)
  end.

End Parser.

(** ** Exceptions *)

Module Exn.

(** The exceptions the modelled code can raise: the builtin
    [Exception] with its message, and the lookup errors of the
    containers. *)
Inductive exception :=
| Exception (msg : string)
| KeyError (key : string)
| ValueError.

Inductive result (A : Type) :=
| Return (a : A)
| Raise (e : exception).
Arguments Return {A} a.
Arguments Raise {A} e.

(** [str(e)] *)
Definition str (e : exception) : string :=
  match e with
  | Exception msg => msg
  | KeyError key => "'" +:+ key +:+ "'"
  | ValueError => "list.remove(x): x not in list"
  end.

End Exn.

(** ** app/services/session_manager.py *)

Module Sessions.
Import Model Exn.

Record Session := {
  s_session_id : string;
  ip_address : string;
  status : string;
  created_at : Z;
  thought_nodes : list dict;
  tokens_used : Z;
  problem_text : string;
  solution_text : string;
  error_message : option string }.

(** [Session(session_id, ip_address)], created at instant [now]. *)
Definition new_session (session_id ip : string) (now : Z) : Session :=
  {| s_session_id := session_id; ip_address := ip; status := "initializing";
     created_at := now; thought_nodes := []; tokens_used := 0;
     problem_text := ""; solution_text := ""; error_message := None |}.

Record SessionManager := {
  sessions : gmap string Session;
  ip_sessions : gmap string (list string);
  max_concurrent_per_ip : Z;
  cleanup_hours : Z }.

(** [SessionManager()] under the given settings. *)
Definition new_manager (max_concurrent cleanup : Z) : SessionManager :=
  {| sessions := ∅; ip_sessions := ∅;
     max_concurrent_per_ip := max_concurrent; cleanup_hours := cleanup |}.

Definition set_sessions (m : SessionManager) (ss : gmap string Session) : SessionManager :=
  {| sessions := ss; ip_sessions := ip_sessions m;
     max_concurrent_per_ip := max_concurrent_per_ip m;
     cleanup_hours := cleanup_hours m |}.

Definition set_ip_sessions (m : SessionManager) (ips : gmap string (list string))
    : SessionManager :=
  {| sessions := sessions m; ip_sessions := ips;
     max_concurrent_per_ip := max_concurrent_per_ip m;
     cleanup_hours := cleanup_hours m |}.

Definition get_session (m : SessionManager) (session_id : string) : option Session :=
  sessions m !! session_id.

(** A keyword argument of [update_session]: the key of a data
    attribute of the session with a value of the attribute's type, or
    another key, [kw_unknown key].  The key [session_id] is none of
    them: Python binds it to the parameter [session_id] of
    [update_session], and a call that passes it a second time raises
    [TypeError] before the body runs.  [kw_unknown] stands for the
    keys for which [hasattr(session, key)] is false, which the loop
    skips; every [plain_key] is one.  The other keys for which
    [hasattr] is true, the name of the method [to_dict] and the
    special attributes of the object, are outside this model. *)
Inductive kwarg :=
| kw_status (v : string)
| kw_tokens_used (v : Z)
| kw_problem_text (v : string)
| kw_solution_text (v : string)
| kw_error_message (v : option string)
| kw_ip_address (v : string)
| kw_created_at (v : Z)
| kw_thought_nodes (v : list dict)
| kw_unknown (key : string).



(** [if hasattr(session, key): setattr(session, key, value)] *)
Definition setattr (s : Session) (kw : kwarg) : Session :=
  match kw with
  | kw_status v =>
      {| s_session_id := s_session_id s; ip_address := ip_address s; status := v;
         created_at := created_at s; thought_nodes := thought_nodes s;
         tokens_used := tokens_used s; problem_text := problem_text s;
         solution_text := solution_text s; error_message := error_message s |}
  | kw_tokens_used v =>
      {| s_session_id := s_session_id s; ip_address := ip_address s; status := status s;
         created_at := created_at s; thought_nodes := thought_nodes s;
         tokens_used := v; problem_text := problem_text s;
         solution_text := solution_text s; error_message := error_message s |}
  | kw_problem_text v =>
      {| s_session_id := s_session_id s; ip_address := ip_address s; status := status s;
         created_at := created_at s; thought_nodes := thought_nodes s;
         tokens_used := tokens_used s; problem_text := v;
         solution_text := solution_text s; error_message := error_message s |}
  | kw_solution_text v =>
      {| s_session_id := s_session_id s; ip_address := ip_address s; status := status s;
         created_at := created_at s; thought_nodes := thought_nodes s;
         tokens_used := tokens_used s; problem_text := problem_text s;
         solution_text := v; error_message := error_message s |}
  | kw_error_message v =>
      {| s_session_id := s_session_id s; ip_address := ip_address s; status := status s;
         created_at := created_at s; thought_nodes := thought_nodes s;
         tokens_used := tokens_used s; problem_text := problem_text s;
         solution_text := solution_text s; error_message := v |}
  | kw_ip_address v =>
      {| s_session_id := s_session_id s; ip_address := v; status := status s;
         created_at := created_at s; thought_nodes := thought_nodes s;
         tokens_used := tokens_used s; problem_text := problem_text s;
         solution_text := solution_text s; error_message := error_message s |}
  | kw_created_at v =>
      {| s_session_id := s_session_id s; ip_address := ip_address s; status := status s;
         created_at := v; thought_nodes := thought_nodes s;
         tokens_used := tokens_used s; problem_text := problem_text s;
         solution_text := solution_text s; error_message := error_message s |}
  | kw_thought_nodes v =>
      {| s_session_id := s_session_id s; ip_address := ip_address s; status := status s;
         created_at := created_at s; thought_nodes := v;
         tokens_used := tokens_used s; problem_text := problem_text s;
         solution_text := solution_text s; error_message := error_message s |}
  | kw_unknown _ => s
  end.

Definition update_session (m : SessionManager) (session_id : string)
    (kwargs : list kwarg) : SessionManager :=
  match get_session m session_id with
  | None => m
  | Some session =>
      set_sessions m (<[session_id := foldl setattr session kwargs]> (sessions m))
  end.

Definition append_node (s : Session) (thought_node : dict) : Session :=
  {| s_session_id := s_session_id s; ip_address := ip_address s; status := status s;
     created_at := created_at s; thought_nodes := thought_nodes s ++ [thought_node];
     tokens_used := tokens_used s; problem_text := problem_text s;
     solution_text := solution_text s; error_message := error_message s |}.

Definition add_thought_node (m : SessionManager) (session_id : string)
    (thought_node : dict) : SessionManager :=
  match get_session m session_id with
  | Some session =>
      set_sessions m (<[session_id := append_node session thought_node]> (sessions m))
  | None => m
  end.

(** [session and session.status not in ["completed", "error"]] *)
Definition is_active (m : SessionManager) (session_id : string) : bool :=
  match sessions m !! session_id with
  | Some session => negb (bool_decide (status session ∈ ["completed"; "error"]))
  | None => false
  end.

Definition _get_active_sessions_for_ip (m : SessionManager) (ip : string)
    : list string * SessionManager :=
  let active := List.filter (is_active m) (default [] (ip_sessions m !! ip)) in
  let m :=
    if bool_decide (is_Some (ip_sessions m !! ip))
    then set_ip_sessions m (<[ip := active]> (ip_sessions m))
    else m in
  (active, m).

Definition rate_limit_message (limit : Z) : string :=
  "Rate limit exceeded: Maximum " +:+ pretty limit +:+ " concurrent sessions per IP".

(** [create_session(ip_address)]; [session_id] is the identifier that
    [generate_session_id] draws and [now] the clock reading of the
    [Session] constructor.  The manager is returned in both outcomes:
    the pruning of the IP's list happens before the check. *)
Definition create_session (m : SessionManager) (ip : string)
    (session_id : string) (now : Z) : result Session * SessionManager :=
  let '(active_sessions, m) := _get_active_sessions_for_ip m ip in
  if (max_concurrent_per_ip m <=? Z.of_nat (length active_sessions))%Z
  then (Raise (Exception (rate_limit_message (max_concurrent_per_ip m))), m)
  else
    let session := new_session session_id ip now in
    let m := set_sessions m (<[session_id := session]> (sessions m)) in
    let m := set_ip_sessions m
               (<[ip := default [] (ip_sessions m !! ip) ++ [session_id]]> (ip_sessions m)) in
    (Return session, m).

(** [l.remove(x)] for an [x] known to be in [l]: the first occurrence
    goes. *)
Fixpoint list_remove (x : string) (l : list string) : list string :=
  match l with
  | [] => []
  | y :: r => if decide (x = y) then r else y :: list_remove x r
  end.

(** [timedelta(hours=h)] in microseconds. *)
Definition hours (h : Z) : Z := (h * 3600 * 1000000)%Z.

(** The body of the removal loop of [cleanup_old_sessions]. *)
Definition remove_session (m : SessionManager) (session_id : string)
    : result SessionManager :=
  match sessions m !! session_id with
  | None => Raise (KeyError session_id)
  | Some session =>
      let ip := ip_address session in
      let m :=
        match ip_sessions m !! ip with
        | Some ids =>
            if bool_decide (session_id ∈ ids)
            then set_ip_sessions m (<[ip := list_remove session_id ids]> (ip_sessions m))
            else m
        | None => m
        end in
      Return (set_sessions m (delete session_id (sessions m)))
  end.

Fixpoint remove_sessions (m : SessionManager) (ids : list string)
    : result SessionManager :=
  match ids with
  | [] => Return m
  | session_id :: rest =>
      match remove_session m session_id with
      | Return m => remove_sessions m rest
      | Raise e => Raise e
      end
  end.

(** [cleanup_old_sessions()] at clock reading [now]. *)
Definition cleanup_old_sessions (m : SessionManager) (now : Z)
    : result (nat * SessionManager) :=
  let cutoff_time := (now - hours (cleanup_hours m))%Z in
  let sessions_to_remove :=
    (List.filter (λ kv, (created_at kv.2 <? cutoff_time)%Z)
                 (map_to_list (sessions m))).*1 in
  match remove_sessions m sessions_to_remove with
  | Return m => Return (length sessions_to_remove, m)
  | Raise e => Raise e
  end.

(** The classification of a failure of [create_session] by its caller
    [start_analysis] (app/api/routes.py): the HTTP status code. *)
Definition http_status_of (e : exception) : nat :=
  if Py.contains "Rate limit" (Exn.str e) then 429 else 500.

End Sessions.

(** ** app/services/websocket_manager.py *)

Module WS.
Import Model.

(** A connection object, known by its identity.  Whether its
    [send_json] raises is given by the predicate [fails] that the
    sending operations take; a delivery is the connection together
    with the message it received. *)
Record WebSocket := { ws_id : nat }.

#[global] Instance WebSocket_eq_dec : EqDecision WebSocket.
Proof. solve_decision. Defined.

Abbreviation delivery := (WebSocket * dict)%type.

Record WebSocketManager := {
  active_connections : gmap string (list WebSocket) }.

Definition new_manager : WebSocketManager := {| active_connections := ∅ |}.

(** [send_personal_message]: the failure of [send_json] is swallowed. *)
Definition send_personal_message (fails : WebSocket → bool)
    (websocket : WebSocket) (message : dict) : list delivery :=
  if fails websocket then [] else [(websocket, message)].

Definition connected_message (session_id : string) (now : Z) : dict :=
  [ ("event_type", JStr "connected");
    ("session_id", JStr session_id);
    ("message", JStr "Connected to thinking stream");
    ("timestamp", JTime now) ].

Definition connect (fails : WebSocket → bool) (m : WebSocketManager)
    (session_id : string) (websocket : WebSocket) (now : Z)
    : list delivery * WebSocketManager :=
  let conns := default [] (active_connections m !! session_id) in
  let m := {| active_connections :=
                <[session_id := conns ++ [websocket]]> (active_connections m) |} in
  (send_personal_message fails websocket (connected_message session_id now), m).

(** [l.remove(x)] for an [x] known to be in [l]. *)
Fixpoint list_remove (x : WebSocket) (l : list WebSocket) : list WebSocket :=
  match l with
  | [] => []
  | y :: r => if decide (x = y) then r else y :: list_remove x r
  end.

Definition disconnect (m : WebSocketManager) (session_id : string)
    (websocket : WebSocket) : WebSocketManager :=
  match active_connections m !! session_id with
  | Some conns =>
      let conns :=
        if bool_decide (websocket ∈ conns) then list_remove websocket conns else conns in
      match conns with
      | [] => {| active_connections := delete session_id (active_connections m) |}
      | _ => {| active_connections := <[session_id := conns]> (active_connections m) |}
      end
  | None => m
  end.

(** The [data] argument of [broadcast]: a dictionary, or any other
    object, of which only [str(data)] is used. *)
Inductive payload :=
| PDict (d : dict)
| POther (str_of : string).

(** [WebSocketEvent(...).model_dump(mode='json')] *)
Definition event_message (session_id event_type : string) (data : payload)
    (now : Z) : dict :=
  [ ("event_type", JStr event_type);
    ("session_id", JStr session_id);
    ("data", JObj match data with
                  | PDict d => d
                  | POther s => [("content", JStr s)]
                  end);
    ("timestamp", JTime now) ].

(** The sending loop of [broadcast]; the state is the deliveries made
    and the connections marked for removal. *)
Definition send_step (fails : WebSocket → bool) (message : dict)
    (st : list delivery * list WebSocket) (connection : WebSocket)
    : list delivery * list WebSocket :=
  let '(sent, disconnected) := st in
  if fails connection
  then (sent, disconnected ++ [connection])
  else (sent ++ [(connection, message)], disconnected).

Definition broadcast (fails : WebSocket → bool) (m : WebSocketManager)
    (session_id event_type : string) (data : payload) (now : Z)
    : list delivery * WebSocketManager :=
  match active_connections m !! session_id with
  | None => ([], m)
  | Some conns =>
      let message := event_message session_id event_type data now in
      let '(sent, disconnected) := foldl (send_step fails message) ([], []) conns in
      (sent, foldl (λ m connection, disconnect m session_id connection) m disconnected)
  end.

Definition broadcast_new_thought fails m session_id (thought_node : dict) now :=
  broadcast fails m session_id "new_thought" (PDict thought_node) now.

Definition broadcast_thinking_complete fails m session_id (summary : dict) now :=
  broadcast fails m session_id "thinking_complete" (PDict summary) now.

Definition broadcast_solution_ready fails m session_id (solution : dict) now :=
  broadcast fails m session_id "solution_ready" (PDict solution) now.

Definition broadcast_error fails m session_id (error_message error_type : string) now :=
  broadcast fails m session_id "error"
    (PDict [("error_message", JStr error_message); ("error_type", JStr error_type)]) now.

(** The subscribers of a session: [active_connections.get(session_id, [])]. *)
Definition subscribers (m : WebSocketManager) (session_id : string) : list WebSocket :=
  default [] (active_connections m !! session_id).

(** One call on the manager that sends messages, for statements about
    every message a subscriber can receive. *)
Inductive send_call :=
| Connect (session_id : string) (websocket : WebSocket)
| NewThought (session_id : string) (thought_node : dict)
| ThinkingComplete (session_id : string) (summary : dict)
| SolutionReady (session_id : string) (solution : dict)
| Error (session_id error_message error_type : string).

Definition do_send (fails : WebSocket → bool) (m : WebSocketManager)
    (c : send_call) (now : Z) : list delivery * WebSocketManager :=
  match c with
  | Connect sid ws => connect fails m sid ws now
  | NewThought sid d => broadcast_new_thought fails m sid d now
  | ThinkingComplete sid d => broadcast_thinking_complete fails m sid d now
  | SolutionReady sid d => broadcast_solution_ready fails m sid d now
  | Error sid msg ty => broadcast_error fails m sid msg ty now
  end.

Definition envelope_fields : list string :=
  ["event_type"; "session_id"; "data"; "timestamp"].

Definition event_types : list string :=
  ["connected"; "new_thought"; "thinking_complete"; "solution_ready"; "error"].

(** What the interface description asks of a message. *)
Definition is_envelope (message : dict) : Prop :=
  keys_of message ≡ₚ envelope_fields ∧
  ∃ ty, ("event_type", JStr ty) ∈ message ∧ ty ∈ event_types.

(** The fields of the acknowledgment that [connect] sends. *)
Definition ack_fields : list string :=
  ["event_type"; "session_id"; "message"; "timestamp"].

(** The event types of the four [broadcast_*] methods. *)
Definition broadcast_types : list string :=
  ["new_thought"; "thinking_complete"; "solution_ready"; "error"].

End WS.

(** ** Vocabulary of the statements *)

Module Inv.
Import Model Parser.

(** The parser states that calls can reach: every remembered node
    carries an identifier already handed out, and some node is
    remembered as soon as one identifier has been handed out. *)
Definition wf (p : ThinkingParser) : Prop :=
  (∀ n, n ∈ recent_nodes p →
        ∃ k, 1 ≤ k ≤ node_counter p ∧ id n = node_id (p_session_id p) k) ∧
  (0 < node_counter p → recent_nodes p ≠ []).

(** The nodes [out], produced in this order by a parser of session
    [sid] that had handed out [c] identifiers before: the node at
    index [i] has the identifier of counter [c + i + 1], depends only
    on identifiers of counters [1 .. c + i], and on at least one of
    them unless it is the first node of the session. *)
Definition linked (sid : string) (c : nat) (out : list ThoughtNode) : Prop :=
  ∀ i node, out !! i = Some node →
    id node = node_id sid (c + S i) ∧
    (∀ d, d ∈ dependencies node → ∃ k, 1 ≤ k ≤ c + i ∧ d = node_id sid k) ∧
    (0 < c + i → dependencies node ≠ []).

(** A node built from some segment by the text analysis. *)
Definition built (node : ThoughtNode) : Prop :=
  ∃ segment,
    content node = Py.strip segment ∧
    type node = classify_thought_type segment ∧
    confidence node = TextAnalysis.calculate_confidence segment ∧
    keywords node = TextAnalysis.extract_keywords segment.

(** A parser operation that keeps [wf] and yields linked nodes. *)
Definition sound (f : ThinkingParser → list ThoughtNode * ThinkingParser) : Prop :=
  ∀ p out p', wf p → f p = (out, p') →
    wf p' ∧ p_session_id p' = p_session_id p ∧
    node_counter p' = node_counter p + length out ∧
    linked (p_session_id p) (node_counter p) out ∧
    Forall built out.

(** The buffers a parser holds after each fragment when no segment is
    ever emitted: the running concatenations of the fragments. *)
Fixpoint buffers (buf : string) (fragments : list string) : list string :=
  match fragments with
  | [] => []
  | chunk :: rest => (buf +:+ chunk) :: buffers (buf +:+ chunk) rest
  end.

(** No buffer on the way splits into more than one segment. *)
Definition quiet (fragments : list string) : bool :=
  forallb (λ buf, length (split_into_segments buf) <=? 1) (buffers "" fragments).

(** The text that the fragments make up. *)
Definition whole (fragments : list string) : string :=
  foldr String.app "" fragments.

(** The keyword set of a type, its score on a text (the number of
    its keywords that occur in the lower-cased text) and its rank in
    the order of preference, the most preferred first. *)
Definition keywords_of (t : ThoughtType) : list string :=
  match t with
  | IMPLEMENTATION => implementation_keywords
  | VERIFICATION => verification_keywords
  | DECISION => decision_keywords
  | ALTERNATIVE => alternative_keywords
  | ANALYSIS => analysis_keywords
  end.

Definition presence_score (t : ThoughtType) (text : string) : nat :=
  score (keywords_of t) (Py.lower text).

Definition rank (t : ThoughtType) : nat :=
  match t with
  | IMPLEMENTATION => 0
  | VERIFICATION => 1
  | DECISION => 2
  | ALTERNATIVE => 3
  | ANALYSIS => 4
  end.

(** The classification as the design document words it: the score of
    a type is the number of occurrences, counted without overlap in
    the lower-cased text, of the keywords of its set. *)
Definition occurrence_score (kws : list string) (text_lower : string) : nat :=
  sum_list ((λ kw, Py.count kw text_lower) <$> kws).

Definition classify_by_occurrences (text : string) : ThoughtType :=
  pick_max ((λ '(t, kws), (t, occurrence_score kws (Py.lower text))) <$> keyword_table).

(** The number of occurrences of [w] in a list of words, and in the
    words that [extract_keywords] counts. *)
Definition counts (w : string) (l : list string) : nat :=
  length (filter (λ x, x = w) l).

Definition frequency (text w : string) : nat :=
  counts w (TextAnalysis.filtered_words text).

(** A counter of the words [seen]: one entry per distinct word,
    carrying the number of its occurrences. *)
Definition counted (c : list (string * nat)) (seen : list string) : Prop :=
  NoDup c.*1 ∧ (∀ w, w ∈ c.*1 ↔ w ∈ seen) ∧ (∀ w n, (w, n) ∈ c → n = counts w seen).

(** The order of [most_common]. *)
Definition by_count_desc (a b : string * nat) : Prop := b.2 ≤ a.2.

(** The number of sessions of [ip] that count against the cap: those
    the manager tracks for [ip] that are still in the store with a
    status other than completed and error. *)
Definition active_count (m : Sessions.SessionManager) (ip : string) : nat :=
  length (Sessions._get_active_sessions_for_ip m ip).1.

(** The sessions that a sweep at [now] finds too old. *)
Definition expired (m : Sessions.SessionManager) (now : Z) (s : Sessions.Session) : Prop :=
  (Sessions.created_at s < now - Sessions.hours (Sessions.cleanup_hours m))%Z.

#[global] Instance expired_dec m now s : Decision (expired m now s).
Proof. unfold expired. apply _. Defined.

(** The set of the contents of a list of nodes. *)
Definition contents (out : list ThoughtNode) : gset string :=
  list_to_set (content <$> out).

End Inv.

(** ** Sample inputs *)

Module Samples.
Import Parser.

(** A stream in two fragments: two sentences of more than twenty
    words each, then a short closing sentence. *)
Definition stream_head : string :=
  "First we need to look at the input list and decide how the values in it should be ordered before we start. Then we check that every value in the list is a number and that the list is not empty at all. ".

Definition stream_tail : string := "Finally we sort it.".

Definition stream : list string := [stream_head; stream_tail].

(** A stream without sentence ends. *)
Definition short_stream : list string := ["First we need "; "to check the bounds"].

(** A segment that names one verification keyword three times and
    one implementation keyword once. *)
Definition checking : string :=
  "We check the input, check the types and check the result, then write it down.".

(** A parser holding a short buffer. *)
Definition holding : ThinkingParser :=
  set_accumulated_text (init "s") "Check the bounds first".

Definition calls : list call := [Feed "Check the bounds first"; Finalize; Finalize].

(** A store with one session of a client, driven to completion. *)
Definition finished_session : Sessions.Session :=
  Sessions.setattr (Sessions.new_session "session_a" "10.0.0.1" 0)
                   (Sessions.kw_status "completed").

Definition finished : Sessions.SessionManager :=
  Sessions.update_session
    (Sessions.create_session (Sessions.new_manager 3 1) "10.0.0.1" "session_a" 0).2
    "session_a" [Sessions.kw_status "completed"].

Definition a_node : Model.dict := [("id", Model.JStr "session_a_node_1")].

(** A store with three running sessions of one client, under a cap
    of three. *)
Definition busy : Sessions.SessionManager :=
  let m := Sessions.new_manager 3 1 in
  let m := (Sessions.create_session m "10.0.0.1" "session_a" 0).2 in
  let m := (Sessions.create_session m "10.0.0.1" "session_b" 1).2 in
  (Sessions.create_session m "10.0.0.1" "session_c" 2).2.

(** Two subscribers of one session, the first of which has gone
    away. *)
Definition gone : WS.WebSocket := {| WS.ws_id := 1 |}.
Definition healthy : WS.WebSocket := {| WS.ws_id := 2 |}.

Definition fails (websocket : WS.WebSocket) : bool :=
  bool_decide (websocket = gone).

Definition two_subscribers : WS.WebSocketManager :=
  let m := (WS.connect (λ _, false) WS.new_manager "session_a" gone 0).2 in
  (WS.connect (λ _, false) m "session_a" healthy 1).2.

End Samples.

(** ** Vocabulary of the further statements on the parser *)

Module Trace.
Import Model Parser.

(** [l[-n:]] for a positive [n]. *)
Definition last_n {A} (n : nat) (l : list A) : list A := drop (length l - n) l.

(** The place of the node of index [k] (from 0) in the layout: three
    nodes to a row, 200 apart, the rows 100 apart. *)
Definition layout (k : nat) : Position :=
  {| pos_x := 200 * Z.of_nat (k mod 3); pos_y := 100 * Z.of_nat (k / 3) |}.

(** A node of session [sid], given the nodes built [before] it. *)
Definition node_ok (sid : string) (before : list ThoughtNode) (node : ThoughtNode) : Prop :=
  id node = node_id sid (S (length before)) ∧
  session_id node = sid ∧
  10 ≤ Py.len (content node) ∧
  position node = layout (length before) ∧
  NoDup (dependencies node) ∧
  (∀ d, d ∈ dependencies node → ∃ prev, prev ∈ last_n 3 before ∧ id prev = d).

(** The nodes [out] built, in this order, after the nodes [hist]. *)
Definition traced (sid : string) (hist out : list ThoughtNode) : Prop :=
  ∀ i node, out !! i = Some node → node_ok sid (hist ++ take i out) node.

(** The state of a parser of session [sid] that has built the nodes
    [hist] so far. *)
Definition tracked (sid : string) (p : ThinkingParser) (hist : list ThoughtNode) : Prop :=
  p_session_id p = sid ∧
  node_counter p = length hist ∧
  x_position p = (200 * Z.of_nat (length hist mod 3))%Z ∧
  y_position p = (100 * Z.of_nat (length hist / 3))%Z ∧
  recent_nodes p = last_n 5 hist.

(** A parser operation that keeps track. *)
Definition follows (sid : string)
    (f : ThinkingParser → list ThoughtNode * ThinkingParser) : Prop :=
  ∀ p hist out p', tracked sid p hist → f p = (out, p') →
    tracked sid p' (hist ++ out) ∧ traced sid hist out.

End Trace.

(** ** app/services/session_manager.py: views and reachable stores *)

Module SessionViews.
Import Model Exn Sessions.

(** [Session.to_dict()] *)
Definition to_dict (s : Session) : dict :=
  [ ("session_id", JStr (s_session_id s));
    ("status", JStr (status s));
    ("created_at", JTime (created_at s));
    ("thought_count", JInt (Z.of_nat (length (thought_nodes s))));
    ("tokens_used", JInt (tokens_used s));
    ("problem_text",
     JStr (if 100 <? Py.len (problem_text s)
           then Py.take 100 (problem_text s) +:+ "..."
           else problem_text s));
    ("has_solution", JBool (negb (bool_decide (solution_text s = ""))));
    ("error_message",
     match error_message s with Some e => JStr e | None => JNull end) ].

(** [get_session_count()] *)
Definition get_session_count (m : SessionManager) : nat := size (sessions m).

(** [_get_status_breakdown()]: a [defaultdict(int)] filled by one pass
    over the sessions. *)
Definition _get_status_breakdown (m : SessionManager) : gmap string nat :=
  map_fold (λ _ session breakdown,
              <[status session := default 0 (breakdown !! status session) + 1]> breakdown)
           ∅ (sessions m).

(** The calls that change a manager.  [Create] carries the identifier
    that [generate_session_id] draws and the clock reading; [Cleanup]
    the clock reading. *)
Inductive call :=
| Create (ip session_id : string) (now : Z)
| Update (session_id : string) (kwargs : list kwarg)
| AddNode (session_id : string) (thought_node : dict)
| Cleanup (now : Z).

Definition do_call (m : SessionManager) (c : call) : SessionManager :=
  match c with
  | Create ip session_id now => (create_session m ip session_id now).2
  | Update session_id kwargs => update_session m session_id kwargs
  | AddNode session_id thought_node => add_thought_node m session_id thought_node
  | Cleanup now =>
      match cleanup_old_sessions m now with
      | Return (_, m') => m'
      | Raise _ => m
      end
  end.

(** The order that the program keeps in its calls:
    [generate_session_id] draws an identifier that is not in the
    store, and an update, like those of [run_analysis], leaves the IP
    address of a session alone and takes no session out of a terminal
    status. *)
Definition orderly (m : SessionManager) (c : call) : Prop :=
  match c with
  | Create _ session_id _ => sessions m !! session_id = None
  | Update session_id kwargs =>
      (∀ v, kw_ip_address v ∉ kwargs) ∧
      ∀ s, sessions m !! session_id = Some s →
           status s ∈ ["completed"; "error"] →
           status (foldl setattr s kwargs) ∈ ["completed"; "error"]
  | AddNode _ _ => True
  | Cleanup _ => True
  end.

(** The managers that orderly calls can reach from a new one. *)
Inductive reachable : SessionManager → Prop :=
| reachable_new max_concurrent cleanup :
    reachable (new_manager max_concurrent cleanup)
| reachable_call m c :
    reachable m → orderly m c → reachable (do_call m c).

(** Every list of the IP tracking is without repetition and names
    sessions of the store that belong to its IP; every session is
    stored under its own identifier. *)
Definition tracking_ok (m : SessionManager) : Prop :=
  (∀ ip ids, ip_sessions m !! ip = Some ids →
     NoDup ids ∧ ∀ id, id ∈ ids → ∃ s, sessions m !! id = Some s ∧ ip_address s = ip) ∧
  (∀ id s, sessions m !! id = Some s → s_session_id s = id).

(** The sessions of [ip] in the store that are not in a terminal
    status. *)
Definition live (ip : string) (kv : string * Session) : Prop :=
  ip_address kv.2 = ip ∧ status kv.2 ∉ ["completed"; "error"].

#[global] Instance live_dec ip kv : Decision (live ip kv).
Proof. unfold live. apply _. Defined.

(** The number of these sessions. *)
Definition live_count (m : SessionManager) (ip : string) : nat :=
  size (filter (live ip) (sessions m)).

(** Every session of the store that is not in a terminal status is
    in the list of its IP. *)
Definition covered (m : SessionManager) : Prop :=
  ∀ id s, sessions m !! id = Some s → status s ∉ ["completed"; "error"] →
          id ∈ default [] (ip_sessions m !! ip_address s).

(** A manager under a cap of one, reached by calls that are not
    orderly: the first session is completed, pruned from the list of
    its client by the creation of a second one, and then set back to
    streaming after the second one is completed. *)
Definition revived : SessionManager :=
  foldl do_call (new_manager 1 1)
    [ Create "10.0.0.1" "session_a" 0;
      Update "session_a" [kw_status "completed"];
      Create "10.0.0.1" "session_b" 1;
      Update "session_b" [kw_status "completed"];
      Update "session_a" [kw_status "streaming"] ].

(** A manager under a cap of one, reached by a call that is not
    orderly: the session of one client is given the address of
    another, whose list does not name it. *)
Definition moved : SessionManager :=
  foldl do_call (new_manager 1 1)
    [ Create "10.0.0.1" "session_a" 0;
      Update "session_a" [kw_ip_address "10.0.0.2"] ].

End SessionViews.

(** ** The connection registry through its calls

    The two queries of the manager, the WebSocket endpoint of
    app/api/websocket.py, and the registries that the calls of the
    manager can reach from the empty one. *)

Module Connections.
Import Model WS.

Definition get_connection_count (m : WebSocketManager) (session_id : string) : nat :=
  length (default [] (active_connections m !! session_id)).

Definition has_connections (m : WebSocketManager) (session_id : string) : bool :=
  match active_connections m !! session_id with
  | Some conns => bool_decide (0 < length conns)
  | None => false
  end.

(** [websocket_endpoint]: the connection, once accepted, is
    registered, the texts the client sends are received and dropped,
    and when the client goes, or receiving fails, the connection is
    removed. *)
Definition websocket_endpoint (fails : WebSocket → bool) (m : WebSocketManager)
    (session_id : string) (websocket : WebSocket) (now : Z)
    : list delivery * WebSocketManager :=
  let '(sent, m) := connect fails m session_id websocket now in
  (sent, disconnect m session_id websocket).

(** One call on the manager; every sending call comes with the
    connections whose [send_json] raises at that time. *)
Inductive call :=
| Send (fails : WebSocket → bool) (c : send_call) (now : Z)
| Disconnect (session_id : string) (websocket : WebSocket).

Definition do_call (m : WebSocketManager) (c : call) : list delivery * WebSocketManager :=
  match c with
  | Send fails c now => do_send fails m c now
  | Disconnect session_id websocket => ([], disconnect m session_id websocket)
  end.

Definition do_calls (m : WebSocketManager) (calls : list call) : WebSocketManager :=
  foldl (λ m c, (do_call m c).2) m calls.

(** No session is registered with an empty list of connections. *)
Definition no_empty_list (m : WebSocketManager) : Prop :=
  ∀ session_id, active_connections m !! session_id ≠ Some [].

End Connections.

(** ** app/services/anthropic_client.py and [run_analysis] of app/api/routes.py

    One analysis, from the events of the upstream stream to the
    session store and the subscribers.  The upstream stream is an
    input: the events it delivers, and how it ends.  The two global
    managers, the count of the clock readings and the deliveries made
    so far form the world that the analysis changes; nothing else
    touches the world while the analysis runs.  Whether a connection
    fails does not change during the analysis, and the service object
    is built without failure. *)

Module Analysis.
Import Model Parser Exn Sessions WS.

(** [ThoughtType.value] *)
Definition value (t : ThoughtType) : string :=
  match t with
  | ANALYSIS => "analysis"
  | DECISION => "decision"
  | VERIFICATION => "verification"
  | ALTERNATIVE => "alternative"
  | IMPLEMENTATION => "implementation"
  end.

(** [thought_node.model_dump(mode='json')], for a node created at the
    instant [timestamp]. *)
Definition model_dump (timestamp : Z) (n : ThoughtNode) : dict :=
  [ ("id", JStr (id n));
    ("type", JStr (value (type n)));
    ("content", JStr (content n));
    ("confidence", JNum (confidence n));
    ("keywords", JList (JStr <$> keywords n));
    ("dependencies", JList (JStr <$> dependencies n));
    ("position", JObj [ ("x", JNum (inject_Z (pos_x (position n))));
                        ("y", JNum (inject_Z (pos_y (position n)))) ]);
    ("timestamp", JTime timestamp);
    ("session_id", JStr (session_id n)) ].

(** An event of the upstream stream, as far as [analyze_problem]
    looks at it: a [content_block_delta] with a thinking or a text
    delta, a [message_delta] with or without usage, of which the
    output tokens are read, or any other event. *)
Inductive event :=
| ThinkingDelta (thinking : string)
| TextDelta (text : string)
| MessageDelta (usage : option Z)
| OtherEvent.

(** How the stream ends: with its final message, of which the output
    tokens are read, or with an exception of the client library, when
    the request is made, between two events, or when the final
    message is asked for. *)
Inductive ending :=
| FinalMessage (output_tokens : Z)
| StreamRaises (e : exception).

Record world := {
  session_manager : SessionManager;
  websocket_manager : WebSocketManager;
  reads : nat;
  sent : list delivery }.

Definition with_sessions (w : world) (m : SessionManager) : world :=
  {| session_manager := m; websocket_manager := websocket_manager w;
     reads := reads w; sent := sent w |}.

(** The summary that goes out with [thinking_complete]. *)
Definition summary (total_thoughts : nat) (total_tokens : Z) (duration : Q) : dict :=
  [ ("total_thoughts", JInt (Z.of_nat total_thoughts));
    ("total_tokens", JInt total_tokens);
    ("duration_seconds", JNum duration);
    ("summary", JStr ("Completed analysis with " +:+ pretty total_thoughts
                      +:+ " thought nodes")) ].

Definition solution (solution_text : string) (thinking_node_count : nat) : dict :=
  [ ("solution_text", JStr solution_text);
    ("thinking_node_count", JInt (Z.of_nat thinking_node_count)) ].

Definition error (error_message error_type : string) : dict :=
  [ ("error_message", JStr error_message); ("error_type", JStr error_type) ].

Section analysis.
(** The connections whose [send_json] raises, the instant that the
    clock shows at each reading, and the instant at which each node
    was created. *)
Variable fails : WebSocket → bool.
Variable clock : nat → Z.
Variable stamp : ThoughtNode → Z.

(** [datetime.utcnow()] *)
Definition utcnow (w : world) : Z * world :=
  (clock (reads w),
   {| session_manager := session_manager w; websocket_manager := websocket_manager w;
      reads := S (reads w); sent := sent w |}).

(** [await websocket_manager.broadcast(session_id, event_type, data)]
    for a dictionary [data]; the clock is read when the session is
    registered. *)
Definition broadcast_event (w : world) (session_id event_type : string) (data : dict)
    : world :=
  match active_connections (websocket_manager w) !! session_id with
  | None => w
  | Some _ =>
      let '(now, w) := utcnow w in
      let '(out, m) :=
        broadcast fails (websocket_manager w) session_id event_type (PDict data) now in
      {| session_manager := session_manager w; websocket_manager := m;
         reads := reads w; sent := sent w ++ out |}
  end.

(** The body of the two loops over the nodes that the parser yields:
    the node is stored in the session, then broadcast. *)
Definition publish (session_id : string) (w : world) (thought_node : ThoughtNode) : world :=
  let node_dict := model_dump (stamp thought_node) thought_node in
  let w := with_sessions w (add_thought_node (session_manager w) session_id node_dict) in
  broadcast_event w session_id "new_thought" node_dict.

Definition on_thinking_chunk (sess_id : string) (parser : ThinkingParser) (w : world)
    (chunk : string) : ThinkingParser * world :=
  let '(nodes, parser) := parse_incremental parser chunk in
  (parser, foldl (publish sess_id) w nodes).

Definition on_token_usage (session_id : string) (w : world) (output_tokens : Z) : world :=
  with_sessions w
    (update_session (session_manager w) session_id [kw_tokens_used output_tokens]).

Definition on_error (session_id : string) (w : world) (error_msg : string) : world :=
  broadcast_event w session_id "error" (error error_msg "api_error").

Definition on_solution (session_id : string) (w : world) (solution_text : string) : world :=
  with_sessions w
    (update_session (session_manager w) session_id [kw_solution_text solution_text]).

(** The handling of one event of the stream; the state is the
    solution text read so far, the parser, and the world. *)
Definition on_event (session_id : string) (st : string * ThinkingParser * world)
    (e : event) : string * ThinkingParser * world :=
  let '(full_solution, parser, w) := st in
  match e with
  | ThinkingDelta chunk =>
      let '(parser, w) := on_thinking_chunk session_id parser w chunk in
      (full_solution, parser, w)
  | TextDelta chunk => (full_solution +:+ chunk, parser, w)
  | MessageDelta (Some output_tokens) =>
      (full_solution, parser, on_token_usage session_id w output_tokens)
  | MessageDelta None => st
  | OtherEvent => st
  end.

(** [analyze_problem], called with the four callbacks of
    [run_analysis].  Of the dictionary it returns, the solution text
    and the output tokens of the final message are kept. *)
Definition analyze_problem (session_id : string) (events : list event) (e : ending)
    (parser : ThinkingParser) (w : world)
    : result (string * Z) * ThinkingParser * world :=
  let '(full_solution, parser, w) := foldl (on_event session_id) ("", parser, w) events in
  match e with
  | FinalMessage output_tokens =>
      let w :=
        if bool_decide (full_solution = "") then w
        else on_solution session_id w full_solution in
      (Return (full_solution, output_tokens), parser, w)
  | StreamRaises e =>
      let error_msg := "Anthropic API error: " +:+ Exn.str e in
      (Raise (Exception error_msg), parser, on_error session_id w error_msg)
  end.

(** [len(session.thought_nodes) if session else 0] *)
Definition thought_count (m : SessionManager) (session_id : string) : nat :=
  match get_session m session_id with
  | Some session => length (thought_nodes session)
  | None => 0
  end.

Definition run_analysis (session_id problem_text : string) (events : list event)
    (e : ending) (w : world) : world :=
  let w :=
    with_sessions w
      (update_session (session_manager w) session_id
         [kw_status "streaming"; kw_problem_text problem_text]) in
  let parser := init session_id in
  let '(start_time, w) := utcnow w in
  match analyze_problem session_id events e parser w with
  | (Return (solution_text, output_tokens), parser, w) =>
      let '(nodes, _) := finalize parser in
      let w := foldl (publish session_id) w nodes in
      let '(end_time, w) := utcnow w in
      let duration := (inject_Z (end_time - start_time) / 1000000)%Q in
      let w :=
        with_sessions w
          (update_session (session_manager w) session_id
             [kw_status "completed"; kw_tokens_used output_tokens]) in
      let total_thoughts := thought_count (session_manager w) session_id in
      let w :=
        broadcast_event w session_id "thinking_complete"
          (summary total_thoughts output_tokens duration) in
      if bool_decide (solution_text = "") then w
      else broadcast_event w session_id "solution_ready"
             (solution solution_text total_thoughts)
  | (Raise e, _, w) =>
      let error_msg := Exn.str e in
      let w :=
        with_sessions w
          (update_session (session_manager w) session_id
             [kw_status "error"; kw_error_message (Some error_msg)]) in
      broadcast_event w session_id "error" (error error_msg "analysis_error")
  end.

End analysis.

(** *** Vocabulary of the statements on an analysis *)

(** The thinking text and the solution text of a stream. *)
Definition thinking_of (events : list event) : list string :=
  omap (λ e, match e with ThinkingDelta chunk => Some chunk | _ => None end) events.

Fixpoint solution_of (events : list event) : string :=
  match events with
  | [] => ""
  | TextDelta chunk :: rest => chunk +:+ solution_of rest
  | _ :: rest => solution_of rest
  end.

(** The message carries the event: its type and its data, at some
    instant. *)
Definition carries (session_id : string) (message : dict) (e : string * dict) : Prop :=
  ∃ now, message = event_message session_id e.1 (PDict e.2) now.

(** Between the deliveries [before] and [after], the events went out
    in this order, each to all of the connections [to]. *)
Definition aired (session_id : string) (to : list WebSocket)
    (before after : list delivery) (events : list (string * dict)) : Prop :=
  ∃ messages,
    Forall2 (carries session_id) messages events ∧
    after = before ++ (messages ≫= λ message, (λ c, (c, message)) <$> to).

(** The subscribers of the session whose [send_json] does not raise. *)
Definition listeners (fails : WebSocket → bool) (w : world) (session_id : string)
    : list WebSocket :=
  List.filter (λ c, negb (fails c)) (subscribers (websocket_manager w) session_id).

(** The store [m] with the session [os] in the place of
    [session_id]; [None] stands for a session that the store does not
    know. *)
Definition stored (m : SessionManager) (session_id : string) (os : option Session)
    : SessionManager :=
  match os with
  | Some s => set_sessions m (<[session_id := s]> (sessions m))
  | None => m
  end.

(** The session after nodes were added to it and, possibly, its token
    count was set. *)
Definition advance (s : Session) (nodes : list dict) (tokens : option Z) : Session :=
  {| s_session_id := s_session_id s; ip_address := ip_address s; status := status s;
     created_at := created_at s; thought_nodes := thought_nodes s ++ nodes;
     tokens_used := default (tokens_used s) tokens; problem_text := problem_text s;
     solution_text := solution_text s; error_message := error_message s |}.

(** A world in the course of an analysis that started from the store
    [m] and the deliveries [before]: the store differs from [m] by
    the session [os] at most, the listeners are [to], and the events
    went out to them. *)
Definition at_stage (fails : WebSocket → bool) (m : SessionManager) (session_id : string)
    (to : list WebSocket) (before : list delivery) (w : world) (os : option Session)
    (events : list (string * dict)) : Prop :=
  session_manager w = stored m session_id os ∧
  listeners fails w session_id = to ∧
  aired session_id to before (sent w) events.

(** The output tokens that the stream reported last, [tokens] when
    it reported none. *)
Fixpoint usage_of (tokens : option Z) (events : list event) : option Z :=
  match events with
  | [] => tokens
  | MessageDelta (Some output_tokens) :: rest => usage_of (Some output_tokens) rest
  | _ :: rest => usage_of tokens rest
  end.

(** The session [s] after an analysis that went through, and after
    one that failed. *)
Definition completed (s : Session) (problem solution_text : string) (nodes : list dict)
    (tokens : Z) : Session :=
  {| s_session_id := s_session_id s; ip_address := ip_address s; status := "completed";
     created_at := created_at s; thought_nodes := thought_nodes s ++ nodes;
     tokens_used := tokens; problem_text := problem;
     solution_text := if bool_decide (solution_text = "") then Sessions.solution_text s
                      else solution_text;
     error_message := error_message s |}.

Definition failed (s : Session) (problem error_msg : string) (nodes : list dict)
    (tokens : option Z) : Session :=
  {| s_session_id := s_session_id s; ip_address := ip_address s; status := "error";
     created_at := created_at s; thought_nodes := thought_nodes s ++ nodes;
     tokens_used := default (tokens_used s) tokens; problem_text := problem;
     solution_text := Sessions.solution_text s;
     error_message := Some error_msg |}.

End Analysis.

(** ** Instances for the statements on an analysis *)

Module Scenes.
Import Model Sessions WS Analysis.

(** A clock that advances by one second at each reading. *)
Definition clock (n : nat) : Z := (1000000 * Z.of_nat n)%Z.

Definition stamp (_ : ThoughtNode) : Z := 0%Z.

(** A stream: thinking text in two fragments, a usage report and a
    solution text. *)
Definition events : list event :=
  [ ThinkingDelta Samples.stream_head; MessageDelta (Some 12%Z);
    TextDelta "Sort the list."; ThinkingDelta Samples.stream_tail ].

(** A world with one new session, which has two subscribers, and a
    world without sessions. *)
Definition start : world :=
  {| session_manager :=
       (create_session (Sessions.new_manager 3 1) "10.0.0.1" "session_a" 0).2;
     websocket_manager := Samples.two_subscribers;
     reads := 0; sent := [] |}.

Definition nowhere : world :=
  {| session_manager := Sessions.new_manager 3 1;
     websocket_manager := Samples.two_subscribers;
     reads := 0; sent := [] |}.

End Scenes.

(** ** app/config.py *)

Module Config.

(** [s.split(sep)] for a one-character [sep]: every separator splits,
    and empty pieces are kept. *)
Fixpoint split_sep (sep : ascii) (s : string) : list string :=
  match s with
  | EmptyString => [EmptyString]
  | String c r =>
      if Ascii.eqb sep c then EmptyString :: split_sep sep r
      else match split_sep sep r with
           | piece :: pieces => String c piece :: pieces
           | [] => [String c EmptyString]
           end
  end.

(** [Settings.cors_origins_list] *)
Definition cors_origins_list (cors_origins : string) : list string :=
  Py.strip <$> split_sep "," cors_origins.

End Config.

(** ** Vocabulary of the statements on fragments

    A call of [parse_incremental] that emits cuts the text: it keeps
    the last segment in the place of the text.  The cut is clean when
    the text does not end in white space and [split_into_segments]
    drops no remainder of it. *)

Module Cuts.
Import Model Parser Inv.

Definition ends_solid (text : string) : bool :=
  match String.rev text with
  | String c _ => negb (Py.is_space c)
  | EmptyString => false
  end.

Definition starts_solid (text : string) : bool :=
  match text with
  | String c _ => negb (Py.is_space c)
  | EmptyString => false
  end.

(** The current segment that the loop of [split_into_segments]
    leaves, which is dropped when it has fewer than ten words. *)
Definition remainder (text : string) : string :=
  (foldl (segment_step 20) ([], "") (Py.re_split Py.sentence_end text)).2.

Definition clean_cut (text : string) : bool :=
  ends_solid text &&
  (bool_decide (remainder text = "") || (10 <=? length (Py.split (remainder text)))).

(** When none of the calls that follow emits, the text they leave is
    one segment as it stands. *)
Definition settled (buf : string) (rest : list string) : bool :=
  implb (forallb (λ b, length (split_into_segments b) <=? 1) (buffers buf rest))
        (bool_decide (split_into_segments (buf +:+ whole rest) = [buf +:+ whole rest])).

(** The fragments that a parser holding [buf] is fed are cut cleanly:
    every call that emits, the last call apart, makes a clean cut
    after which the rest settles. *)
Fixpoint clean (buf : string) (fragments : list string) : bool :=
  match fragments with
  | [] => true
  | chunk :: rest =>
      let text := buf +:+ chunk in
      let segments := split_into_segments text in
      if 1 <? length segments
      then match rest with
           | [] => true
           | _ :: _ =>
               clean_cut text && settled (List.last segments "") rest
               && clean (List.last segments "") rest
           end
      else clean text rest
  end.

(** The first match of the sentence end in a text: the piece before
    it and the text after it. *)
Fixpoint first_match (s : string) : option (string * string) :=
  match s with
  | EmptyString => None
  | String c r =>
      match Py.sentence_end None s with
      | Some (S n) => Some (EmptyString, Py.drop n r)
      | _ =>
          match first_match r with
          | Some (piece, rest) => Some (String c piece, rest)
          | None => None
          end
      end
  end.

(** No terminator of the text is followed by white space or ends the
    text: no sentence end begins in it, whatever follows it. *)
Fixpoint tight (s : string) : bool :=
  match s with
  | EmptyString => true
  | String c r =>
      match r with
      | EmptyString => negb (Py.is_terminator c)
      | String d _ => negb (Py.is_terminator c && Py.is_space d) && tight r
      end
  end.

(** A stream in three fragments; the first and the last call emit. *)
Definition stream : list string :=
  [ "First we need to look at the input list and decide how the values in it should be ordered before we start. Then we check that every value in the list is a number";
    " and that the list is not empty at all. Finally we sort it with";
    " a stable algorithm and return the sorted list to the caller" ].

(** The current segment [cur] can be read back: followed by the
    separator and a text, it splits into its own sentences, which
    make it up again, and the pieces of the text. *)
Definition joins (cur : string) : Prop :=
  cur = "" ∨
  ∀ x, starts_solid x = true →
    foldl (segment_step 20) ([], "") (Py.re_split Py.sentence_end (cur +:+ ". " +:+ x))
    = foldl (segment_step 20) ([], cur) (Py.re_split Py.sentence_end x).

(** The end of [split_into_segments]: the remainder is kept when it
    has ten words. *)
Definition finish (st : list string * string) : list string :=
  if negb (bool_decide (st.2 = "")) && (20 / 2 <=? length (Py.split st.2))
  then st.1 ++ [st.2]
  else st.1.

(** The nodes of a use of the parser [p]: the fragments fed in
    order, then [finalize]. *)
Definition run_from (p : ThinkingParser) (fragments : list string) : list ThoughtNode :=
  let '(out, p) := feed_all p fragments in
  let '(out', _) := finalize p in
  out ++ out'.

(** The text is at least two segments, or one segment as it stands. *)
Definition good (text : string) : Prop :=
  2 ≤ length (split_into_segments text) ∨ split_into_segments text = [text].

(** Two sentences of twenty-one words, for the streams below. *)
Definition first_sentence : string :=
  "First we need to look at the input list and decide how the values in it should be ordered before we start".

Definition second_sentence : string :=
  "Then we check that every value in the list is a number and that the list is not empty at all".

(** A cut that drops words: the first call leaves three words that
    are no segment, and the parser forgets them. *)
Definition dropping : list string :=
  [ first_sentence +:+ ". " +:+ second_sentence +:+ ". Finally we sort"; " it now" ].

(** A cut after which the rest does not settle: the text of the last
    two fragments is one segment, but not as it stands, for the loop
    rejoins its two sentences with one blank. *)
Definition unsettled : list string :=
  [ first_sentence +:+ ". Then we check that every value in the list is a number";
    ".  Then we sort it" ].

End Cuts.

(** * Properties *)

(** ** The node builder *)

Section builder.
Import Model Parser.

Lemma node_id_inj sid : Inj (=) (=) (node_id sid).
Proof.
  intros a b H. unfold node_id in H.
  apply (inj (String.app sid)) in H.
  apply (inj (String.app "_node_")) in H.
  by apply (inj pretty) in H.
Qed.

(** The dependencies are identifiers of remembered nodes. *)
Lemma detect_dependencies_recent p node d :
  d ∈ detect_dependencies p node → ∃ prev, prev ∈ recent_nodes p ∧ id prev = d.
Proof.
  unfold detect_dependencies.
  set (start := if any_referential_cue _ then _ else _).
  assert (Hstart : ∀ x, x ∈ start → ∃ prev, prev ∈ recent_nodes p ∧ id prev = x).
  { subst start. intros x. destruct (any_referential_cue _); [|by intros ?%elem_of_nil].
    destruct (last (recent_nodes p)) as [prev|] eqn:Hl; [|by intros ?%elem_of_nil].
    simpl. intros ->%list_elem_of_singleton. exists prev. split; [|done].
    apply last_Some in Hl as [l' ->]. set_solver. }
  assert (Hsub : ∀ x, x ∈ last3 (recent_nodes p) → x ∈ recent_nodes p).
  { intros x Hx. unfold last3 in Hx. rewrite <- (take_drop (length (recent_nodes p) - 3)).
    apply elem_of_app. by right. }
  revert Hsub. generalize (last3 (recent_nodes p)) as l.
  revert Hstart. generalize start as deps. clear start.
  intros deps Hdeps l. revert deps Hdeps.
  induction l as [|r l IH]; intros deps Hdeps Hsub; simpl.
  - destruct deps as [|d0 deps].
    + destruct (last (recent_nodes p)) as [prev|] eqn:Hl; [|by intros ?%elem_of_nil].
      intros ->%list_elem_of_singleton. exists prev. split; [|done].
      apply last_Some in Hl as [l' ->]. set_solver.
    + destruct (last (recent_nodes p)); apply Hdeps.
  - apply IH; [|intros x Hx; apply Hsub; by right].
    destruct (_ && _); [|done].
    intros x [Hx| ->%list_elem_of_singleton]%elem_of_app; [by apply Hdeps|].
    exists r. split; [|done]. apply Hsub. by left.
Qed.

(** With a remembered node at hand the dependencies are not empty. *)
Lemma detect_dependencies_nonempty p node :
  recent_nodes p ≠ [] → detect_dependencies p node ≠ [].
Proof.
  intros Hne. unfold detect_dependencies.
  destruct (last (recent_nodes p)) as [prev|] eqn:Hl.
  - by destruct (foldl _ _ _).
  - by apply last_None in Hl.
Qed.

End builder.

Section parser_invariant.
Import Model Parser Inv.

Lemma wf_init sid : wf (init sid).
Proof. split; simpl; [by intros n ?%elem_of_nil | lia]. Qed.

Lemma linked_nil sid c : linked sid c [].
Proof. by intros i node ?. Qed.

Lemma linked_app sid c out1 out2 :
  linked sid c out1 → linked sid (c + length out1) out2 → linked sid c (out1 ++ out2).
Proof.
  intros H1 H2 i node Hi.
  apply lookup_app_Some in Hi as [Hi|[Hge Hi]]; [by apply H1|].
  apply H2 in Hi as (Hid & Hdeps & Hne).
  replace (c + length out1 + S (i - length out1)) with (c + S i) in Hid by lia.
  replace (c + length out1 + (i - length out1)) with (c + i) in Hdeps, Hne by lia.
  done.
Qed.

Lemma generate_position_frame p pos p' :
  generate_position p = (pos, p') →
  p_session_id p' = p_session_id p ∧ node_counter p' = node_counter p ∧
  recent_nodes p' = recent_nodes p ∧ accumulated_text p' = accumulated_text p.
Proof. unfold generate_position. destruct (_ =? 0); by intros [= <- <-]. Qed.

(** A trivial segment leaves the parser as it is. *)
Lemma create_node_none p segment p' :
  _create_node_from_segment p segment = (None, p') → p' = p.
Proof.
  unfold _create_node_from_segment.
  destruct (_ || _); [by intros [= <-]|]. simpl.
  by destruct (generate_position _).
Qed.

Lemma remember_recent p node :
  recent_nodes (remember p node) ≠ [] ∧
  ∀ n, n ∈ recent_nodes (remember p node) → n ∈ recent_nodes p ∨ n = node.
Proof.
  unfold remember; simpl. destruct (5 <? _) eqn:H5.
  - apply Nat.ltb_lt in H5. rewrite length_app in H5. simpl in H5.
    destruct (recent_nodes p) as [|n0 [|n1 l]]; simpl in *; [lia|lia|].
    split; [done|]. intros n Hn. rewrite app_comm_cons in Hn.
    apply elem_of_app in Hn as [Hn| ->%list_elem_of_singleton]; [|by right].
    left. by right.
  - split; [by destruct (recent_nodes p)|].
    intros n [Hn| ->%list_elem_of_singleton]%elem_of_app; auto.
Qed.

(** What a built node looks like, and what the parser remembers. *)
Lemma create_node_some p segment node p' :
  _create_node_from_segment p segment = (Some node, p') →
  id node = node_id (p_session_id p) (S (node_counter p)) ∧
  content node = Py.strip segment ∧
  confidence node = TextAnalysis.calculate_confidence segment ∧
  keywords node = TextAnalysis.extract_keywords segment ∧
  type node = classify_thought_type segment ∧
  (∀ d, d ∈ dependencies node → ∃ prev, prev ∈ recent_nodes p ∧ id prev = d) ∧
  (recent_nodes p ≠ [] → dependencies node ≠ []) ∧
  p_session_id p' = p_session_id p ∧
  node_counter p' = S (node_counter p) ∧
  accumulated_text p' = accumulated_text p ∧
  recent_nodes p' ≠ [] ∧
  (∀ n, n ∈ recent_nodes p' → n ∈ recent_nodes p ∨ n = node).
Proof.
  unfold _create_node_from_segment.
  destruct (_ || _); [by intros [=]|]. simpl.
  destruct (generate_position _) as [pos p1] eqn:Hgp.
  apply generate_position_frame in Hgp as (Hsid & Hc & Hrec & Hacc). simpl in *.
  intros [= <- <-]. simpl. rewrite Nat.add_1_r in *.
  pose proof (remember_recent p1) as Hrem. rewrite Hrec in Hrem.
  split_and!; try done.
  - intros d Hd. rewrite <- Hrec. by eapply detect_dependencies_recent.
  - intros Hne. apply detect_dependencies_nonempty. by rewrite Hrec.
  - apply Hrem.
  - apply Hrem.
Qed.

Lemma create_node_sound segment :
  sound (λ p, let '(o, p') := _create_node_from_segment p segment in (option_list o, p')).
Proof.
  intros p out p' [Hids Hne].
  destruct (_create_node_from_segment p segment) as [[node|] p1] eqn:Hc;
    intros [= <- <-]; simpl.
  - apply create_node_some in Hc
      as (Hid & Hcont & Hconf & Hkw & Hty & Hdeps & Hdne & Hsid & Hcnt & _ & Hrne & Hrec).
    split_and!; [split| | | |]; try done.
    + intros n [Hn| ->]%Hrec.
      * destruct (Hids n Hn) as (k & ? & ?). exists k. rewrite Hsid, Hcnt. split; [lia|done].
      * exists (S (node_counter p)). rewrite Hsid, Hcnt. split; [lia|done].
    + lia.
    + intros [|i] n' [=]; subst n'. rewrite !Nat.add_0_r, Nat.add_1_r.
      split_and!; [done| |].
      * intros d (prev & Hprev & <-)%Hdeps. destruct (Hids prev Hprev) as (k & ? & ?). eauto.
      * intros Hpos. apply Hdne. by apply Hne.
    + apply Forall_singleton. by exists segment.
  - apply create_node_none in Hc as ->.
    split_and!; [done|done|lia|apply linked_nil|done].
Qed.

Lemma sound_seq f g :
  sound f → sound g →
  sound (λ p, let '(out, p) := f p in let '(out', p) := g p in (out ++ out', p)).
Proof.
  intros Hf Hg p out p' Hwf.
  destruct (f p) as [out1 p1] eqn:H1. destruct (g p1) as [out2 p2] eqn:H2.
  intros [= <- <-].
  destruct (Hf _ _ _ Hwf H1) as (Hwf1 & Hs1 & Hc1 & Hl1 & Hb1).
  destruct (Hg _ _ _ Hwf1 H2) as (Hwf2 & Hs2 & Hc2 & Hl2 & Hb2).
  rewrite length_app. split_and!; [done|congruence|lia| |by apply Forall_app].
  apply linked_app; [done|]. by rewrite <- Hc1, <- Hs1.
Qed.

Lemma sound_ret : sound (λ p, ([], p)).
Proof. intros p out p' Hwf [= <- <-]. split_and!; [done|done|simpl; lia|apply linked_nil|done]. Qed.

Lemma sound_ext f g : (∀ p, f p = g p) → sound f → sound g.
Proof. intros Hfg Hf p out p' Hwf Hg. rewrite <- Hfg in Hg. by apply Hf. Qed.

Lemma sound_set_accumulated_text f text :
  sound f → sound (λ p, f (set_accumulated_text p text)).
Proof.
  intros Hf p out p' Hwf H.
  assert (Hwf' : wf (set_accumulated_text p text)) by done.
  apply (Hf _ _ _ Hwf' H).
Qed.

(** The loop over the complete segments, from any nodes already
    yielded. *)
Lemma emit_segments_acc segments : ∀ out p,
  foldl emit_segment (out, p) segments =
  let '(more, p') := foldl emit_segment ([], p) segments in (out ++ more, p').
Proof.
  induction segments as [|seg segments IH]; intros out p; simpl.
  - by rewrite app_nil_r.
  - destruct (_create_node_from_segment p seg) as [[node|] p1]; [|apply IH].
    rewrite (IH (out ++ [node])), (IH [node]).
    destruct (foldl _ _ _) as [more p']. by rewrite <- app_assoc.
Qed.

Lemma emit_segments_sound segments :
  sound (λ p, foldl emit_segment ([], p) segments).
Proof.
  induction segments as [|seg segments IH]; [apply sound_ret|].
  eapply sound_ext; [|apply (sound_seq _ _ (create_node_sound seg) IH)].
  intros p. simpl.
  destruct (_create_node_from_segment p seg) as [[node|] p1]; simpl; [|by destruct (foldl _ _ _)].
  by rewrite (emit_segments_acc _ [node]).
Qed.

Lemma parse_incremental_sound text_chunk :
  sound (λ p, parse_incremental p text_chunk).
Proof.
  intros p. unfold parse_incremental. simpl.
  destruct (1 <? _).
  - apply (sound_set_accumulated_text _ _
             (sound_set_accumulated_text _ _ (emit_segments_sound _))).
  - apply (sound_set_accumulated_text _ _ sound_ret).
Qed.

Lemma finalize_sound : sound finalize.
Proof.
  intros p. unfold finalize. destruct (negb _); [|apply sound_ret].
  generalize (create_node_sound (accumulated_text p) p).
  by destruct (_create_node_from_segment _ _) as [[node|] p1].
Qed.

Lemma do_calls_sound cs : sound (λ p, do_calls p cs).
Proof.
  induction cs as [|c cs IH]; [apply sound_ret|].
  simpl. apply sound_seq; [|done].
  destruct c; [apply parse_incremental_sound | apply finalize_sound].
Qed.

End parser_invariant.

(** ** Strings *)

Section strings.

Lemma string_app_cons a s1 s2 : String a s1 +:+ s2 = String a (s1 +:+ s2).
Proof. reflexivity. Qed.

Lemma string_app_nil_r s : s +:+ "" = s.
Proof. induction s as [|a s IH]; [done|]. by rewrite string_app_cons, IH. Qed.

Lemma string_app_assoc s1 s2 s3 : (s1 +:+ s2) +:+ s3 = s1 +:+ (s2 +:+ s3).
Proof. induction s1 as [|a s1 IH]; [done|]. by rewrite !string_app_cons, IH. Qed.

Lemma strip_empty : Py.strip "" = "".
Proof. reflexivity. Qed.

End strings.

(** ** Feeding fragments *)

Section feeding.
Import Model Parser Inv.

Lemma set_accumulated_text_id p : set_accumulated_text p (accumulated_text p) = p.
Proof. by destruct p. Qed.

(** While no buffer splits into two segments, feeding only
    accumulates. *)
Lemma feed_all_quiet fragments : ∀ p,
  forallb (λ buf, length (split_into_segments buf) <=? 1)
          (buffers (accumulated_text p) fragments) = true →
  feed_all p fragments =
  ([], set_accumulated_text p (accumulated_text p +:+ whole fragments)).
Proof.
  induction fragments as [|chunk rest IH]; intros p H; simpl in *.
  - by rewrite string_app_nil_r, set_accumulated_text_id.
  - apply andb_true_iff in H as [H1 H2]. apply Nat.leb_le in H1.
    unfold parse_incremental. simpl.
    destruct (Nat.ltb_spec 1 (length (split_into_segments (accumulated_text p +:+ chunk))));
      [lia|].
    rewrite IH; [|done]. simpl. by rewrite string_app_assoc.
Qed.

Lemma buffers_last fragments : ∀ buf,
  fragments ≠ [] →
  forallb (λ buf, length (split_into_segments buf) <=? 1) (buffers buf fragments) = true →
  length (split_into_segments (buf +:+ whole fragments)) ≤ 1.
Proof.
  induction fragments as [|chunk rest IH]; intros buf Hne H; [done|]. simpl in *.
  apply andb_true_iff in H as [H1 H2]. apply Nat.leb_le in H1.
  destruct rest as [|chunk' rest].
  - simpl. by rewrite string_app_nil_r.
  - rewrite <- string_app_assoc. by apply IH.
Qed.

Lemma quiet_whole fragments : quiet fragments = true → quiet [whole fragments] = true.
Proof.
  intros H. unfold quiet. simpl. rewrite andb_true_r. apply Nat.leb_le.
  destruct fragments as [|chunk rest]; [vm_compute; lia|].
  by apply (buffers_last _ ""), H.
Qed.

Lemma run_quiet sid fragments :
  quiet fragments = true →
  run sid fragments = (finalize (set_accumulated_text (init sid) (whole fragments))).1.
Proof.
  intros H. unfold run. rewrite feed_all_quiet; [|done]. simpl.
  by destruct (finalize _).
Qed.

Lemma create_node_total p segment :
  10 ≤ Py.len (Py.strip segment) →
  ∃ node p', _create_node_from_segment p segment = (Some node, p').
Proof.
  intros Hlen. unfold _create_node_from_segment.
  destruct (bool_decide_reflect (segment = "")) as [->|_]; [vm_compute in Hlen; lia|].
  destruct (Nat.ltb_spec (Py.len (Py.strip segment)) 10); [lia|]. simpl.
  destruct (generate_position _). eauto.
Qed.

End feeding.

(** ** Text analysis *)

Section text_analysis.
Import TextAnalysis Inv.

Lemma counts_snoc k seen w :
  counts k (seen ++ [w]) = counts k seen + (if decide (w = k) then 1 else 0).
Proof.
  unfold counts. rewrite filter_app, length_app. f_equal.
  rewrite filter_cons. by destruct (decide (w = k)).
Qed.

Lemma counts_notin w l : w ∉ l → counts w l = 0.
Proof.
  unfold counts. induction l as [|x l IH]; [done|].
  intros [Hne Hnin]%not_elem_of_cons. rewrite filter_cons_False; [by apply IH|done].
Qed.

Lemma counter_add_keys_in w c : w ∈ c.*1 → (counter_add w c).*1 = c.*1.
Proof.
  induction c as [|[k n] c IH]; csimpl; [by intros ?%elem_of_nil|].
  intros Hin. destruct (decide (k = w)) as [->|Hne]; csimpl; [done|].
  rewrite IH; [done|]. by apply elem_of_cons in Hin as [->|?].
Qed.

Lemma counter_add_keys_notin w c : w ∉ c.*1 → (counter_add w c).*1 = c.*1 ++ [w].
Proof.
  induction c as [|[k n] c IH]; csimpl; [done|].
  intros Hnin. apply not_elem_of_cons in Hnin as [Hne Hnin].
  destruct (decide (k = w)) as [->|_]; csimpl; [done|]. by rewrite IH.
Qed.

Lemma counter_add_elem w c k n :
  NoDup c.*1 → (k, n) ∈ counter_add w c →
  (k ≠ w ∧ (k, n) ∈ c) ∨
  (k = w ∧ ((∃ n', n = S n' ∧ (w, n') ∈ c) ∨ ((w ∉ c.*1) ∧ n = 1))).
Proof.
  induction c as [|[k0 n0] c IH]; csimpl; intros Hnd Hin.
  - apply list_elem_of_singleton in Hin as [= -> ->]. right. split; [done|].
    right. split; [apply not_elem_of_nil|done].
  - apply NoDup_cons in Hnd as [Hk0 Hnd].
    destruct (decide (k0 = w)) as [->|Hne].
    + apply elem_of_cons in Hin as [[= -> ->]|Hin].
      * right. split; [done|]. left. exists n0. split; [done|by left].
      * left. split; [|by right]. intros ->. apply Hk0.
        apply list_elem_of_fmap. by exists (w, n).
    + apply elem_of_cons in Hin as [[= -> ->]|Hin].
      * left. split; [done|by left].
      * destruct (IH Hnd Hin) as [[? ?]|[-> [(n' & -> & ?)|[? ->]]]].
        -- left. split; [done|by right].
        -- right. split; [done|]. left. exists n'. split; [done|by right].
        -- right. split; [done|]. right. split; [|done].
           intros [?|?]%elem_of_cons; done.
Qed.

Lemma counter_add_counted w c seen :
  counted c seen → counted (counter_add w c) (seen ++ [w]).
Proof.
  intros (Hnd & Hkeys & Hcnt). split_and!.
  - destruct (decide (w ∈ c.*1)) as [Hin|Hnin].
    + by rewrite counter_add_keys_in.
    + rewrite counter_add_keys_notin; [|done].
      apply NoDup_app. split_and!; [done| |apply NoDup_singleton].
      by intros x Hx ->%list_elem_of_singleton.
  - intros x. rewrite elem_of_app, list_elem_of_singleton, <- Hkeys.
    destruct (decide (w ∈ c.*1)) as [Hin|Hnin].
    + rewrite counter_add_keys_in; [|done]. split; [auto|]. by intros [?| ->].
    + rewrite counter_add_keys_notin; [|done].
      by rewrite elem_of_app, list_elem_of_singleton.
  - intros k n Hin. rewrite counts_snoc.
    destruct (counter_add_elem _ _ _ _ Hnd Hin) as [[Hne Hk]|[-> [(n' & -> & Hk)|[Hnin ->]]]].
    + rewrite (Hcnt _ _ Hk). case_decide; [congruence|lia].
    + rewrite (Hcnt _ _ Hk). case_decide; [lia|done].
    + case_decide; [|done].
      rewrite counts_notin; [done|]. intros Hw. by apply Hnin, Hkeys.
Qed.

Lemma Counter_counted ws : counted (Counter ws) ws.
Proof.
  unfold Counter.
  assert (∀ c seen, counted c seen → counted (foldl (λ c w, counter_add w c) c ws) (seen ++ ws))
    as H.
  { induction ws as [|w ws IH]; intros c seen Hc; simpl.
    - by rewrite app_nil_r.
    - rewrite (cons_middle w seen ws), app_assoc. by apply IH, counter_add_counted. }
  apply (H [] []). split_and!; [constructor|done|by intros w n ?%elem_of_nil].
Qed.

Lemma insert_desc_perm x l : insert_desc x l ≡ₚ x :: l.
Proof.
  induction l as [|y l IH]; simpl; [done|].
  destruct (y.2 <=? x.2); [done|]. by rewrite IH, Permutation_swap.
Qed.

Lemma sorted_desc_perm l : sorted_desc l ≡ₚ l.
Proof.
  induction l as [|x l IH]; simpl; [done|]. by rewrite insert_desc_perm, IH.
Qed.

Lemma insert_desc_sorted x l :
  StronglySorted by_count_desc l → StronglySorted by_count_desc (insert_desc x l).
Proof.
  induction 1 as [|y l Hl IH Hy]; simpl; [repeat constructor|].
  destruct (Nat.leb_spec y.2 x.2) as [Hle|Hlt].
  - constructor; [by constructor|]. constructor; [done|].
    eapply Forall_impl; [exact Hy|]. unfold by_count_desc. intros; simpl in *; lia.
  - constructor; [done|]. rewrite insert_desc_perm. constructor; [|done].
    unfold by_count_desc. lia.
Qed.

Lemma sorted_desc_sorted l : StronglySorted by_count_desc (sorted_desc l).
Proof.
  induction l as [|x l IH]; simpl; [constructor|]. by apply insert_desc_sorted.
Qed.

Lemma StronglySorted_lookup {A} (R : relation A) l i j a b :
  StronglySorted R l → i < j → l !! i = Some a → l !! j = Some b → R a b.
Proof.
  intros Hl. revert i j. induction Hl as [|x l Hl IH Hx]; intros i j Hij Hi Hj; [done|].
  destruct j as [|j]; [lia|]. simpl in Hj. destruct i as [|i]; simpl in Hi.
  - injection Hi as ->. rewrite Forall_forall in Hx. apply Hx.
    by eapply list_elem_of_lookup_2.
  - apply (IH i j); [lia|done|done].
Qed.

(** Every match of [\b[a-z]{3,}\b] is made of at least three
    lower-case letters. *)
Lemma take_prefix_len p s k :
  k ≤ Py.prefix_len p s → Py.all_chars p (Py.take k s) = true ∧ Py.len (Py.take k s) = k.
Proof.
  revert k. induction s as [|c s IH]; intros [|k] Hk; simpl in *; try done; [lia|].
  destruct (p c) eqn:Hc; [|lia]. destruct (IH k) as [-> Hlen]; [lia|].
  unfold Py.len in *. simpl. by rewrite Hlen.
Qed.

Lemma lower_run_match prev s k :
  Py.lower_run prev s = Some k →
  3 ≤ k ∧ Py.all_chars Py.is_lower (Py.take k s) = true ∧ Py.len (Py.take k s) = k.
Proof.
  unfold Py.lower_run. destruct (Py.boundary _ _); [|done].
  intros [Hin _]%find_some. apply list_elem_of_In, elem_of_reverse, elem_of_seq in Hin.
  split; [lia|]. apply take_prefix_len. lia.
Qed.

Lemma re_findall_match m s : ∀ prev skip w,
  w ∈ Py.re_findall_go m prev skip s →
  ∃ prev' s' n, m prev' s' = Some (S n) ∧ w = Py.take (S n) s'.
Proof.
  induction s as [|c s IH]; intros prev skip w; simpl; [by intros ?%elem_of_nil|].
  destruct skip as [|skip]; [|apply IH].
  destruct (m prev (String c s)) as [[|n]|] eqn:Hm; [apply IH| |apply IH].
  intros [->|Hw]%elem_of_cons; [|by eapply IH].
  by exists prev, (String c s), n.
Qed.

Lemma words_of_lower text w :
  w ∈ words_of text → Py.all_chars Py.is_lower w = true ∧ 3 ≤ Py.len w.
Proof.
  intros (prev & s & n & Hm & ->)%re_findall_match.
  apply lower_run_match in Hm as (? & ? & ?). split; [done|lia].
Qed.

Lemma clamp01_bounds q : (0 <= clamp01 q)%Q ∧ (clamp01 q <= 1)%Q.
Proof.
  unfold clamp01. split; [apply Q.le_max_l|].
  apply Q.max_lub; [done|apply Q.le_min_l].
Qed.

Lemma keywords_entries text i w :
  extract_keywords text !! i = Some w →
  i < 5 ∧ ∃ n, sorted_desc (Counter (filtered_words text)) !! i = Some (w, n)
               ∧ n = counts w (filtered_words text).
Proof.
  unfold extract_keywords, extract_keywords_n, most_common.
  rewrite list_lookup_fmap. intros Hi.
  destruct (take 5 _ !! i) as [[w' n]|] eqn:Ht; [|done]. injection Hi as ->.
  apply lookup_take_Some in Ht as [Hs Hlt]. split; [done|]. exists n. split; [done|].
  destruct (Counter_counted (filtered_words text)) as (_ & _ & Hcnt). apply Hcnt.
  rewrite <- (sorted_desc_perm (Counter _)). by eapply list_elem_of_lookup_2.
Qed.

Lemma extract_keywords_spec text :
  length (extract_keywords text) ≤ 5 ∧
  NoDup (extract_keywords text) ∧
  (∀ w, w ∈ extract_keywords text →
        Py.all_chars Py.is_lower w = true ∧ 3 ≤ Py.len w ∧ (w ∉ stop_words) ∧
        w ∈ filtered_words text) ∧
  (∀ i j wi wj, i < j →
        extract_keywords text !! i = Some wi → extract_keywords text !! j = Some wj →
        frequency text wj ≤ frequency text wi) ∧
  (∀ w k, w ∈ filtered_words text → (w ∉ extract_keywords text) →
        k ∈ extract_keywords text →
        frequency text w ≤ frequency text k).
Proof.
  destruct (Counter_counted (filtered_words text)) as (Hnd & Hkeys & Hcnt).
  unfold frequency. split_and!.
  - unfold extract_keywords, extract_keywords_n, most_common.
    rewrite length_fmap, length_take. lia.
  - unfold extract_keywords, extract_keywords_n, most_common. rewrite fmap_take.
    eapply sublist_NoDup; [|apply sublist_take]. by rewrite sorted_desc_perm.
  - intros w (i & Hi)%list_elem_of_lookup.
    apply keywords_entries in Hi as (_ & n & Hs & _).
    assert (w ∈ filtered_words text) as Hw.
    { apply Hkeys. rewrite <- (sorted_desc_perm (Counter _)).
      apply list_elem_of_fmap. exists (w, n). split; [done|by eapply list_elem_of_lookup_2]. }
    pose proof Hw as [Hstop Hword%words_of_lower]%list_elem_of_filter.
    by destruct Hword.
  - intros i j wi wj Hij (_ & ni & Hi & ->)%keywords_entries (_ & nj & Hj & ->)%keywords_entries.
    apply (StronglySorted_lookup _ _ _ _ _ _ (sorted_desc_sorted _) Hij Hi Hj).
  - intros w k Hw Hnin (i & Hi)%list_elem_of_lookup.
    apply keywords_entries in Hi as (Hlt & nk & Hk & ->).
    apply Hkeys in Hw. rewrite <- (sorted_desc_perm (Counter _)) in Hw.
    apply list_elem_of_fmap in Hw as ([w' n] & -> & (j & Hj)%list_elem_of_lookup).
    simpl in *. destruct (decide (j < 5)) as [Hj5|Hj5].
    + destruct Hnin. apply list_elem_of_lookup. exists j.
      unfold extract_keywords, extract_keywords_n, most_common.
      by rewrite list_lookup_fmap, lookup_take_lt, Hj.
    + assert (n = counts w' (filtered_words text)) as <-.
      { apply Hcnt. rewrite <- (sorted_desc_perm (Counter _)).
        by eapply list_elem_of_lookup_2. }
      change (by_count_desc (k, counts k (filtered_words text)) (w', n)).
      eapply (StronglySorted_lookup _ _ i j); [apply sorted_desc_sorted|lia|done|done].
Qed.

End text_analysis.

(** ** Streams without sentence ends *)

Section no_sentence_end.
Import Model Parser Inv.

Lemma all_chars_app p s1 s2 :
  Py.all_chars p (s1 +:+ s2) = Py.all_chars p s1 && Py.all_chars p s2.
Proof.
  induction s1 as [|c s1 IH]; [done|].
  rewrite string_app_cons. simpl. by rewrite IH, andb_assoc.
Qed.

(** A text without terminator is one sentence. *)
Lemma re_split_one_sentence s : ∀ prev cur,
  Py.all_chars (λ c, negb (Py.is_terminator c)) s = true →
  Py.re_split_go Py.sentence_end prev 0 cur s = [String.rev_app cur s].
Proof.
  induction s as [|c s IH]; intros prev cur H; [done|]. simpl in *.
  apply andb_true_iff in H as [Hc Hs].
  unfold Py.sentence_end at 1. simpl.
  destruct (Py.is_terminator c); [done|]. simpl. by rewrite IH.
Qed.

(** One sentence makes at most one segment. *)
Lemma one_sentence_one_segment text :
  Py.all_chars (λ c, negb (Py.is_terminator c)) text = true →
  length (split_into_segments text) ≤ 1.
Proof.
  intros H. unfold split_into_segments, split_into_segments_n, Py.re_split.
  rewrite re_split_one_sentence by done.
  change (String.rev_app "" text) with text. cbn [foldl]. unfold segment_step.
  destruct (decide (Py.strip text = "")) as [Hs|Hs]; [simpl; lia|].
  rewrite decide_True by done.
  destruct (20 <=? _); [simpl; lia|].
  destruct (negb _ && _); simpl; lia.
Qed.

(** Fragments without terminators never make the parser emit before
    [finalize]. *)
Lemma no_terminator_quiet fragments :
  Forall (λ f, Py.all_chars (λ c, negb (Py.is_terminator c)) f = true) fragments →
  quiet fragments = true.
Proof.
  unfold quiet.
  assert (∀ buf, Py.all_chars (λ c, negb (Py.is_terminator c)) buf = true →
            Forall (λ f, Py.all_chars (λ c, negb (Py.is_terminator c)) f = true) fragments →
            forallb (λ buf, length (split_into_segments buf) <=? 1) (buffers buf fragments)
            = true) as Hgen.
  { induction fragments as [|chunk rest IH]; intros buf Hbuf Hall; [done|]. simpl.
    apply Forall_cons in Hall as [Hchunk Hrest].
    assert (Py.all_chars (λ c, negb (Py.is_terminator c)) (buf +:+ chunk) = true) as Hb
      by (by rewrite all_chars_app, Hbuf, Hchunk).
    apply andb_true_iff. split; [|by apply IH].
    apply Nat.leb_le. by apply one_sentence_one_segment. }
  by apply Hgen.
Qed.

(** The two feedings of [Samples.stream], side by side. *)
Example stream_fed_in_fragments :
  content <$> run "s" Samples.stream =
  [ "First we need to look at the input list and decide how the values in it should be ordered before we start";
    "Then we check that every value in the list is a number and that the list is not empty at allFinally we sort it." ].
Proof. by vm_compute. Qed.

Example stream_fed_whole :
  content <$> run "s" [whole Samples.stream] =
  [ "First we need to look at the input list and decide how the values in it should be ordered before we start";
    "Then we check that every value in the list is a number and that the list is not empty at all" ].
Proof. by vm_compute. Qed.

(** The two classifications of [Samples.checking], side by side. *)
Example checking_scores :
  scores Samples.checking =
  [(IMPLEMENTATION, 1); (VERIFICATION, 1); (DECISION, 0); (ALTERNATIVE, 0); (ANALYSIS, 0)] ∧
  classify_thought_type Samples.checking = IMPLEMENTATION ∧
  occurrence_score verification_keywords (Py.lower Samples.checking) = 3 ∧
  occurrence_score implementation_keywords (Py.lower Samples.checking) = 1 ∧
  classify_by_occurrences Samples.checking = VERIFICATION.
Proof. by vm_compute. Qed.

End no_sentence_end.

(** ** The thinking parser: claims *)

Section parser_claims.
Import Model Parser Inv.

(** C1, as stated, fails.  On the stream [Samples.stream] the two
    ways of feeding emit different segments: fed whole, the parser
    emits the two long sentences and loses the short closing one; fed
    in two fragments, it emits the first sentence and then the second
    one glued to the closing one. *)
Lemma round_trip_fails :
  contents (run "s" Samples.stream) ≠ contents (run "s" [whole Samples.stream]).
Proof. apply (bool_decide_eq_false_1 _). vm_compute. reflexivity. Qed.

(** C5.  In the nodes that any sequence of calls on a fresh parser
    yields, every node after the first has a non-empty dependency
    list, and each of its dependencies is the identifier of a node
    yielded strictly before it and of no node from itself onwards. *)
Theorem dependencies_point_backwards sid cs i node :
  (do_calls (init sid) cs).1 !! i = Some node →
  0 < i →
  dependencies node ≠ [] ∧
  ∀ d, d ∈ dependencies node →
    (∃ j prev, j < i ∧ (do_calls (init sid) cs).1 !! j = Some prev ∧ id prev = d) ∧
    (∀ k later, i ≤ k → (do_calls (init sid) cs).1 !! k = Some later → id later ≠ d).
Proof.
  destruct (do_calls (init sid) cs) as [out p'] eqn:Hrun. simpl.
  destruct (do_calls_sound cs _ _ _ (wf_init sid) Hrun) as (_ & _ & _ & Hl & _).
  simpl in Hl. intros Hi Hpos.
  destruct (Hl _ _ Hi) as (Hid & Hdeps & Hne). simpl in *.
  split; [by apply Hne|]. intros d (k & Hk & ->)%Hdeps. split.
  - destruct (lookup_lt_is_Some_2 out (k - 1)) as [prev Hprev].
    { apply lookup_lt_Some in Hi. lia. }
    exists (k - 1), prev. split_and!; [lia|done|].
    destruct (Hl _ _ Hprev) as (-> & _). f_equal. lia.
  - intros k' later Hge Hlater. destruct (Hl _ _ Hlater) as (-> & _).
    intros Heq%(inj (node_id sid)). simpl in Heq. lia.
Qed.

Lemma dependencies_point_backwards_witness :
  ∃ node,
    (do_calls (init "s") Samples.calls).1 !! 1 = Some node ∧ 0 < 1 ∧
    dependencies node ≠ [] ∧
    ∀ d, d ∈ dependencies node →
      (∃ j prev, j < 1 ∧ (do_calls (init "s") Samples.calls).1 !! j = Some prev
                 ∧ id prev = d) ∧
      (∀ k later, 1 ≤ k → (do_calls (init "s") Samples.calls).1 !! k = Some later
                  → id later ≠ d).
Proof.
  eexists. split; [vm_compute; reflexivity|]. split; [lia|].
  apply (dependencies_point_backwards "s" Samples.calls 1); [vm_compute; reflexivity|lia].
Defined.

(** C10.  [finalize] keeps the buffer: on every parser whose buffer
    has a trimmed length of at least ten characters, two calls of
    [finalize] in a row yield one node each, with the same content
    and with the identifiers of two successive counters, hence
    distinct. *)
Theorem finalize_twice p :
  10 ≤ Py.len (Py.strip (accumulated_text p)) →
  ∃ n1 p1 n2 p2,
    finalize p = ([n1], p1) ∧ finalize p1 = ([n2], p2) ∧
    accumulated_text p1 = accumulated_text p ∧
    content n1 = content n2 ∧
    id n1 = node_id (p_session_id p) (node_counter p + 1) ∧
    id n2 = node_id (p_session_id p) (node_counter p + 2) ∧
    id n1 ≠ id n2.
Proof.
  intros Hlen.
  assert (Hfin : ∀ q, accumulated_text q = accumulated_text p →
            ∃ n q', finalize q = ([n], q') ∧
              _create_node_from_segment q (accumulated_text p) = (Some n, q')).
  { intros q Hq. unfold finalize. rewrite Hq.
    destruct (bool_decide_reflect (Py.strip (accumulated_text p) = "")) as [E|_].
    { rewrite E in Hlen. vm_compute in Hlen. lia. }
    destruct (create_node_total q _ Hlen) as (n & q' & Hc). rewrite Hc. eauto. }
  destruct (Hfin p eq_refl) as (n1 & p1 & Hf1 & Hc1).
  apply create_node_some in Hc1
    as (Hid1 & Hcont1 & _ & _ & _ & _ & _ & Hsid1 & Hcnt1 & Hacc1 & _).
  destruct (Hfin p1 Hacc1) as (n2 & p2 & Hf2 & Hc2).
  apply create_node_some in Hc2 as (Hid2 & Hcont2 & _).
  exists n1, p1, n2, p2.
  rewrite Hsid1, Hcnt1 in Hid2.
  replace (node_counter p + 1) with (S (node_counter p)) by lia.
  replace (node_counter p + 2) with (S (S (node_counter p))) by lia.
  split_and!; try done; [congruence|].
  rewrite Hid1, Hid2. intros Heq%(inj (node_id _)). lia.
Qed.

Lemma finalize_twice_witness :
  10 ≤ Py.len (Py.strip (accumulated_text Samples.holding)) ∧
  ∃ n1 p1 n2 p2,
    finalize Samples.holding = ([n1], p1) ∧ finalize p1 = ([n2], p2) ∧
    accumulated_text p1 = accumulated_text Samples.holding ∧
    content n1 = content n2 ∧
    id n1 = node_id (p_session_id Samples.holding) (node_counter Samples.holding + 1) ∧
    id n2 = node_id (p_session_id Samples.holding) (node_counter Samples.holding + 2) ∧
    id n1 ≠ id n2.
Proof.
  split; [vm_compute; lia|].
  apply (finalize_twice Samples.holding). vm_compute. lia.
Defined.

End parser_claims.

(** ** Classification, keywords and confidence: claims *)

Section analysis_claims.
Import Model Parser Inv TextAnalysis.

Lemma pick_max_spec (a b c d e : nat) :
  let r := pick_max [(IMPLEMENTATION, a); (VERIFICATION, b); (DECISION, c);
                     (ALTERNATIVE, d); (ANALYSIS, e)] in
  let sc t := match t with
              | IMPLEMENTATION => a | VERIFICATION => b | DECISION => c
              | ALTERNATIVE => d | ANALYSIS => e end in
  (0 < a ∨ 0 < b ∨ 0 < c ∨ 0 < d ∨ 0 < e →
   ∀ t, sc t ≤ sc r ∧ (sc t = sc r → rank r ≤ rank t)) ∧
  (a = 0 → b = 0 → c = 0 → d = 0 → e = 0 → r = ANALYSIS).
Proof.
  unfold pick_max, max_from. simpl.
  repeat (match goal with
          | |- context [?x <? ?y] =>
              first [is_var x | constr_eq x 0]; is_var y;
              destruct (Nat.ltb_spec x y); simpl in *
          end);
    (split; [intros Hpos t; destruct t; simpl; lia
            | intros; first [done | exfalso; lia]]).
Qed.

(** C6, amended.  The score of a type is the number of the keywords
    of its set that occur in the lower-cased segment, each keyword
    counting once however often it occurs.  When some score is
    positive the type returned has the highest score, and among the
    types of that score it comes first in the order implementation,
    verification, decision, alternative, analysis; when all scores
    are zero the type returned is analysis. *)
Theorem classify_by_presence text :
  let r := classify_thought_type text in
  ((∃ t, 0 < presence_score t text) →
     (∀ t, presence_score t text ≤ presence_score r text) ∧
     (∀ t, presence_score t text = presence_score r text → rank r ≤ rank t)) ∧
  ((∀ t, presence_score t text = 0) → r = ANALYSIS).
Proof.
  pose proof (pick_max_spec (presence_score IMPLEMENTATION text)
                (presence_score VERIFICATION text) (presence_score DECISION text)
                (presence_score ALTERNATIVE text) (presence_score ANALYSIS text))
    as [Hmax Hzero].
  change (pick_max _) with (classify_thought_type text) in Hmax, Hzero.
  simpl. split.
  - intros [t Ht].
    assert (Hpos : 0 < presence_score IMPLEMENTATION text ∨ 0 < presence_score VERIFICATION text
              ∨ 0 < presence_score DECISION text ∨ 0 < presence_score ALTERNATIVE text
              ∨ 0 < presence_score ANALYSIS text) by (destruct t; auto).
    split; intros t'; specialize (Hmax Hpos t');
      destruct (classify_thought_type text), t'; apply Hmax.
  - intros Hall. apply Hzero; apply Hall.
Qed.

Lemma calculate_confidence_bounds text :
  (0 <= calculate_confidence text)%Q ∧ (calculate_confidence text <= 1)%Q.
Proof. unfold calculate_confidence. apply clamp01_bounds. Qed.

Lemma built_node_bounds node :
  built node →
  (0 <= confidence node)%Q ∧ (confidence node <= 1)%Q ∧
  length (keywords node) ≤ 5 ∧ NoDup (keywords node).
Proof.
  intros (segment & _ & _ & -> & ->).
  destruct (calculate_confidence_bounds segment).
  destruct (extract_keywords_spec segment) as (? & ? & _).
  done.
Qed.

(** C6, as stated, fails.  The segment [Samples.checking] names the
    verification keyword "check" three times and the implementation
    keyword "write" once: counting occurrences makes it a
    verification, the program makes it an implementation. *)
Lemma classify_ignores_repetition :
  classify_thought_type Samples.checking ≠ classify_by_occurrences Samples.checking.
Proof. by vm_compute. Qed.

(** C7.  The confidence of every text lies in [0, 1].  The keywords
    of every text are at most five, pairwise distinct, made of at
    least three lower-case letters, no stop words, and listed by
    descending frequency, no word left out being more frequent than
    one listed.  Hence every node that any sequence of calls on a
    fresh parser yields has a confidence in [0, 1] and at most five
    keywords, pairwise distinct. *)
Theorem confidence_and_keywords_bounded :
  (∀ text, (0 <= calculate_confidence text)%Q ∧ (calculate_confidence text <= 1)%Q) ∧
  (∀ text,
     length (extract_keywords text) ≤ 5 ∧
     NoDup (extract_keywords text) ∧
     (∀ w, w ∈ extract_keywords text →
           Py.all_chars Py.is_lower w = true ∧ 3 ≤ Py.len w ∧ (w ∉ stop_words) ∧
           w ∈ filtered_words text) ∧
     (∀ i j wi wj, i < j →
           extract_keywords text !! i = Some wi → extract_keywords text !! j = Some wj →
           frequency text wj ≤ frequency text wi) ∧
     (∀ w k, w ∈ filtered_words text → (w ∉ extract_keywords text) →
           k ∈ extract_keywords text →
           frequency text w ≤ frequency text k)) ∧
  (∀ sid cs node, node ∈ (do_calls (init sid) cs).1 →
     (0 <= confidence node)%Q ∧ (confidence node <= 1)%Q ∧
     length (keywords node) ≤ 5 ∧ NoDup (keywords node)).
Proof.
  split_and!.
  - apply calculate_confidence_bounds.
  - apply extract_keywords_spec.
  - intros sid cs node Hin. apply built_node_bounds.
    destruct (do_calls (init sid) cs) as [out p'] eqn:Hrun.
    destruct (do_calls_sound cs _ _ _ (wf_init sid) Hrun) as (_ & _ & _ & _ & Hb).
    rewrite Forall_forall in Hb. by apply Hb.
Qed.

End analysis_claims.

(** ** Session state *)

Section sessions.
Import Model Exn Sessions Inv.

Lemma tracked_after_pruning m ip :
  default [] (ip_sessions (_get_active_sessions_for_ip m ip).2 !! ip)
  = (_get_active_sessions_for_ip m ip).1.
Proof.
  unfold _get_active_sessions_for_ip. simpl.
  destruct (ip_sessions m !! ip) as [ids|] eqn:Hip; simpl.
  - by rewrite lookup_insert_eq.
  - by rewrite Hip.
Qed.

Lemma pruning_keeps_store m ip :
  sessions (_get_active_sessions_for_ip m ip).2 = sessions m ∧
  max_concurrent_per_ip (_get_active_sessions_for_ip m ip).2 = max_concurrent_per_ip m.
Proof. unfold _get_active_sessions_for_ip. simpl. by destruct (bool_decide _). Qed.

(** A refused creation. *)
Lemma create_session_refused m ip session_id now :
  (max_concurrent_per_ip m ≤ Z.of_nat (active_count m ip))%Z →
  create_session m ip session_id now =
    (Raise (Exception (rate_limit_message (max_concurrent_per_ip m))),
     (_get_active_sessions_for_ip m ip).2).
Proof.
  intros Hcap. unfold create_session, active_count in *.
  destruct (pruning_keeps_store m ip) as [_ Hmax].
  destruct (_get_active_sessions_for_ip m ip) as [active m1]. simpl in *. rewrite Hmax.
  by destruct (Z.leb_spec (max_concurrent_per_ip m) (Z.of_nat (length active))); [|lia].
Qed.

(** A granted creation adds one to the count of the client. *)
Lemma create_session_granted m ip session_id now :
  (Z.of_nat (active_count m ip) < max_concurrent_per_ip m)%Z →
  ∃ m', create_session m ip session_id now = (Return (new_session session_id ip now), m') ∧
        max_concurrent_per_ip m' = max_concurrent_per_ip m ∧
        active_count m' ip = S (active_count m ip).
Proof.
  intros Hcap. unfold create_session, active_count in *.
  pose proof (tracked_after_pruning m ip) as Htr.
  destruct (pruning_keeps_store m ip) as [Hst Hmax].
  unfold active_count in *.
  assert (Hact : Forall (λ x, is_active m x = true) (_get_active_sessions_for_ip m ip).1).
  { apply Forall_forall. intros x Hx. unfold _get_active_sessions_for_ip in Hx.
    simpl in Hx. apply list_elem_of_In, filter_In in Hx. apply Hx. }
  destruct (_get_active_sessions_for_ip m ip) as [active m1]. simpl in *. rewrite Hmax.
  destruct (Z.leb_spec (max_concurrent_per_ip m) (Z.of_nat (length active))); [lia|].
  eexists. split; [done|]. split; [done|].
  unfold _get_active_sessions_for_ip. simpl. rewrite lookup_insert_eq. simpl.
  rewrite Htr.
  rewrite forallb_filter_id; [rewrite length_app; simpl; lia|].
  { apply forallb_forall. intros x Hx%list_elem_of_In.
    unfold is_active. simpl. destruct (decide (x = session_id)) as [->|Hne].
    - by rewrite lookup_insert_eq.
    - rewrite lookup_insert_ne by done.
      apply elem_of_app in Hx as [Hx|Hx%list_elem_of_singleton]; [|done].
      rewrite Forall_forall in Hact. specialize (Hact x Hx).
      unfold is_active in Hact. by rewrite Hst. }
Qed.

Lemma prefix_app s t : String.prefix s (s +:+ t) = true.
Proof.
  induction s as [|a s IH]; [by destruct t|].
  rewrite string_app_cons. simpl. by destruct (ascii_dec a a).
Qed.

Lemma contains_prefix needle hay :
  String.prefix needle hay = true → Py.contains needle hay = true.
Proof. intros H. destruct hay; cbn [Py.contains]; by rewrite H. Qed.

Lemma rate_limit_status limit :
  http_status_of (Exception (rate_limit_message limit)) = 429.
Proof.
  unfold http_status_of, rate_limit_message. simpl Exn.str.
  change ("Rate limit exceeded: Maximum " +:+ pretty limit +:+ " concurrent sessions per IP")
    with ("Rate limit" +:+ (" exceeded: Maximum " +:+ pretty limit
                            +:+ " concurrent sessions per IP")).
  by rewrite contains_prefix by apply prefix_app.
Qed.

(** C2, as stated, fails.  In the store [Samples.finished] the
    session is completed; [add_thought_node] still appends a node to
    it, and [update_session] still changes its token count and its
    solution text. *)
Lemma completed_session_still_changes :
  status <$> get_session Samples.finished "session_a" = Some "completed" ∧
  thought_nodes <$> get_session (add_thought_node Samples.finished "session_a" Samples.a_node)
                                "session_a"
    ≠ thought_nodes <$> get_session Samples.finished "session_a" ∧
  tokens_used <$> get_session (update_session Samples.finished "session_a" [kw_tokens_used 42])
                              "session_a"
    ≠ tokens_used <$> get_session Samples.finished "session_a" ∧
  solution_text <$> get_session (update_session Samples.finished "session_a"
                                   [kw_solution_text "done"]) "session_a"
    ≠ solution_text <$> get_session Samples.finished "session_a".
Proof. by vm_compute. Qed.

(** C2, amended.  The operations of Session State do not look at the
    status.  On every session of the store, whatever its status,
    completed and error included, [add_thought_node] appends the node
    to the nodes of the session, and [update_session] sets the token
    count or the solution text to the value it is given; each leaves
    the status and the other two of these fields as they were. *)
Theorem session_operations_ignore_status m session_id s :
  get_session m session_id = Some s →
  (∀ node, ∃ s',
      get_session (add_thought_node m session_id node) session_id = Some s' ∧
      thought_nodes s' = thought_nodes s ++ [node] ∧
      status s' = status s ∧ tokens_used s' = tokens_used s ∧
      solution_text s' = solution_text s) ∧
  (∀ v, ∃ s',
      get_session (update_session m session_id [kw_tokens_used v]) session_id = Some s' ∧
      tokens_used s' = v ∧
      status s' = status s ∧ thought_nodes s' = thought_nodes s ∧
      solution_text s' = solution_text s) ∧
  (∀ v, ∃ s',
      get_session (update_session m session_id [kw_solution_text v]) session_id = Some s' ∧
      solution_text s' = v ∧
      status s' = status s ∧ thought_nodes s' = thought_nodes s ∧
      tokens_used s' = tokens_used s).
Proof.
  intros Hs. unfold add_thought_node, update_session. rewrite Hs.
  unfold get_session in *. simpl.
  split_and!; intros x; eexists; (split; [apply lookup_insert_eq|done]).
Qed.

Lemma session_operations_ignore_status_witness :
  get_session Samples.finished "session_a" = Some Samples.finished_session ∧
  status Samples.finished_session = "completed" ∧
  ∀ node, ∃ s',
    get_session (add_thought_node Samples.finished "session_a" node) "session_a"
      = Some s' ∧
    thought_nodes s' = thought_nodes Samples.finished_session ++ [node] ∧
    status s' = status Samples.finished_session ∧
    tokens_used s' = tokens_used Samples.finished_session ∧
    solution_text s' = solution_text Samples.finished_session.
Proof.
  assert (get_session Samples.finished "session_a" = Some Samples.finished_session) as H
    by (vm_compute; reflexivity).
  split; [exact H|]. split; [reflexivity|].
  exact (proj1 (session_operations_ignore_status
                  Samples.finished "session_a" Samples.finished_session H)).
Defined.

Lemma remove_session_spec m session_id s :
  sessions m !! session_id = Some s →
  ∃ m', remove_session m session_id = Return m' ∧
        sessions m' = delete session_id (sessions m) ∧
        cleanup_hours m' = cleanup_hours m ∧
        max_concurrent_per_ip m' = max_concurrent_per_ip m.
Proof.
  intros Hs. unfold remove_session. rewrite Hs.
  destruct (ip_sessions m !! ip_address s); [destruct (bool_decide _)|]; by eexists.
Qed.

(** The removal loop, on identifiers that are distinct and in the
    store: it raises nothing and deletes exactly these. *)
Lemma remove_sessions_spec ids : ∀ m,
  NoDup ids → (∀ id, id ∈ ids → is_Some (sessions m !! id)) →
  ∃ m', remove_sessions m ids = Return m' ∧
        (∀ id, sessions m' !! id =
               if bool_decide (id ∈ ids) then None else sessions m !! id) ∧
        size (sessions m) = length ids + size (sessions m') ∧
        cleanup_hours m' = cleanup_hours m ∧
        max_concurrent_per_ip m' = max_concurrent_per_ip m.
Proof.
  induction ids as [|id ids IH]; intros m Hnd Hin; simpl.
  - exists m. by split_and!.
  - apply NoDup_cons in Hnd as [Hid Hnd].
    destruct (Hin id) as [s Hs]; [by left|].
    destruct (remove_session_spec m id s Hs) as (m1 & -> & Hm1 & Hh & Hc).
    destruct (IH m1 Hnd) as (m' & -> & Hlook & Hsize & Hh' & Hc').
    { intros id' Hid'. rewrite Hm1, lookup_delete_ne by (by intros ->).
      apply Hin. by right. }
    exists m'. split_and!; [done| | |congruence|congruence].
    + intros k. rewrite Hlook, Hm1. destruct (decide (k = id)) as [->|Hne].
      * rewrite (bool_decide_eq_true_2 (id ∈ id :: ids)) by (by left).
        rewrite lookup_delete_eq. by destruct (bool_decide _).
      * rewrite lookup_delete_ne by done.
        destruct (bool_decide_reflect (k ∈ ids)) as [Hk|Hk].
        -- by rewrite (bool_decide_eq_true_2 (k ∈ id :: ids)) by (by right).
        -- rewrite (bool_decide_eq_false_2 (k ∈ id :: ids)); [done|].
           by intros [?|?]%elem_of_cons.
    + rewrite <- (insert_delete_id (sessions m) id s Hs) at 1.
      rewrite map_size_insert_None by apply lookup_delete_eq.
      rewrite <- Hm1, Hsize. simpl. lia.
Qed.

(** C8.  Whatever the retention window and the store, the sweep
    raises nothing; it removes every session created before the
    cut-off, whatever its status; it leaves every other session of
    the store as it was; and the number it returns is the number of
    sessions it removed, which is by how many the store shrank. *)
Theorem cleanup_old_sessions_exact m now :
  ∃ removed m',
    cleanup_old_sessions m now = Return (removed, m') ∧
    (∀ id s, sessions m !! id = Some s → expired m now s → sessions m' !! id = None) ∧
    (∀ id s, sessions m !! id = Some s → ¬ expired m now s → sessions m' !! id = Some s) ∧
    (∀ id, sessions m !! id = None → sessions m' !! id = None) ∧
    removed = size (filter (λ kv, expired m now kv.2) (sessions m)) ∧
    size (sessions m) = removed + size (sessions m').
Proof.
  unfold cleanup_old_sessions.
  set (old := List.filter _ (map_to_list (sessions m))).
  assert (Hold : ∀ id s, (id, s) ∈ old ↔ sessions m !! id = Some s ∧ expired m now s).
  { intros id s. subst old. rewrite list_elem_of_In, filter_In, <- list_elem_of_In.
    rewrite elem_of_map_to_list. simpl. unfold expired. by rewrite Z.ltb_lt. }
  assert (Hnd : NoDup old.*1).
  { eapply sublist_NoDup; [apply (NoDup_fst_map_to_list (sessions m))|].
    apply fmap_sublist. subst old. clear.
    induction (map_to_list (sessions m)) as [|x l IH]; simpl; [done|].
    destruct (_ <? _)%Z; by constructor. }
  destruct (remove_sessions_spec old.*1 m Hnd) as (m' & -> & Hlook & Hsize & _).
  { intros id ([id' s] & -> & [? _]%Hold)%list_elem_of_fmap. eauto. }
  assert (Hmem : ∀ id s, sessions m !! id = Some s → id ∈ old.*1 ↔ expired m now s).
  { intros id s Hs. split.
    - intros ([id' s'] & -> & [Hs' ?]%Hold)%list_elem_of_fmap. simpl in *. congruence.
    - intros He. apply list_elem_of_fmap. exists (id, s). split; [done|]. by apply Hold. }
  exists (length old.*1), m'. split_and!; [done| | | | |done].
  - intros id s Hs He. rewrite Hlook, bool_decide_eq_true_2; [done|]. by apply (Hmem id s).
  - intros id s Hs He. rewrite Hlook, bool_decide_eq_false_2; [done|].
    by rewrite (Hmem id s).
  - intros id Hs. rewrite Hlook, Hs. by destruct (bool_decide _).
  - rewrite length_fmap, <- length_map_to_list. apply Permutation_length.
    apply NoDup_Permutation.
    + eapply NoDup_fmap_1, Hnd.
    + apply NoDup_map_to_list.
    + intros [id s]. rewrite Hold, elem_of_map_to_list, map_lookup_filter_Some. tauto.
Qed.

End sessions.

(** ** Event fan-out *)

Section fan_out.
Import Model WS.
Variable fails : WebSocket → bool.

Lemma list_remove_notin x l : x ∉ l → list_remove x l = l.
Proof.
  induction l as [|y l IH]; [done|]. intros [Hne Hnin]%not_elem_of_cons. simpl.
  destruct (decide (x = y)); [done|]. by rewrite IH.
Qed.

Lemma list_remove_middle x p l : x ∉ p → list_remove x (p ++ x :: l) = p ++ l.
Proof.
  induction p as [|y p IH]; simpl.
  - intros _. by destruct (decide (x = x)).
  - intros [Hne Hnin]%not_elem_of_cons. destruct (decide (x = y)); [done|]. by rewrite IH.
Qed.

(** Removing, one after the other, the failing connections of a list
    leaves its healthy connections, in their order. *)
Lemma remove_failing l : ∀ p,
  Forall (λ c, fails c = false) p →
  foldl (λ acc c, list_remove c acc) (p ++ l) (List.filter fails l)
  = p ++ List.filter (λ c, negb (fails c)) l.
Proof.
  induction l as [|c l IH]; intros p Hp; simpl; [done|].
  destruct (fails c) eqn:Hc; simpl.
  - rewrite list_remove_middle; [by apply IH|].
    intros Hin. rewrite Forall_forall in Hp. specialize (Hp c Hin). congruence.
  - rewrite (cons_middle c p l), app_assoc, IH, <- app_assoc; [done|].
    apply Forall_app. split; [done|]. by apply Forall_singleton.
Qed.

Lemma send_loop message conns : ∀ sent disconnected,
  foldl (send_step fails message) (sent, disconnected) conns
  = (sent ++ ((λ c, (c, message)) <$> List.filter (λ c, negb (fails c)) conns),
     disconnected ++ List.filter fails conns).
Proof.
  induction conns as [|c conns IH]; intros sent disconnected; simpl.
  - by rewrite !app_nil_r.
  - destruct (fails c); simpl; rewrite IH, <- app_assoc; done.
Qed.

Lemma disconnect_subscribers m session_id websocket :
  subscribers (disconnect m session_id websocket) session_id
  = list_remove websocket (subscribers m session_id).
Proof.
  unfold subscribers, disconnect.
  destruct (active_connections m !! session_id) as [conns|] eqn:Hc; simpl; [|by rewrite Hc].
  destruct (bool_decide_reflect (websocket ∈ conns)) as [Hin|Hnin].
  - destruct (list_remove websocket conns); simpl;
      [by rewrite lookup_delete_eq|by rewrite lookup_insert_eq].
  - rewrite (list_remove_notin _ _ Hnin).
    destruct conns; simpl; [by rewrite lookup_delete_eq|by rewrite lookup_insert_eq].
Qed.

Lemma disconnect_other m session_id websocket other :
  other ≠ session_id →
  active_connections (disconnect m session_id websocket) !! other
  = active_connections m !! other.
Proof.
  intros Hne. unfold disconnect.
  destruct (active_connections m !! session_id) as [conns|]; [|done].
  destruct (if bool_decide _ then _ else _); simpl;
    [by rewrite lookup_delete_ne|by rewrite lookup_insert_ne].
Qed.

Lemma disconnect_all session_id disconnected : ∀ m,
  subscribers (foldl (λ m c, disconnect m session_id c) m disconnected) session_id
  = foldl (λ acc c, list_remove c acc) (subscribers m session_id) disconnected ∧
  ∀ other, other ≠ session_id →
    active_connections (foldl (λ m c, disconnect m session_id c) m disconnected) !! other
    = active_connections m !! other.
Proof.
  induction disconnected as [|c l IH]; intros m; simpl; [done|].
  destruct (IH (disconnect m session_id c)) as [-> Hother].
  rewrite disconnect_subscribers. split; [done|].
  intros other Hne. by rewrite Hother, disconnect_other.
Qed.

(** What one call of [broadcast] does. *)
Lemma broadcast_spec m session_id event_type data now conns :
  active_connections m !! session_id = Some conns →
  ∃ m',
    broadcast fails m session_id event_type data now
    = ((λ c, (c, event_message session_id event_type data now))
         <$> List.filter (λ c, negb (fails c)) conns, m') ∧
    subscribers m' session_id = List.filter (λ c, negb (fails c)) conns ∧
    ∀ other, other ≠ session_id →
      active_connections m' !! other = active_connections m !! other.
Proof.
  intros Hc. unfold broadcast. rewrite Hc, send_loop. simpl.
  eexists. split; [done|].
  destruct (disconnect_all session_id (List.filter fails conns) m) as [-> Hother].
  split; [|done]. unfold subscribers at 1. rewrite Hc. simpl.
  by apply (remove_failing conns []).
Qed.

End fan_out.

(** ** Event fan-out: claims *)

Section fan_out_claims.
Import Model WS.

Lemma elem_of_List_filter {A} (f : A → bool) l x :
  x ∈ List.filter f l ↔ x ∈ l ∧ f x = true.
Proof. by rewrite !list_elem_of_In, filter_In. Qed.

(** C4.  On a session with registered subscribers, one call of
    [broadcast] delivers the event to every subscriber whose
    [send_json] does not raise, each of which stays registered, and
    removes from the subscribers of the session every subscriber
    whose [send_json] raises, which receives nothing; the subscribers
    of the other sessions are untouched.  On a session without
    subscribers the call delivers nothing and changes nothing. *)
Theorem broadcast_isolates_failures fails m session_id event_type data now :
  (∀ conns, active_connections m !! session_id = Some conns →
     ∃ sent m',
       broadcast fails m session_id event_type data now = (sent, m') ∧
       (∀ c, c ∈ conns → fails c = true →
             (c ∉ subscribers m' session_id) ∧ ∀ message, (c, message) ∉ sent) ∧
       (∀ c, c ∈ conns → fails c = false →
             (c, event_message session_id event_type data now) ∈ sent ∧
             c ∈ subscribers m' session_id) ∧
       (∀ other, other ≠ session_id →
             active_connections m' !! other = active_connections m !! other)) ∧
  (subscribers m session_id = [] →
     broadcast fails m session_id event_type data now = ([], m)).
Proof.
  split.
  - intros conns Hc.
    destruct (broadcast_spec fails m session_id event_type data now conns Hc)
      as (m' & Hb & Hsub & Hother).
    eexists _, m'. split; [exact Hb|]. rewrite Hsub. split_and!; [| |done].
    + intros c Hin Hf. split.
      * intros [_ Hh]%elem_of_List_filter. by rewrite Hf in Hh.
      * intros message (c' & [= -> ->] & [_ Hh]%elem_of_List_filter)%list_elem_of_fmap.
        by rewrite Hf in Hh.
    + intros c Hin Hf.
      assert (c ∈ List.filter (λ c, negb (fails c)) conns) as Hc'.
      { apply elem_of_List_filter. by rewrite Hf. }
      split; [|done]. apply list_elem_of_fmap. by exists c.
  - unfold subscribers, broadcast.
    destruct (active_connections m !! session_id) as [conns|]; simpl; [|done].
    by intros ->.
Qed.

(** The scene of C4: of two subscribers the first fails; it is
    removed, and the second receives the event. *)
Example broadcast_two_subscribers :
  subscribers Samples.two_subscribers "session_a" = [Samples.gone; Samples.healthy] ∧
  ∃ m',
    broadcast_new_thought Samples.fails Samples.two_subscribers "session_a" Samples.a_node 2
    = ([(Samples.healthy,
         event_message "session_a" "new_thought" (PDict Samples.a_node) 2)], m') ∧
    subscribers m' "session_a" = [Samples.healthy].
Proof. split; [reflexivity|]. eexists. split; vm_compute; reflexivity. Qed.

(** C9, as stated, fails.  The acknowledgment that [connect] delivers
    has a field [message] and no field [data]: it is not an
    envelope. *)
Lemma acknowledgment_is_no_envelope :
  ¬ Forall (λ d : delivery, is_envelope d.2)
      (connect (λ _, false) new_manager "session_a" Samples.healthy 0).1.
Proof.
  intros [[Hperm _] _]%Forall_cons.
  assert ("data" ∈ keys_of (connected_message "session_a" 0)) as Hin.
  { rewrite Hperm. unfold envelope_fields. repeat constructor. }
  apply (bool_decide_pack _) in Hin. by vm_compute in Hin.
Qed.

(** C9, amended.  Every message that a call on the manager delivers
    to a subscriber has one of two shapes.  A message delivered by
    one of the four [broadcast_*] methods has exactly the fields
    [event_type], [session_id], [data], [timestamp], in this order,
    and its event type is the one of the method, one of [new_thought],
    [thinking_complete], [solution_ready], [error]: it is an
    envelope.  The acknowledgment delivered by [connect] has exactly
    the fields [event_type], [session_id], [message], [timestamp],
    and its event type is [connected]. *)
Theorem delivered_message_shape fails m c now websocket message :
  (websocket, message) ∈ (do_send fails m c now).1 →
  match c with
  | Connect session_id _ =>
      keys_of message = ack_fields ∧
      message !! 0 = Some ("event_type", JStr "connected") ∧
      message !! 1 = Some ("session_id", JStr session_id)
  | NewThought session_id _ | ThinkingComplete session_id _
  | SolutionReady session_id _ | Error session_id _ _ =>
      is_envelope message ∧
      keys_of message = envelope_fields ∧
      message !! 1 = Some ("session_id", JStr session_id) ∧
      ∃ ty, message !! 0 = Some ("event_type", JStr ty) ∧ ty ∈ broadcast_types
  end.
Proof.
  assert (Hb : ∀ session_id ty data,
            ty ∈ broadcast_types →
            (websocket, message) ∈ (broadcast fails m session_id ty data now).1 →
            is_envelope message ∧
            keys_of message = envelope_fields ∧
            message !! 1 = Some ("session_id", JStr session_id) ∧
            ∃ ty, message !! 0 = Some ("event_type", JStr ty) ∧ ty ∈ broadcast_types).
  { intros session_id ty data Hty Hin. unfold broadcast in Hin.
    destruct (active_connections m !! session_id) as [conns|]; simpl in Hin;
      [|by apply elem_of_nil in Hin].
    rewrite send_loop in Hin. simpl in Hin.
    apply list_elem_of_fmap in Hin as (c' & [= -> ->] & _).
    split_and!; [|done|done|by exists ty].
    split; [done|]. exists ty. split; [by left|by right]. }
  destruct c as [sid ws|sid d|sid d|sid d|sid msg ty]; simpl; intros Hin.
  - unfold connect, send_personal_message in Hin. simpl in Hin.
    destruct (fails ws); [by apply elem_of_nil in Hin|].
    by apply list_elem_of_singleton in Hin as [= -> ->].
  - apply (Hb sid "new_thought" (PDict d)); [repeat constructor|done].
  - apply (Hb sid "thinking_complete" (PDict d)); [repeat constructor|done].
  - apply (Hb sid "solution_ready" (PDict d)); [repeat constructor|done].
  - eapply (Hb sid "error"); [repeat constructor|done].
Qed.

Lemma delivered_message_shape_witness :
  (Samples.healthy, event_message "session_a" "new_thought" (PDict Samples.a_node) 2)
    ∈ (do_send Samples.fails Samples.two_subscribers
         (NewThought "session_a" Samples.a_node) 2).1 ∧
  is_envelope (event_message "session_a" "new_thought" (PDict Samples.a_node) 2).
Proof.
  assert ((Samples.healthy, event_message "session_a" "new_thought" (PDict Samples.a_node) 2)
            ∈ (do_send Samples.fails Samples.two_subscribers
                 (NewThought "session_a" Samples.a_node) 2).1) as H
    by (vm_compute; left).
  split; [exact H|].
  exact (proj1 (delivered_message_shape Samples.fails Samples.two_subscribers
                  (NewThought "session_a" Samples.a_node) 2 _ _ H)).
Defined.

End fan_out_claims.

(** ** Instances of the conditional statements *)

Section instances.
Import Model Parser Inv TextAnalysis.

Lemma broadcast_isolates_failures_witness :
  WS.active_connections Samples.two_subscribers !! "session_a"
    = Some [Samples.gone; Samples.healthy] ∧
  ∃ sent m',
    WS.broadcast Samples.fails Samples.two_subscribers "session_a" "new_thought"
                 (WS.PDict Samples.a_node) 2 = (sent, m') ∧
    (∀ c, c ∈ [Samples.gone; Samples.healthy] → Samples.fails c = true →
          (c ∉ WS.subscribers m' "session_a") ∧ ∀ message, (c, message) ∉ sent) ∧
    (∀ c, c ∈ [Samples.gone; Samples.healthy] → Samples.fails c = false →
          (c, WS.event_message "session_a" "new_thought" (WS.PDict Samples.a_node) 2) ∈ sent ∧
          c ∈ WS.subscribers m' "session_a") ∧
    (∀ other, other ≠ "session_a" →
          WS.active_connections m' !! other
          = WS.active_connections Samples.two_subscribers !! other).
Proof.
  assert (WS.active_connections Samples.two_subscribers !! "session_a"
          = Some [Samples.gone; Samples.healthy]) as H by (vm_compute; reflexivity).
  split; [exact H|].
  exact (proj1 (broadcast_isolates_failures Samples.fails Samples.two_subscribers
                  "session_a" "new_thought" (WS.PDict Samples.a_node) 2%Z) _ H).
Defined.

Lemma classify_by_presence_witness :
  (∃ t, 0 < presence_score t Samples.checking) ∧
  (∀ t, presence_score t Samples.checking
        ≤ presence_score (classify_thought_type Samples.checking) Samples.checking) ∧
  (∀ t, presence_score t Samples.checking
        = presence_score (classify_thought_type Samples.checking) Samples.checking →
        rank (classify_thought_type Samples.checking) ≤ rank t).
Proof.
  assert (∃ t, 0 < presence_score t Samples.checking) as H
    by (exists IMPLEMENTATION; vm_compute; lia).
  split; [exact H|].
  exact (proj1 (classify_by_presence Samples.checking) H).
Defined.

Lemma confidence_and_keywords_bounded_witness :
  ∃ node,
    node ∈ (do_calls (init "s") Samples.calls).1 ∧
    (0 <= confidence node)%Q ∧ (confidence node <= 1)%Q ∧
    length (keywords node) ≤ 5 ∧ NoDup (keywords node).
Proof.
  eexists. split; [vm_compute; left|].
  apply (proj2 (proj2 confidence_and_keywords_bounded) "s" Samples.calls).
  vm_compute; left.
Defined.

End instances.

(** * Further properties *)

(** ** Text analysis: case, dead patterns, shared keywords *)

Section analysis_more.
Import Model Parser Inv TextAnalysis.

Lemma lower_char_idem c : Py.lower_char (Py.lower_char c) = Py.lower_char c.
Proof. by destruct c as [[] [] [] [] [] [] [] []]. Qed.

Lemma lower_idem s : Py.lower (Py.lower s) = Py.lower s.
Proof. induction s as [|c s IH]; [done|]. simpl. by rewrite lower_char_idem, IH. Qed.

Lemma question_mark_lower c : Ascii.eqb "?" (Py.lower_char c) = Ascii.eqb "?" c.
Proof. by destruct c as [[] [] [] [] [] [] [] []]. Qed.

Lemma count_question_marks_lower s :
  Py.count_char "?" (Py.lower s) = Py.count_char "?" s.
Proof.
  induction s as [|c s IH]; [done|]. cbn [Py.lower Py.count_char].
  by rewrite question_mark_lower, IH.
Qed.

(** X1.  The analysis of a text does not depend on the case of its
    letters: the keywords, the confidence, the linguistic cues and the
    thought type of a text are those of its lower-cased form. *)
Theorem analysis_ignores_case text :
  extract_keywords (Py.lower text) = extract_keywords text ∧
  calculate_confidence (Py.lower text) = calculate_confidence text ∧
  detect_linguistic_cues (Py.lower text) = detect_linguistic_cues text ∧
  classify_thought_type (Py.lower text) = classify_thought_type text.
Proof.
  split_and!.
  - unfold extract_keywords, extract_keywords_n, filtered_words, words_of.
    by rewrite lower_idem.
  - unfold calculate_confidence. by rewrite lower_idem, count_question_marks_lower.
  - unfold detect_linguistic_cues. by rewrite lower_idem.
  - unfold classify_thought_type, scores. by rewrite lower_idem.
Qed.

Lemma lower_char_not_I c : Py.lower_char c ≠ "I"%char.
Proof. by destruct c as [[] [] [] [] [] [] [] []]. Qed.

Lemma first_person_no_match prev c s :
  Py.whole_word ["I think"; "I believe"; "I guess"; "I assume"] prev
    (String (Py.lower_char c) s) = None.
Proof.
  unfold Py.whole_word. destruct (Py.boundary _ _); [|done].
  cbn [List.find String.prefix].
  destruct (ascii_dec "I" (Py.lower_char c)) as [E|_]; [|done].
  by destruct (lower_char_not_I c).
Qed.

Lemma first_person_findall s : ∀ prev skip,
  Py.re_findall_go (Py.whole_word ["I think"; "I believe"; "I guess"; "I assume"])
    prev skip (Py.lower s) = [].
Proof.
  induction s as [|c s IH]; intros prev skip; [done|].
  cbn [Py.lower Py.re_findall_go]. destruct skip as [|k]; [|apply IH].
  rewrite first_person_no_match. apply IH.
Qed.

(** X2.  The first-person hedging pattern ([I think], [I believe],
    [I guess], [I assume]) is searched in the lower-cased text, in
    which its capital letter never occurs: it matches in no text, and
    the hedging count of [calculate_confidence] is that of the four
    other patterns. *)
Theorem first_person_hedges_never_match text :
  Py.re_findall (Py.whole_word ["I think"; "I believe"; "I guess"; "I assume"])
    (Py.lower text) = [] ∧
  count_matches hedging_patterns (Py.lower text)
  = count_matches (take 4 hedging_patterns) (Py.lower text).
Proof.
  assert (Py.re_findall (Py.whole_word ["I think"; "I believe"; "I guess"; "I assume"])
            (Py.lower text) = []) as H by apply first_person_findall.
  split; [done|]. unfold count_matches, hedging_patterns.
  cbn [take fmap list_fmap sum_list sum_list_with]. rewrite H. simpl. lia.
Qed.

Lemma size_list_to_set_le (l : list string) :
  size (list_to_set l : gset string) ≤ length l.
Proof.
  induction l as [|x l IH]; [by rewrite list_to_set_nil, size_empty|].
  rewrite list_to_set_cons, size_union_alt, size_singleton. simpl.
  assert (size ((list_to_set l : gset string) ∖ {[x]}) ≤ size (list_to_set l : gset string))
    by (apply subseteq_size; intros y Hy%elem_of_difference; tauto).
  lia.
Qed.

(** X3.  The number of shared keywords is symmetric in the two lists,
    is at most the length of either, and for a list without duplicates
    compared with itself it is the length of the list. *)
Theorem count_shared_keywords_symmetric keywords1 keywords2 :
  count_shared_keywords keywords1 keywords2 = count_shared_keywords keywords2 keywords1 ∧
  count_shared_keywords keywords1 keywords2 ≤ length keywords1 ∧
  count_shared_keywords keywords1 keywords2 ≤ length keywords2 ∧
  (NoDup keywords1 → count_shared_keywords keywords1 keywords1 = length keywords1).
Proof.
  unfold count_shared_keywords. split_and!.
  - f_equal. apply (comm_L (∩)).
  - etrans; [|apply size_list_to_set_le]. apply subseteq_size.
    intros y Hy%elem_of_intersection; tauto.
  - etrans; [|apply size_list_to_set_le]. apply subseteq_size.
    intros y Hy%elem_of_intersection; tauto.
  - intros Hnd. rewrite (idemp_L (∩)). by apply size_list_to_set.
Qed.

End analysis_more.

(** ** The parser along a session *)

Section trace.
Import Model Parser Inv Trace.

Lemma last_n_short {A} n (l : list A) : length l ≤ n → last_n n l = l.
Proof. intros H. unfold last_n. by replace (length l - n) with 0 by lia. Qed.

Lemma last_n_length {A} n (l : list A) : length (last_n n l) = length l `min` n.
Proof. unfold last_n. rewrite length_drop. lia. Qed.

Lemma last_n_app_last {A} n (h l : list A) :
  last_n n (last_n n h ++ l) = last_n n (h ++ l).
Proof.
  destruct (decide (length h ≤ n)) as [Hle|Hgt]; [by rewrite (last_n_short n h)|].
  unfold last_n at 1 3. rewrite !length_app, last_n_length.
  unfold last_n. rewrite !drop_app, drop_drop, !length_drop. f_equal; f_equal; lia.
Qed.

Lemma last_n_last_n {A} (h : list A) : last_n 3 (last_n 5 h) = last_n 3 h.
Proof.
  unfold last_n at 1. rewrite last_n_length. unfold last_n.
  rewrite drop_drop. f_equal. lia.
Qed.

Lemma elem_of_last_n {A} n (l : list A) x :
  x ∈ last_n n l → ∃ j, length l - n ≤ j ∧ l !! j = Some x.
Proof.
  intros (j & Hj)%list_elem_of_lookup. unfold last_n in Hj. rewrite lookup_drop in Hj.
  exists (length l - n + j). split; [lia|done].
Qed.

Lemma remember_last_n p node :
  length (recent_nodes p) ≤ 5 →
  recent_nodes (remember p node) = last_n 5 (recent_nodes p ++ [node]).
Proof.
  intros Hlen. unfold remember, last_n. simpl. rewrite length_app. simpl.
  destruct (Nat.ltb_spec 5 (length (recent_nodes p) + 1)) as [H|H].
  - replace (length (recent_nodes p) + 1 - 5) with 1 by lia.
    by destruct (recent_nodes p).
  - by replace (length (recent_nodes p) + 1 - 5) with 0 by lia.
Qed.

(** The dependencies are drawn without repetition. *)
Lemma detect_dependencies_NoDup p node : NoDup (detect_dependencies p node).
Proof.
  unfold detect_dependencies.
  set (start := if any_referential_cue _ then _ else _).
  assert (NoDup start) as Hstart.
  { subst start. destruct (any_referential_cue _); [|constructor].
    destruct (last (recent_nodes p)); [apply NoDup_singleton|constructor]. }
  revert Hstart. generalize start as deps. generalize (last3 (recent_nodes p)) as l.
  clear start. induction l as [|r l IH]; intros deps Hdeps; simpl.
  - destruct deps; [|by destruct (last (recent_nodes p))].
    destruct (last (recent_nodes p)); [apply NoDup_singleton|constructor].
  - apply IH. destruct (_ && negb (bool_decide (id r ∈ deps))) eqn:E; [|done].
    apply andb_true_iff in E as [_ Hnin%negb_true_iff%bool_decide_eq_false].
    apply NoDup_app. split_and!; [done| |apply NoDup_singleton].
    by intros x Hx ->%list_elem_of_singleton.
Qed.

Lemma shared_keywords_fold (node : ThoughtNode) l : ∀ deps x,
  x ∈ foldl (λ deps recent_node,
               let shared_count :=
                 TextAnalysis.count_shared_keywords (keywords node) (keywords recent_node) in
               if (2 <=? shared_count) && negb (bool_decide (id recent_node ∈ deps))
               then deps ++ [id recent_node] else deps) deps l →
  x ∈ deps ∨ ∃ r, r ∈ l ∧ id r = x.
Proof.
  induction l as [|r l IH]; intros deps x; cbn [foldl]; [by left|].
  intros [Hx|(r' & Hr' & <-)]%IH.
  - cbv zeta in Hx. destruct (_ && _); [|by left].
    apply elem_of_app in Hx as [Hx| ->%list_elem_of_singleton]; [by left|].
    right. exists r. split; [by left|done].
  - right. exists r'. split; [by right|done].
Qed.

(** The dependencies are identifiers of the three nodes remembered
    last. *)
Lemma detect_dependencies_last3 p node d :
  d ∈ detect_dependencies p node → ∃ prev, prev ∈ last_n 3 (recent_nodes p) ∧ id prev = d.
Proof.
  change (last_n 3 (recent_nodes p)) with (last3 (recent_nodes p)).
  assert (Hlast : ∀ prev, last (recent_nodes p) = Some prev → prev ∈ last3 (recent_nodes p)).
  { intros prev [l' Hl]%last_Some. unfold last3. rewrite Hl, length_app. simpl.
    rewrite drop_app. apply elem_of_app. right.
    replace (length l' + 1 - 3 - length l') with 0 by lia. by left. }
  unfold detect_dependencies.
  set (start := if any_referential_cue _ then _ else _).
  assert (Hstart : ∀ x, x ∈ start → ∃ prev, prev ∈ last3 (recent_nodes p) ∧ id prev = x).
  { subst start. intros x. destruct (any_referential_cue _); [|by intros ?%elem_of_nil].
    destruct (last (recent_nodes p)) as [prev|] eqn:Hl; [|by intros ?%elem_of_nil].
    simpl. intros ->%list_elem_of_singleton. exists prev. split; [by apply Hlast|done]. }
  set (final := foldl _ start _).
  assert (Hfinal : ∀ x, x ∈ final → ∃ prev, prev ∈ last3 (recent_nodes p) ∧ id prev = x).
  { intros x [Hx|Hx]%shared_keywords_fold; [by apply Hstart|done]. }
  destruct final as [|d0 final]; [|by destruct (last (recent_nodes p)); apply Hfinal].
  destruct (last (recent_nodes p)) as [prev|] eqn:Hl; [|by intros ?%elem_of_nil].
  intros ->%list_elem_of_singleton. exists prev. split; [by apply Hlast|done].
Qed.

End trace.

Section follows.
Import Model Parser Inv Trace.

Lemma layout_step n :
  (if (n + 1) mod 3 =? 0
   then (0%Z, (100 * Z.of_nat (n / 3) + 100)%Z)
   else ((200 * Z.of_nat (n mod 3) + 200)%Z, (100 * Z.of_nat (n / 3))%Z))
  = ((200 * Z.of_nat ((n + 1) mod 3))%Z, (100 * Z.of_nat ((n + 1) / 3))%Z).
Proof.
  pose proof (Nat.div_mod_eq n 3) as H1. pose proof (Nat.div_mod_eq (n + 1) 3) as H2.
  pose proof (Nat.mod_upper_bound n 3) as H3.
  pose proof (Nat.mod_upper_bound (n + 1) 3) as H4.
  destruct (Nat.eqb_spec ((n + 1) mod 3) 0) as [E|E]; f_equal; nia.
Qed.

Lemma traced_nil sid hist : traced sid hist [].
Proof. by intros i node ?. Qed.

Lemma traced_app sid hist out1 out2 :
  traced sid hist out1 → traced sid (hist ++ out1) out2 → traced sid hist (out1 ++ out2).
Proof.
  intros H1 H2 i node Hi.
  apply lookup_app_Some in Hi as [Hi|[Hge Hi]].
  - rewrite take_app_le by (apply lookup_lt_Some in Hi; lia). by apply H1.
  - rewrite take_app_ge, app_assoc by done. by apply H2.
Qed.

Lemma create_node_follows sid segment :
  follows sid (λ p, let '(o, p') := _create_node_from_segment p segment in
                    (option_list o, p')).
Proof.
  intros p hist out p' (Hsid & Hcnt & Hx & Hy & Hrec).
  unfold _create_node_from_segment.
  destruct (_ || _) eqn:Hguard.
  { intros [= <- <-]. rewrite app_nil_r. split; [done|apply traced_nil]. }
  apply orb_false_iff in Hguard as [_ Hlen%Nat.ltb_ge].
  cbn [generate_node_id]. unfold generate_position.
  cbn [node_counter x_position y_position p_session_id recent_nodes accumulated_text].
  rewrite Hx, Hy, Hcnt, layout_step. cbv beta iota zeta.
  intros [= <- <-]. cbn [option_list]. split.
  - unfold tracked. rewrite length_app. cbn [length].
    split_and!; [done|done|done|done|].
    rewrite remember_last_n by (cbn [recent_nodes]; rewrite Hrec, last_n_length; lia).
    cbn [recent_nodes]. by rewrite Hrec, last_n_app_last.
  - intros [|i] node [=]; subst node. rewrite app_nil_r.
    unfold node_ok.
    cbn [id session_id content position dependencies with_dependencies p_session_id].
    split_and!; [by rewrite Hsid, Nat.add_1_r|done|done|done|apply detect_dependencies_NoDup|].
    intros d (prev & Hprev & <-)%detect_dependencies_last3. exists prev. split; [|done].
    cbn [recent_nodes] in Hprev. by rewrite Hrec, last_n_last_n in Hprev.
Qed.

Lemma follows_seq sid f g :
  follows sid f → follows sid g →
  follows sid (λ p, let '(out, p) := f p in let '(out', p) := g p in (out ++ out', p)).
Proof.
  intros Hf Hg p hist out p' Htr.
  destruct (f p) as [out1 p1] eqn:H1. destruct (g p1) as [out2 p2] eqn:H2.
  intros [= <- <-].
  destruct (Hf _ _ _ _ Htr H1) as (Htr1 & Ht1).
  destruct (Hg _ _ _ _ Htr1 H2) as (Htr2 & Ht2).
  rewrite app_assoc. split; [done|by apply traced_app].
Qed.

Lemma follows_ret sid : follows sid (λ p, ([], p)).
Proof.
  intros p hist out p' Htr [= <- <-]. rewrite app_nil_r. split; [done|apply traced_nil].
Qed.

Lemma follows_ext sid f g : (∀ p, f p = g p) → follows sid f → follows sid g.
Proof. intros Hfg Hf p hist out p' Htr Hg. rewrite <- Hfg in Hg. by eapply Hf. Qed.

Lemma follows_set_accumulated_text sid f text :
  follows sid f → follows sid (λ p, f (set_accumulated_text p text)).
Proof.
  intros Hf p hist out p' Htr H.
  assert (tracked sid (set_accumulated_text p text) hist) as Htr' by done.
  apply (Hf _ _ _ _ Htr' H).
Qed.

Lemma emit_segments_follows sid segments :
  follows sid (λ p, foldl emit_segment ([], p) segments).
Proof.
  induction segments as [|seg segments IH]; [apply follows_ret|].
  eapply follows_ext; [|apply (follows_seq _ _ _ (create_node_follows sid seg) IH)].
  intros p. simpl.
  destruct (_create_node_from_segment p seg) as [[node|] p1]; simpl; [|by destruct (foldl _ _ _)].
  by rewrite (emit_segments_acc _ [node]).
Qed.

Lemma parse_incremental_follows sid text_chunk :
  follows sid (λ p, parse_incremental p text_chunk).
Proof.
  intros p. unfold parse_incremental. simpl.
  destruct (1 <? _).
  - apply (follows_set_accumulated_text _ _ _
             (follows_set_accumulated_text _ _ _ (emit_segments_follows _ _))).
  - apply (follows_set_accumulated_text _ _ _ (follows_ret _)).
Qed.

Lemma finalize_follows sid : follows sid finalize.
Proof.
  intros p. unfold finalize. destruct (negb _); [|apply follows_ret].
  generalize (create_node_follows sid (accumulated_text p) p).
  by destruct (_create_node_from_segment _ _) as [[node|] p1].
Qed.

Lemma do_calls_follows sid cs : follows sid (λ p, do_calls p cs).
Proof.
  induction cs as [|c cs IH]; [apply follows_ret|].
  simpl. apply follows_seq; [|done].
  destruct c; [apply parse_incremental_follows | apply finalize_follows].
Qed.

Lemma tracked_init sid : tracked sid (init sid) [].
Proof. done. Qed.

(** The nodes of a session, from a fresh parser. *)
Lemma session_traced sid cs out p' :
  do_calls (init sid) cs = (out, p') →
  tracked sid p' out ∧ ∀ i node, out !! i = Some node → node_ok sid (take i out) node.
Proof.
  intros Hrun. destruct (do_calls_follows sid cs _ _ _ _ (tracked_init sid) Hrun) as [Htr Ht].
  split; [done|]. intros i node Hi. apply (Ht i node Hi).
Qed.

End follows.

(** ** The parser along a session: statements *)

Section trace_statements.
Import Model Parser Inv Trace.

(** X4.  Along any sequence of calls on a fresh parser, the node
    produced in place [i] (from 1) carries the identifier
    [<session>_node_<i>]: the identifiers are pairwise distinct, and
    every node carries the session identifier of the parser and a
    content of at least ten characters. *)
Theorem node_identifiers_sequential sid cs :
  id <$> (do_calls (init sid) cs).1
    = node_id sid <$> seq 1 (length (do_calls (init sid) cs).1) ∧
  NoDup (id <$> (do_calls (init sid) cs).1) ∧
  Forall (λ node, session_id node = sid ∧ 10 ≤ Py.len (content node))
         (do_calls (init sid) cs).1.
Proof.
  destruct (do_calls (init sid) cs) as [out p'] eqn:Hrun. simpl.
  destruct (session_traced _ _ _ _ Hrun) as [_ Hok].
  assert (id <$> out = node_id sid <$> seq 1 (length out)) as Hids.
  { apply list_eq. intros i. rewrite !list_lookup_fmap.
    destruct (out !! i) as [node|] eqn:Hi; simpl.
    - destruct (Hok i node Hi) as (-> & _). pose proof (lookup_lt_Some _ _ _ Hi) as Hlt.
      rewrite lookup_seq_lt by done. simpl. rewrite length_take. do 3 f_equal. lia.
    - apply lookup_ge_None in Hi. by rewrite lookup_seq_ge. }
  split_and!; [done| |].
  - rewrite Hids. apply (NoDup_fmap_2 _), NoDup_seq.
  - apply Forall_lookup. intros i node Hi. by destruct (Hok i node Hi) as (_ & ? & ? & _).
Qed.

(** X5.  The layout is a function of the place of the node alone: the
    node produced in place [k] (from 0) of a session sits at
    [x = 200 * (k mod 3)], [y = 100 * (k / 3)], whatever the texts. *)
Theorem positions_follow_layout sid cs :
  position <$> (do_calls (init sid) cs).1
    = layout <$> seq 0 (length (do_calls (init sid) cs).1).
Proof.
  destruct (do_calls (init sid) cs) as [out p'] eqn:Hrun. simpl.
  destruct (session_traced _ _ _ _ Hrun) as [_ Hok].
  apply list_eq. intros i. rewrite !list_lookup_fmap.
  destruct (out !! i) as [node|] eqn:Hi; simpl.
  - destruct (Hok i node Hi) as (_ & _ & _ & -> & _).
    pose proof (lookup_lt_Some _ _ _ Hi) as Hlt.
    rewrite lookup_seq_lt by done. simpl. rewrite length_take. do 2 f_equal. lia.
  - apply lookup_ge_None in Hi. by rewrite lookup_seq_ge.
Qed.

(** X6.  Every node depends on at most three nodes, without
    repetition, each of them one of the three nodes produced just
    before it in the session. *)
Theorem dependencies_reach_three_back sid cs i node :
  (do_calls (init sid) cs).1 !! i = Some node →
  NoDup (dependencies node) ∧
  length (dependencies node) ≤ 3 ∧
  ∀ d, d ∈ dependencies node →
    ∃ j prev, i - 3 ≤ j < i ∧ (do_calls (init sid) cs).1 !! j = Some prev ∧ id prev = d.
Proof.
  destruct (do_calls (init sid) cs) as [out p'] eqn:Hrun. simpl. intros Hi.
  destruct (session_traced _ _ _ _ Hrun) as [_ Hok].
  destruct (Hok i node Hi) as (_ & _ & _ & _ & Hnd & Hdeps).
  pose proof (lookup_lt_Some _ _ _ Hi) as Hlt.
  split_and!; [done| |].
  - transitivity (length (id <$> last_n 3 (take i out))).
    + apply submseteq_length, NoDup_submseteq; [done|].
      intros d (prev & Hprev & <-)%Hdeps. apply list_elem_of_fmap. by exists prev.
    + rewrite length_fmap, last_n_length. lia.
  - intros d (prev & (j & Hj & Hprev)%elem_of_last_n & <-)%Hdeps.
    rewrite length_take in Hj. apply lookup_take_Some in Hprev as [Hprev Hji].
    exists j, prev. split_and!; [lia|done|done|done].
Qed.

Lemma dependencies_reach_three_back_witness :
  ∃ node,
    (do_calls (init "s") Samples.calls).1 !! 1 = Some node ∧
    NoDup (dependencies node) ∧
    length (dependencies node) ≤ 3 ∧
    ∀ d, d ∈ dependencies node →
      ∃ j prev, 1 - 3 ≤ j < 1 ∧ (do_calls (init "s") Samples.calls).1 !! j = Some prev
                ∧ id prev = d.
Proof.
  eexists. split; [vm_compute; reflexivity|].
  apply (dependencies_reach_three_back "s" Samples.calls 1). vm_compute; reflexivity.
Defined.

(** X7.  After any sequence of calls on a fresh parser, the counter
    of the parser is the number of nodes produced and the nodes it
    remembers are the last five produced, in their order (all of them
    when fewer were produced). *)
Theorem parser_remembers_last_five sid cs :
  node_counter (do_calls (init sid) cs).2 = length (do_calls (init sid) cs).1 ∧
  recent_nodes (do_calls (init sid) cs).2 = last_n 5 (do_calls (init sid) cs).1 ∧
  length (recent_nodes (do_calls (init sid) cs).2) ≤ 5.
Proof.
  destruct (do_calls (init sid) cs) as [out p'] eqn:Hrun. simpl.
  destruct (session_traced _ _ _ _ Hrun) as [(_ & Hc & _ & _ & Hrec) _].
  split_and!; [done|done|]. rewrite Hrec, last_n_length. lia.
Qed.

(** X8.  [finalize] never touches the buffer and yields at most one
    node; it yields none exactly when the trimmed buffer is shorter
    than ten characters, and then the parser is left as it was: a
    short remainder is dropped without a trace, and calling [finalize]
    again changes nothing. *)
Theorem finalize_keeps_buffer p :
  accumulated_text (finalize p).2 = accumulated_text p ∧
  length (finalize p).1 ≤ 1 ∧
  ((finalize p).1 = [] ↔ Py.len (Py.strip (accumulated_text p)) < 10) ∧
  ((finalize p).1 = [] → finalize p = ([], p)).
Proof.
  destruct (decide (Py.len (Py.strip (accumulated_text p)) < 10)) as [Hlt|Hge].
  - assert (finalize p = ([], p)) as ->; [|by split_and!; simpl; try lia].
    unfold finalize. destruct (negb _); [|done].
    unfold _create_node_from_segment.
    destruct (Nat.ltb_spec (Py.len (Py.strip (accumulated_text p))) 10); [|lia].
    by rewrite orb_true_r.
  - assert (10 ≤ Py.len (Py.strip (accumulated_text p))) as Hlen by lia.
    unfold finalize.
    destruct (bool_decide_reflect (Py.strip (accumulated_text p) = "")) as [E|_].
    { rewrite E in Hlen. vm_compute in Hlen. lia. }
    cbn [negb]. destruct (create_node_total p _ Hlen) as (node & p1 & Hc). rewrite Hc.
    apply create_node_some in Hc as (_ & _ & _ & _ & _ & _ & _ & _ & _ & Hacc & _).
    simpl. split_and!; [done|lia|split; [done|lia]|done].
Qed.

End trace_statements.

(** ** Segments *)

Section segments.
Import Model Parser Inv Trace.

Lemma segment_step_invariant min_words st sentence :
  Forall (λ seg, min_words ≤ length (Py.split seg) ∧ seg ≠ "") st.1 →
  Forall (λ seg, min_words ≤ length (Py.split seg) ∧ seg ≠ "")
         (segment_step min_words st sentence).1.
Proof.
  destruct st as [segments current]. unfold segment_step. simpl. intros Hall.
  destruct (decide (Py.strip sentence = "")) as [|Hne]; [done|].
  destruct (Nat.leb_spec min_words
              (length (Py.split (if decide (current = "") then Py.strip sentence
                                 else current +:+ ". " +:+ Py.strip sentence)))) as [Hle|];
    [|done].
  simpl. apply Forall_app. split; [done|]. apply Forall_singleton. split; [done|].
  destruct (decide (current = "")) as [|Hc]; [done|]. by destruct current.
Qed.

Lemma segment_loop_invariant min_words sentences : ∀ st,
  Forall (λ seg, min_words ≤ length (Py.split seg) ∧ seg ≠ "") st.1 →
  Forall (λ seg, min_words ≤ length (Py.split seg) ∧ seg ≠ "")
         (foldl (segment_step min_words) st sentences).1.
Proof.
  induction sentences as [|s sentences IH]; intros st Hst; [done|].
  simpl. by apply IH, segment_step_invariant.
Qed.

(** X9.  Every segment that [split_into_segments] returns is
    non-empty and has at least [min_words // 2] words, and every
    segment but the last has at least [min_words] words. *)
Theorem split_into_segments_sizes text min_words :
  Forall (λ seg, min_words / 2 ≤ length (Py.split seg) ∧ seg ≠ "")
         (split_into_segments_n text min_words) ∧
  Forall (λ seg, min_words ≤ length (Py.split seg))
         (removelast (split_into_segments_n text min_words)).
Proof.
  unfold split_into_segments_n.
  pose proof (segment_loop_invariant min_words (Py.re_split Py.sentence_end text) ([], "")
                (Forall_nil_2 _)) as Hloop.
  destruct (foldl _ _ _) as [segments current]. simpl in Hloop.
  assert (Forall (λ seg, min_words / 2 ≤ length (Py.split seg) ∧ seg ≠ "") segments) as Hhalf.
  { eapply Forall_impl; [exact Hloop|]. intros seg [Hw Hne]. split; [|done].
    pose proof (Nat.Div0.div_le_upper_bound min_words 2 min_words). lia. }
  assert (Forall (λ seg, min_words ≤ length (Py.split seg)) segments) as Hfull.
  { eapply Forall_impl; [exact Hloop|]. by intros seg [Hw _]. }
  destruct (bool_decide_reflect (current = "")) as [->|Hne]; cbn [negb andb].
  - split; [done|]. destruct segments as [|s0 l] using rev_ind; [done|].
    rewrite removelast_last. by apply Forall_app in Hfull as [? _].
  - destruct (Nat.leb_spec (min_words / 2) (length (Py.split current))) as [Hle|].
    + split; [|by rewrite removelast_last].
      apply Forall_app. split; [done|]. by apply Forall_singleton.
    + split; [done|]. destruct segments as [|s0 l] using rev_ind; [done|].
      rewrite removelast_last. by apply Forall_app in Hfull as [? _].
Qed.

(** The nodes of the loop over complete segments come from these
    segments. *)
Lemma emit_segments_from segments : ∀ p node,
  node ∈ (foldl emit_segment ([], p) segments).1 →
  ∃ segment, segment ∈ segments ∧ content node = Py.strip segment.
Proof.
  induction segments as [|seg segments IH]; intros p node; [by intros ?%elem_of_nil|].
  simpl. destruct (_create_node_from_segment p seg) as [[n|] p1] eqn:Hc.
  - rewrite (emit_segments_acc _ [n]).
    destruct (foldl emit_segment ([], p1) segments) as [more p2] eqn:Hf. simpl.
    intros [->|Hin]%elem_of_cons.
    + apply create_node_some in Hc as (_ & Hcont & _). exists seg. split; [by left|done].
    + destruct (IH p1 node) as (s & Hs & Hcont); [by rewrite Hf|].
      exists s. split; [by right|done].
  - intros Hin. destruct (IH p1 node Hin) as (s & Hs & Hcont).
    exists s. split; [by right|done].
Qed.

(** X10.  Every node that [parse_incremental] yields is the trimmed
    text of a segment of at least twenty words; a shorter remainder
    can only leave the parser through [finalize]. *)
Theorem parse_incremental_yields_long_segments p text_chunk :
  Forall (λ node, ∃ segment, content node = Py.strip segment ∧
                             20 ≤ length (Py.split segment))
         (parse_incremental p text_chunk).1.
Proof.
  unfold parse_incremental. simpl.
  destruct (1 <? _); [|done]. apply Forall_forall. intros node Hin.
  apply emit_segments_from in Hin as (segment & Hseg & Hcont).
  exists segment. split; [done|].
  destruct (split_into_segments_sizes (accumulated_text p +:+ text_chunk) 20) as [_ Hfull].
  rewrite Forall_forall in Hfull. by apply Hfull.
Qed.

End segments.

(** ** Session state: creation, pruning, completion *)

Section sessions_more.
Import Model Exn Sessions Inv SessionViews.

Lemma create_session_below_cap m ip session_id now :
  (Z.of_nat (active_count m ip) < max_concurrent_per_ip m)%Z →
  create_session m ip session_id now =
    (Return (new_session session_id ip now),
     let m1 := (_get_active_sessions_for_ip m ip).2 in
     set_ip_sessions
       (set_sessions m1 (<[session_id := new_session session_id ip now]> (sessions m1)))
       (<[ip := default [] (ip_sessions m1 !! ip) ++ [session_id]]> (ip_sessions m1))).
Proof.
  intros Hcap. unfold create_session, active_count in *.
  destruct (pruning_keeps_store m ip) as [_ Hmax].
  destruct (_get_active_sessions_for_ip m ip) as [active m1]. simpl in *. rewrite Hmax.
  by destruct (Z.leb_spec (max_concurrent_per_ip m) (Z.of_nat (length active))); [lia|].
Qed.

(** X11.  A creation below the cap stores a session in its initial
    state under the identifier drawn, where [get_session] finds it,
    tracks it last for its IP, counts one more active session for the
    IP and leaves every other session of the store as it was. *)
Theorem create_session_stores m ip session_id now :
  (Z.of_nat (active_count m ip) < max_concurrent_per_ip m)%Z →
  ∃ m',
    create_session m ip session_id now = (Return (new_session session_id ip now), m') ∧
    get_session m' session_id = Some (new_session session_id ip now) ∧
    (∀ other, other ≠ session_id → get_session m' other = get_session m other) ∧
    last (default [] (ip_sessions m' !! ip)) = Some session_id ∧
    active_count m' ip = S (active_count m ip).
Proof.
  intros Hcap.
  destruct (create_session_granted m ip session_id now Hcap) as (m' & Hc & _ & Hcount).
  exists m'. split; [done|]. split_and!; [| | |done].
  all: rewrite (create_session_below_cap m ip session_id now Hcap) in Hc;
    injection Hc as Hm'; rewrite <- Hm'; unfold get_session;
    cbn [sessions set_sessions set_ip_sessions ip_sessions].
  - by rewrite lookup_insert_eq.
  - intros other Hne. rewrite lookup_insert_ne by done. by destruct (bool_decide _).
  - rewrite lookup_insert_eq. apply last_snoc.
Qed.

Lemma create_session_stores_witness :
  (Z.of_nat (active_count (new_manager 3 1) "10.0.0.1")
   < max_concurrent_per_ip (new_manager 3 1))%Z ∧
  ∃ m',
    create_session (new_manager 3 1) "10.0.0.1" "session_a" 0
      = (Return (new_session "session_a" "10.0.0.1" 0), m') ∧
    get_session m' "session_a" = Some (new_session "session_a" "10.0.0.1" 0) ∧
    (∀ other, other ≠ "session_a" →
       get_session m' other = get_session (new_manager 3 1) other) ∧
    last (default [] (ip_sessions m' !! "10.0.0.1")) = Some "session_a" ∧
    active_count m' "10.0.0.1" = S (active_count (new_manager 3 1) "10.0.0.1").
Proof.
  assert ((Z.of_nat (active_count (new_manager 3 1) "10.0.0.1")
           < max_concurrent_per_ip (new_manager 3 1))%Z) as H by (vm_compute; reflexivity).
  split; [exact H|].
  exact (create_session_stores (new_manager 3 1) "10.0.0.1" "session_a" 0%Z H).
Defined.

Lemma filter_filter_id {A} (f : A → bool) l :
  List.filter f (List.filter f l) = List.filter f l.
Proof.
  apply forallb_filter_id, forallb_forall. intros x Hx. apply filter_In in Hx. tauto.
Qed.

(** X12.  Pruning the active list of an IP is idempotent: a second
    call returns the same list and leaves the manager as the first
    call left it; and it never touches the session store. *)
Theorem active_sessions_pruning_idempotent m ip :
  _get_active_sessions_for_ip (_get_active_sessions_for_ip m ip).2 ip
    = _get_active_sessions_for_ip m ip ∧
  sessions (_get_active_sessions_for_ip m ip).2 = sessions m.
Proof.
  split; [|apply pruning_keeps_store].
  unfold _get_active_sessions_for_ip. simpl.
  destruct (ip_sessions m !! ip) as [ids|] eqn:Hip; simpl.
  - rewrite lookup_insert_eq. simpl.
    assert (∀ ips, is_active (set_ip_sessions m ips) = is_active m) as Hact by done.
    rewrite !Hact, filter_filter_id.
    unfold set_ip_sessions. simpl. by rewrite insert_insert_eq.
  - by rewrite Hip.
Qed.

End sessions_more.

(** ** Session state: updates and sweeps *)

Section sessions_updates.
Import Model Exn Sessions Inv SessionViews.

(** A field that no keyword of the list sets keeps its value. *)
Lemma setattr_keeps {A} (field : Session → A) s kwargs :
  Forall (λ kw, ∀ s, field (setattr s kw) = field s) kwargs →
  field (foldl setattr s kwargs) = field s.
Proof.
  intros H. revert s. induction H as [|kw kwargs Hkw _ IH]; intros s; [done|].
  simpl. by rewrite IH, Hkw.
Qed.

Lemma setattr_frame s kwargs :
  s_session_id (foldl setattr s kwargs) = s_session_id s ∧
  ((∀ v, kw_ip_address v ∉ kwargs) → ip_address (foldl setattr s kwargs) = ip_address s) ∧
  ((∀ v, kw_status v ∉ kwargs) → status (foldl setattr s kwargs) = status s) ∧
  ((∀ v, kw_created_at v ∉ kwargs) → created_at (foldl setattr s kwargs) = created_at s) ∧
  ((∀ v, kw_thought_nodes v ∉ kwargs) →
     thought_nodes (foldl setattr s kwargs) = thought_nodes s) ∧
  ((∀ v, kw_tokens_used v ∉ kwargs) → tokens_used (foldl setattr s kwargs) = tokens_used s) ∧
  ((∀ v, kw_problem_text v ∉ kwargs) →
     problem_text (foldl setattr s kwargs) = problem_text s) ∧
  ((∀ v, kw_solution_text v ∉ kwargs) →
     solution_text (foldl setattr s kwargs) = solution_text s) ∧
  ((∀ v, kw_error_message v ∉ kwargs) →
     error_message (foldl setattr s kwargs) = error_message s).
Proof.
  split_and!; [|intros H..]; apply setattr_keeps, Forall_forall; intros kw Hkw s0;
    destruct kw; try done; by destruct (H v).
Qed.


Lemma is_active_update_other m session_id kwargs x :
  x ≠ session_id → is_active (update_session m session_id kwargs) x = is_active m x.
Proof.
  intros Hne. unfold is_active, update_session, get_session.
  destruct (sessions m !! session_id); [|done]. simpl. by rewrite lookup_insert_ne.
Qed.

(** X14.  Driving a session of the store to a terminal status takes
    it, and only it, out of the active list of every IP: the session no
    longer counts against the cap, and the count of an IP that had it
    active decreases. *)
Theorem terminal_status_frees_slot m session_id s st ip :
  get_session m session_id = Some s →
  st ∈ ["completed"; "error"] →
  (_get_active_sessions_for_ip (update_session m session_id [kw_status st]) ip).1
    = List.filter (λ x, negb (bool_decide (x = session_id)))
                  (_get_active_sessions_for_ip m ip).1 ∧
  active_count (update_session m session_id [kw_status st]) ip ≤ active_count m ip ∧
  (session_id ∈ (_get_active_sessions_for_ip m ip).1 →
   active_count (update_session m session_id [kw_status st]) ip < active_count m ip).
Proof.
  intros Hs Hst.
  assert (is_active (update_session m session_id [kw_status st]) session_id = false) as Hoff.
  { unfold is_active, update_session. rewrite Hs. simpl. rewrite lookup_insert_eq. simpl.
    by rewrite bool_decide_eq_true_2. }
  assert (ip_sessions (update_session m session_id [kw_status st]) = ip_sessions m) as Hips.
  { unfold update_session. by rewrite Hs. }
  assert ((_get_active_sessions_for_ip (update_session m session_id [kw_status st]) ip).1
          = List.filter (λ x, negb (bool_decide (x = session_id)))
                        (_get_active_sessions_for_ip m ip).1) as Heq.
  { unfold _get_active_sessions_for_ip. cbn [fst]. rewrite Hips.
    induction (default [] (ip_sessions m !! ip)) as [|x l IH]; [done|]. cbn [List.filter].
    destruct (decide (x = session_id)) as [->|Hne].
    - rewrite Hoff. destruct (is_active m session_id); [|done].
      cbn [List.filter]. by rewrite bool_decide_eq_true_2.
    - rewrite is_active_update_other by done. destruct (is_active m x); [|done].
      cbn [List.filter]. rewrite bool_decide_eq_false_2 by done. cbn [negb]. by rewrite IH. }
  unfold active_count. rewrite Heq. split_and!; [done|apply filter_length_le|].
  intros Hin. clear Heq.
  induction (_get_active_sessions_for_ip m ip).1 as [|x l IH]; [by apply elem_of_nil in Hin|].
  cbn [List.filter length]. apply elem_of_cons in Hin as [<-|Hin].
  - rewrite bool_decide_eq_true_2 by done. cbn [negb].
    pose proof (filter_length_le (λ x, negb (bool_decide (x = session_id))) l). lia.
  - specialize (IH Hin). destruct (negb _); cbn [length]; lia.
Qed.

Lemma terminal_status_frees_slot_witness :
  get_session Samples.busy "session_a"
    = Some (new_session "session_a" "10.0.0.1" 0) ∧
  "completed" ∈ ["completed"; "error"] ∧
  "session_a" ∈ (_get_active_sessions_for_ip Samples.busy "10.0.0.1").1 ∧
  active_count (update_session Samples.busy "session_a" [kw_status "completed"]) "10.0.0.1"
    < active_count Samples.busy "10.0.0.1".
Proof.
  assert (get_session Samples.busy "session_a"
          = Some (new_session "session_a" "10.0.0.1" 0)) as H by (vm_compute; reflexivity).
  assert ("completed" ∈ ["completed"; "error"]) as Hst by (by left).
  assert ("session_a" ∈ (_get_active_sessions_for_ip Samples.busy "10.0.0.1").1) as Hin
    by (vm_compute; left).
  split_and!; [exact H|exact Hst|exact Hin|].
  exact (proj2 (proj2 (terminal_status_frees_slot Samples.busy "session_a" _ "completed"
                         "10.0.0.1" H Hst)) Hin).
Defined.

End sessions_updates.

(** ** Session state: after a sweep, and the IP tracking *)

Section sessions_tracking.
Import Model Exn Sessions Inv SessionViews.

(** The sweep, by lookups. *)
Lemma cleanup_lookup m now :
  ∃ removed m',
    cleanup_old_sessions m now = Return (removed, m') ∧
    ∀ id, sessions m' !! id =
          match sessions m !! id with
          | Some s => if decide (expired m now s) then None else Some s
          | None => None
          end.
Proof.
  unfold cleanup_old_sessions.
  set (old := List.filter _ (map_to_list (sessions m))).
  assert (Hold : ∀ id s, (id, s) ∈ old ↔ sessions m !! id = Some s ∧ expired m now s).
  { intros id s. subst old. rewrite elem_of_List_filter, elem_of_map_to_list.
    simpl. unfold expired. by rewrite Z.ltb_lt. }
  assert (Hnd : NoDup old.*1).
  { eapply sublist_NoDup; [apply (NoDup_fst_map_to_list (sessions m))|].
    apply fmap_sublist. subst old. clear.
    induction (map_to_list (sessions m)) as [|x l IH]; simpl; [done|].
    destruct (_ <? _)%Z; by constructor. }
  destruct (remove_sessions_spec old.*1 m Hnd) as (m' & -> & Hlook & _).
  { intros id ([id' s] & -> & [? _]%Hold)%list_elem_of_fmap. eauto. }
  exists (length old.*1), m'. split; [done|]. intros id. rewrite Hlook.
  destruct (sessions m !! id) as [s|] eqn:Hs; [|by destruct (bool_decide _)].
  destruct (decide (expired m now s)) as [He|He].
  - rewrite bool_decide_eq_true_2; [done|].
    apply list_elem_of_fmap. exists (id, s). split; [done|]. by apply Hold.
  - rewrite bool_decide_eq_false_2; [done|].
    intros ([id' s'] & -> & [Hs' ?]%Hold)%list_elem_of_fmap. simpl in *. congruence.
Qed.

(** X15.  Once a sweep has removed a session, the session is unknown:
    [get_session] finds nothing, and [update_session] and
    [add_thought_node] on its identifier leave the manager as it is,
    without raising. *)
Theorem swept_session_is_unknown m now removed m' session_id s :
  cleanup_old_sessions m now = Return (removed, m') →
  get_session m session_id = Some s →
  expired m now s →
  get_session m' session_id = None ∧
  (∀ kwargs, update_session m' session_id kwargs = m') ∧
  (∀ thought_node, add_thought_node m' session_id thought_node = m').
Proof.
  intros Hc Hs He. destruct (cleanup_lookup m now) as (r & m0 & Hc' & Hlook).
  rewrite Hc in Hc'. injection Hc' as -> ->.
  assert (get_session m0 session_id = None) as Hnone.
  { unfold get_session in *. rewrite Hlook, Hs. by rewrite decide_True. }
  split_and!; [done| |].
  - intros kwargs. unfold update_session. by rewrite Hnone.
  - intros node. unfold add_thought_node. by rewrite Hnone.
Qed.

End sessions_tracking.

Section tracking_invariant.
Import Model Exn Sessions Inv SessionViews.

Lemma tracking_new max_concurrent cleanup : tracking_ok (new_manager max_concurrent cleanup).
Proof. split; [intros ip ids|intros id s]; simpl; by rewrite lookup_empty. Qed.

Lemma NoDup_List_filter {A} (f : A → bool) l : NoDup l → NoDup (List.filter f l).
Proof.
  induction 1 as [|x l Hx Hnd IH]; simpl; [constructor|].
  destruct (f x); [|done]. constructor; [|done].
  by intros [? _]%elem_of_List_filter.
Qed.

Lemma tracking_prune m ip : tracking_ok m → tracking_ok (_get_active_sessions_for_ip m ip).2.
Proof.
  intros [Htr Hst]. unfold _get_active_sessions_for_ip. simpl.
  destruct (ip_sessions m !! ip) as [ids|] eqn:Hip; simpl; [|done].
  split; [|done]. intros ip' ids'. simpl. destruct (decide (ip' = ip)) as [->|Hne].
  - rewrite lookup_insert_eq. intros [= <-]. destruct (Htr ip ids Hip) as [Hnd Hin].
    split; [by apply NoDup_List_filter|]. intros id [Hid _]%elem_of_List_filter. by apply Hin.
  - rewrite lookup_insert_ne by done. apply Htr.
Qed.

Lemma tracking_create m ip session_id now :
  tracking_ok m → sessions m !! session_id = None →
  tracking_ok (create_session m ip session_id now).2.
Proof.
  intros Hok Hfresh. pose proof (tracking_prune m ip Hok) as Hok1.
  pose proof (tracked_after_pruning m ip) as Htr.
  destruct (pruning_keeps_store m ip) as [Hst _].
  unfold create_session.
  destruct (_get_active_sessions_for_ip m ip) as [active m1]. simpl in *.
  destruct (_ <=? _)%Z; [done|]. simpl. destruct Hok1 as [Hlists Hids].
  rewrite <- Hst in Hfresh. split; simpl.
  - intros ip' ids'. destruct (decide (ip' = ip)) as [->|Hne].
    + rewrite lookup_insert_eq. intros [= <-].
      assert (∀ id, id ∈ active → ∃ s, sessions m1 !! id = Some s ∧ ip_address s = ip)
        as Hact.
      { destruct (ip_sessions m1 !! ip) as [ids|] eqn:Hip; simpl in Htr; subst active.
        - apply (Hlists ip ids Hip).
        - by intros id ?%elem_of_nil. }
      assert (NoDup active) as Hnd.
      { destruct (ip_sessions m1 !! ip) as [ids|] eqn:Hip; simpl in Htr; subst active.
        - apply (Hlists ip ids Hip).
        - constructor. }
      rewrite Htr. split.
      * apply NoDup_app. split_and!; [done| |apply NoDup_singleton].
        intros id Hin ->%list_elem_of_singleton.
        destruct (Hact _ Hin) as (s & Hs & _). congruence.
      * intros id [Hin| ->%list_elem_of_singleton]%elem_of_app.
        -- destruct (Hact _ Hin) as (s & Hs & Hip).
           exists s. split; [|done]. rewrite lookup_insert_ne; [done|]. congruence.
        -- exists (new_session session_id ip now). split; [apply lookup_insert_eq|done].
    + rewrite lookup_insert_ne by done. intros Hip'.
      destruct (Hlists ip' ids' Hip') as [Hnd Hin]. split; [done|].
      intros id Hid. destruct (Hin id Hid) as (s & Hs & Hip).
      exists s. split; [|done]. rewrite lookup_insert_ne; [done|]. congruence.
  - intros id s. destruct (decide (id = session_id)) as [->|Hne].
    + rewrite lookup_insert_eq. by intros [= <-].
    + rewrite lookup_insert_ne by done. apply Hids.
Qed.

Lemma tracking_replace m session_id s s' :
  tracking_ok m → sessions m !! session_id = Some s →
  s_session_id s' = s_session_id s → ip_address s' = ip_address s →
  tracking_ok (set_sessions m (<[session_id := s']> (sessions m))).
Proof.
  intros [Hlists Hids] Hs Hid Hip. split; simpl.
  - intros ip ids Hips. destruct (Hlists ip ids Hips) as [Hnd Hin]. split; [done|].
    intros id Hin'. destruct (Hin id Hin') as (s0 & Hs0 & Hip0).
    destruct (decide (id = session_id)) as [->|Hne].
    + exists s'. rewrite lookup_insert_eq. split; [done|]. congruence.
    + exists s0. by rewrite lookup_insert_ne.
  - intros id s0. destruct (decide (id = session_id)) as [->|Hne].
    + rewrite lookup_insert_eq. intros [= <-]. rewrite Hid. by apply Hids.
    + rewrite lookup_insert_ne by done. apply Hids.
Qed.

Lemma tracking_update m session_id kwargs :
  (∀ v, kw_ip_address v ∉ kwargs) →
  tracking_ok m → tracking_ok (update_session m session_id kwargs).
Proof.
  intros Hip Hok. unfold update_session, get_session.
  destruct (sessions m !! session_id) as [s|] eqn:Hs; [|done].
  destruct (setattr_frame s kwargs) as (? & Hkeep & _).
  eapply tracking_replace; [done..|by apply Hkeep].
Qed.

Lemma tracking_add m session_id thought_node :
  tracking_ok m → tracking_ok (add_thought_node m session_id thought_node).
Proof.
  intros Hok. unfold add_thought_node, get_session.
  destruct (sessions m !! session_id) as [s|] eqn:Hs; [|done].
  by eapply tracking_replace.
Qed.

Lemma list_remove_NoDup x l :
  NoDup l → NoDup (Sessions.list_remove x l) ∧
            ∀ y, y ∈ Sessions.list_remove x l → y ∈ l ∧ y ≠ x.
Proof.
  induction 1 as [|y l Hy Hnd IH]; simpl; [split; [constructor|by intros ? ?%elem_of_nil]|].
  destruct (decide (x = y)) as [->|Hne].
  - split; [done|]. intros z Hz. split; [by right|]. by intros ->.
  - destruct IH as [IH1 IH2]. split.
    + constructor; [|done]. intros Hin. by apply IH2 in Hin as [? _].
    + intros z [->|Hz]%elem_of_cons; [split; [by left|done]|].
      destruct (IH2 z Hz). split; [by right|done].
Qed.

Lemma tracking_remove_session m session_id m' :
  tracking_ok m → remove_session m session_id = Return m' → tracking_ok m'.
Proof.
  intros [Hlists Hids]. unfold remove_session.
  destruct (sessions m !! session_id) as [s|] eqn:Hs; [|done]. intros [= <-].
  assert (∀ ip ids id, ip_sessions m !! ip = Some ids → id ∈ ids → id ≠ session_id →
            ∃ s0, delete session_id (sessions m) !! id = Some s0 ∧ ip_address s0 = ip)
    as Hkeep.
  { intros ip ids id Hip Hin Hne. destruct (Hlists ip ids Hip) as [_ H].
    destruct (H id Hin) as (s0 & Hs0 & ?). exists s0. by rewrite lookup_delete_ne. }
  assert (∀ ip ids, ip_sessions m !! ip = Some ids → ip ≠ ip_address s →
            session_id ∉ ids) as Hforeign.
  { intros ip ids Hip Hne Hin. destruct (Hlists ip ids Hip) as [_ H].
    destruct (H _ Hin) as (s0 & Hs0 & ?). congruence. }
  assert (∀ id s0, delete session_id (sessions m) !! id = Some s0 → s_session_id s0 = id)
    as Hids'.
  { intros id s0 Hl. apply lookup_delete_Some in Hl as [_ Hl]. by apply Hids. }
  destruct (ip_sessions m !! ip_address s) as [ids|] eqn:Hip; simpl.
  - destruct (bool_decide_reflect (session_id ∈ ids)) as [Hin|Hnin]; simpl.
    + split; [|done]. simpl. intros ip' ids'.
      destruct (decide (ip' = ip_address s)) as [->|Hne].
      * rewrite lookup_insert_eq. intros [= <-]. destruct (Hlists _ _ Hip) as [Hnd _].
        destruct (list_remove_NoDup session_id ids Hnd) as [Hnd' Hsub]. split; [done|].
        intros id [Hid Hne]%Hsub. by eapply Hkeep.
      * rewrite lookup_insert_ne by done. intros Hip'.
        destruct (Hlists _ _ Hip') as [Hnd _]. split; [done|].
        intros id Hid. eapply Hkeep; [done..|]. intros ->. by eapply Hforeign.
    + split; [|done]. simpl. intros ip' ids' Hip'.
      destruct (Hlists _ _ Hip') as [Hnd _]. split; [done|].
      intros id Hid. eapply Hkeep; [done..|]. intros ->.
      destruct (decide (ip' = ip_address s)) as [->|Hne]; [congruence|by eapply Hforeign].
  - split; [|done]. simpl. intros ip' ids' Hip'.
    destruct (Hlists _ _ Hip') as [Hnd _]. split; [done|].
    intros id Hid. eapply Hkeep; [done..|]. intros ->.
    destruct (decide (ip' = ip_address s)) as [->|Hne]; [congruence|by eapply Hforeign].
Qed.

Lemma tracking_remove_sessions ids : ∀ m m',
  tracking_ok m → remove_sessions m ids = Return m' → tracking_ok m'.
Proof.
  induction ids as [|id ids IH]; intros m m' Hok; simpl; [by intros [= <-]|].
  destruct (remove_session m id) as [m1|e] eqn:H1; [|done].
  apply IH. by eapply tracking_remove_session.
Qed.

Lemma tracking_call m c :
  tracking_ok m → orderly m c → tracking_ok (do_call m c).
Proof.
  intros Hok Hord. destruct c as [ip id now|id kwargs|id node|now]; simpl in *.
  - by apply tracking_create.
  - apply tracking_update; [apply Hord|done].
  - by apply tracking_add.
  - unfold cleanup_old_sessions.
    destruct (remove_sessions m _) as [m'|e] eqn:Hr; [|done].
    by eapply tracking_remove_sessions.
Qed.

End tracking_invariant.

(** ** Session state: reachable stores and views *)

Section sessions_reachable.
Import Model Exn Sessions Inv SessionViews.

Lemma covered_new max_concurrent cleanup : covered (new_manager max_concurrent cleanup).
Proof. intros id s. simpl. by rewrite lookup_empty. Qed.

Lemma covered_prune m ip : covered m → covered (_get_active_sessions_for_ip m ip).2.
Proof.
  intros Hc id s. unfold _get_active_sessions_for_ip. simpl.
  destruct (ip_sessions m !! ip) as [ids|] eqn:Hip; simpl; [|apply Hc].
  intros Hs Hst. pose proof (Hc id s Hs Hst) as Hin.
  destruct (decide (ip_address s = ip)) as [E|Hne].
  - rewrite E, lookup_insert_eq. simpl. rewrite E, Hip in Hin. simpl in Hin.
    apply elem_of_List_filter. split; [done|]. unfold is_active. rewrite Hs.
    by apply negb_true_iff, bool_decide_eq_false.
  - by rewrite lookup_insert_ne.
Qed.

Lemma covered_create m ip session_id now :
  covered m → covered (create_session m ip session_id now).2.
Proof.
  intros Hc. pose proof (covered_prune m ip Hc) as Hc1.
  unfold create_session.
  destruct (_get_active_sessions_for_ip m ip) as [active m1]. simpl in *.
  destruct (_ <=? _)%Z; [done|]. simpl. intros id s. simpl.
  destruct (decide (id = session_id)) as [->|Hne].
  - rewrite lookup_insert_eq. intros [= <-] _. simpl. rewrite lookup_insert_eq. simpl.
    apply elem_of_app. right. by left.
  - rewrite lookup_insert_ne by done. intros Hs Hst. pose proof (Hc1 id s Hs Hst) as Hin.
    destruct (decide (ip_address s = ip)) as [E|Hip].
    + rewrite E in *. rewrite lookup_insert_eq. simpl. apply elem_of_app. by left.
    + by rewrite lookup_insert_ne.
Qed.

Lemma covered_replace m session_id s s' :
  covered m → sessions m !! session_id = Some s →
  ip_address s' = ip_address s →
  (status s ∈ ["completed"; "error"] → status s' ∈ ["completed"; "error"]) →
  covered (set_sessions m (<[session_id := s']> (sessions m))).
Proof.
  intros Hc Hs Hip Hst id s0. simpl. destruct (decide (id = session_id)) as [->|Hne].
  - rewrite lookup_insert_eq. intros [= <-] Hlive. rewrite Hip. apply (Hc _ _ Hs). tauto.
  - rewrite lookup_insert_ne by done. apply Hc.
Qed.

Lemma elem_of_list_remove_ne x y l : y ∈ l → y ≠ x → y ∈ Sessions.list_remove x l.
Proof.
  induction l as [|z l IH]; [by intros ?%elem_of_nil|]. simpl.
  intros [->|Hin]%elem_of_cons Hne.
  - rewrite decide_False by done. by left.
  - destruct (decide (x = z)); [done|]. right. by apply IH.
Qed.

Lemma covered_remove_session m session_id m' :
  covered m → remove_session m session_id = Return m' → covered m'.
Proof.
  intros Hc. unfold remove_session.
  destruct (sessions m !! session_id) as [s|] eqn:Hs; [|done]. intros [= <-] id s0.
  assert (sessions (match ip_sessions m !! ip_address s with
                    | Some ids =>
                        if bool_decide (session_id ∈ ids)
                        then set_ip_sessions m
                               (<[ip_address s := Sessions.list_remove session_id ids]>
                                  (ip_sessions m))
                        else m
                    | None => m
                    end) = sessions m) as Hst.
  { destruct (ip_sessions m !! ip_address s); [destruct (bool_decide _)|]; done. }
  simpl. rewrite Hst. intros [Hne Hs0]%lookup_delete_Some Hlive.
  pose proof (Hc id s0 Hs0 Hlive) as Hin.
  destruct (ip_sessions m !! ip_address s) as [ids|] eqn:Hip; [|done].
  destruct (bool_decide (session_id ∈ ids)); [|done]. simpl.
  destruct (decide (ip_address s0 = ip_address s)) as [E|Hip'].
  - rewrite E in *. rewrite lookup_insert_eq. rewrite Hip in Hin. simpl in *.
    by apply elem_of_list_remove_ne.
  - by rewrite lookup_insert_ne.
Qed.

Lemma covered_remove_sessions ids : ∀ m m',
  covered m → remove_sessions m ids = Return m' → covered m'.
Proof.
  induction ids as [|id ids IH]; intros m m' Hok; simpl; [by intros [= <-]|].
  destruct (remove_session m id) as [m1|e] eqn:H1; [|done].
  apply IH. by eapply covered_remove_session.
Qed.

Lemma covered_call m c : covered m → orderly m c → covered (do_call m c).
Proof.
  intros Hc Hord. destruct c as [ip id now|id kwargs|id node|now]; simpl in *.
  - by apply covered_create.
  - unfold update_session, get_session.
    destruct (sessions m !! id) as [s|] eqn:Hs; [|done]. destruct Hord as [Hip Hst].
    destruct (setattr_frame s kwargs) as (_ & Hkeep & _).
    eapply covered_replace; [done..|by apply Hkeep|by apply Hst].
  - unfold add_thought_node, get_session.
    destruct (sessions m !! id) as [s|] eqn:Hs; [|done].
    by eapply covered_replace.
  - unfold cleanup_old_sessions.
    destruct (remove_sessions m _) as [m'|e] eqn:Hr; [|done].
    by eapply covered_remove_sessions.
Qed.

(** Where the tracking is sound and covers the store, the count held
    against the cap is the number of sessions of the IP in the store
    that are not in a terminal status. *)
Lemma active_count_live m ip :
  tracking_ok m → covered m → active_count m ip = live_count m ip.
Proof.
  intros [Hlists _] Hc. unfold active_count, live_count, _get_active_sessions_for_ip.
  cbn [fst]. rewrite <- (size_dom (D := gset string)).
  assert (NoDup (default [] (ip_sessions m !! ip))) as Hnd.
  { destruct (ip_sessions m !! ip) as [ids|] eqn:Hip; [apply (Hlists ip ids Hip)|constructor]. }
  rewrite <- (size_list_to_set (C := gset string)) by (by apply NoDup_List_filter).
  f_equal. apply set_eq. intros id.
  rewrite elem_of_list_to_set, elem_of_List_filter, elem_of_dom. split.
  - intros [Hid Hact]. destruct (ip_sessions m !! ip) as [ids|] eqn:Hip;
      [|by apply elem_of_nil in Hid].
    destruct (Hlists ip ids Hip) as [_ Hin]. destruct (Hin id Hid) as (s & Hs & Hips).
    exists s. apply map_lookup_filter_Some. split; [done|].
    unfold is_active in Hact. rewrite Hs in Hact. split; [done|]. simpl.
    by apply negb_true_iff, bool_decide_eq_false in Hact.
  - intros [s [Hs [Hip Hst]]%map_lookup_filter_Some]. simpl in *. split.
    + rewrite <- Hip. by apply Hc.
    + unfold is_active. rewrite Hs. by apply negb_true_iff, bool_decide_eq_false.
Qed.

Lemma live_count_insert_fresh m session_id s ip :
  sessions m !! session_id = None →
  size (filter (live ip) (<[session_id := s]> (sessions m)))
  = (if decide (live ip (session_id, s)) then 1 else 0) + live_count m ip.
Proof.
  intros Hfresh. unfold live_count. destruct (decide (live ip (session_id, s))) as [Hl|Hl].
  - rewrite map_filter_insert_True by done.
    by rewrite map_size_insert_None by (by rewrite map_lookup_filter, Hfresh).
  - rewrite map_filter_insert_False by done. by rewrite delete_id.
Qed.

Lemma live_count_replace m session_id s s' ip :
  sessions m !! session_id = Some s →
  (live ip (session_id, s') → live ip (session_id, s)) →
  size (filter (live ip) (<[session_id := s']> (sessions m))) ≤ live_count m ip.
Proof.
  intros Hs Himp. unfold live_count. destruct (decide (live ip (session_id, s'))) as [Hl|Hl].
  - rewrite map_filter_insert_True by done. rewrite map_size_insert_Some; [done|].
    exists s. apply map_lookup_filter_Some. split; [done|]. by apply Himp.
  - rewrite map_filter_insert_False by done. apply map_subseteq_size.
    apply map_filter_subseteq_mono, delete_subseteq.
Qed.

Lemma remove_sessions_shrinks ids : ∀ m m',
  remove_sessions m ids = Return m' →
  sessions m' ⊆ sessions m ∧ max_concurrent_per_ip m' = max_concurrent_per_ip m.
Proof.
  induction ids as [|id ids IH]; intros m m'; simpl; [by intros [= <-]|].
  destruct (remove_session m id) as [m1|e] eqn:H1; [|done]. intros Hr.
  destruct (IH _ _ Hr) as [Hsub Hcap]. unfold remove_session in H1.
  destruct (sessions m !! id) as [s|]; [|done]. injection H1 as <-. simpl in *.
  assert (∀ m0 : SessionManager,
            m0 = match ip_sessions m !! ip_address s with
                 | Some ids0 =>
                     if bool_decide (id ∈ ids0)
                     then set_ip_sessions m
                            (<[ip_address s := Sessions.list_remove id ids0]> (ip_sessions m))
                     else m
                 | None => m
                 end →
            sessions m0 = sessions m ∧ max_concurrent_per_ip m0 = max_concurrent_per_ip m)
    as Hsame.
  { intros m0 ->. destruct (ip_sessions m !! ip_address s); [destruct (bool_decide _)|]; done. }
  destruct (Hsame _ eq_refl) as [Hst Hmax]. rewrite Hst in Hsub. rewrite Hmax in Hcap.
  split; [|done]. etrans; [exact Hsub|apply delete_subseteq].
Qed.

(** The cap holds in a manager: no IP has more sessions in the store
    that are not in a terminal status than the cap allows. *)
Lemma cap_kept_by_call m c :
  tracking_ok m → covered m → orderly m c →
  (∀ ip, (Z.of_nat (live_count m ip) ≤ Z.max 0 (max_concurrent_per_ip m))%Z) →
  ∀ ip, (Z.of_nat (live_count (do_call m c) ip)
         ≤ Z.max 0 (max_concurrent_per_ip (do_call m c)))%Z.
Proof.
  intros Hok Hcov Hord Hcap ip'. specialize (Hcap ip').
  destruct c as [ip id now|id kwargs|id node|now]; simpl in *.
  - destruct (Z.le_gt_cases (max_concurrent_per_ip m) (Z.of_nat (active_count m ip)))
      as [Hfull|Hroom].
    + rewrite create_session_refused by done. cbn [snd].
      destruct (pruning_keeps_store m ip) as [Hst Hmax]. unfold live_count.
      by rewrite Hst, Hmax.
    + rewrite create_session_below_cap by lia. cbn [snd]. cbv zeta.
      destruct (pruning_keeps_store m ip) as [Hst Hmax]. unfold live_count at 1.
      cbn [sessions set_ip_sessions set_sessions max_concurrent_per_ip].
      rewrite Hst, Hmax, live_count_insert_fresh by done.
      destruct (decide (live ip' _)) as [[E _]|_]; [|simpl; lia].
      simpl in E. subst ip'. rewrite <- active_count_live by done. lia.
  - unfold update_session, get_session.
    destruct (sessions m !! id) as [s|] eqn:Hs; [|done]. simpl.
    destruct Hord as [Hip Hst]. destruct (setattr_frame s kwargs) as (_ & Hkeep & _).
    pose proof (live_count_replace m id s (foldl setattr s kwargs) ip' Hs) as Hle.
    unfold live_count in *. etrans; [|exact Hcap]. apply inj_le, Hle.
    intros [E Hl]. simpl in *. split; simpl; [by rewrite <- Hkeep|].
    intros Ht. by apply Hl, Hst.
  - unfold add_thought_node, get_session.
    destruct (sessions m !! id) as [s|] eqn:Hs; [|done]. simpl.
    pose proof (live_count_replace m id s (append_node s node) ip' Hs) as Hle.
    unfold live_count in *. etrans; [|exact Hcap]. apply inj_le, Hle. done.
  - unfold cleanup_old_sessions.
    destruct (remove_sessions m _) as [m'|e] eqn:Hr; [|done].
    destruct (remove_sessions_shrinks _ _ _ Hr) as [Hsub Hmax]. rewrite Hmax.
    etrans; [|exact Hcap]. apply inj_le. unfold live_count.
    by apply map_subseteq_size, map_filter_subseteq_mono.
Qed.

Lemma reachable_sound m :
  reachable m →
  tracking_ok m ∧ covered m ∧
  ∀ ip, (Z.of_nat (live_count m ip) ≤ Z.max 0 (max_concurrent_per_ip m))%Z.
Proof.
  induction 1 as [cap h|m c _ (Hok & Hcov & Hcap) Hord].
  - split_and!; [apply tracking_new|apply covered_new|].
    intros ip. unfold live_count. simpl. rewrite map_filter_empty, map_size_empty. lia.
  - split_and!; [by apply tracking_call|by apply covered_call|by apply cap_kept_by_call].
Qed.

Lemma busy_reachable : reachable Samples.busy.
Proof.
  apply (reachable_call _ (Create "10.0.0.1" "session_c" 2)).
  - apply (reachable_call _ (Create "10.0.0.1" "session_b" 1)).
    + apply (reachable_call _ (Create "10.0.0.1" "session_a" 0)); [apply reachable_new|].
      vm_compute; reflexivity.
    + vm_compute; reflexivity.
  - vm_compute; reflexivity.
Defined.

(** X16.  In every manager that orderly calls can reach from a new
    one - identifiers drawn fresh, no update of the IP address of a
    session, no session taken out of a terminal status - the IP
    tracking is sound: no list names a session twice, every session
    it names is in the store and belongs to the IP of the list, every
    session is stored under its own identifier, and every session
    that is not in a terminal status is in the list of its IP.  Hence
    the count held against the cap is the number of sessions of the
    IP in the store that are not in a terminal status. *)
Theorem tracking_sound_when_reachable m :
  reachable m →
  tracking_ok m ∧ covered m ∧
  ∀ ip, active_count m ip = live_count m ip.
Proof.
  intros Hr. destruct (reachable_sound m Hr) as (Hok & Hcov & _).
  split_and!; [done|done|]. intros ip. by apply active_count_live.
Qed.

Lemma tracking_sound_when_reachable_witness :
  reachable Samples.busy ∧
  tracking_ok Samples.busy ∧ covered Samples.busy ∧
  ∀ ip, active_count Samples.busy ip = live_count Samples.busy ip.
Proof.
  split; [exact busy_reachable|].
  exact (tracking_sound_when_reachable Samples.busy busy_reachable).
Defined.

Lemma swept_session_is_unknown_witness :
  ∃ m',
    cleanup_old_sessions Samples.finished 7200000000 = Return (1, m') ∧
    get_session Samples.finished "session_a" = Some Samples.finished_session ∧
    expired Samples.finished 7200000000 Samples.finished_session ∧
    get_session m' "session_a" = None ∧
    (∀ kwargs, update_session m' "session_a" kwargs = m') ∧
    (∀ thought_node, add_thought_node m' "session_a" thought_node = m').
Proof.
  eexists.
  assert (get_session Samples.finished "session_a" = Some Samples.finished_session) as Hs
    by (vm_compute; reflexivity).
  assert (expired Samples.finished 7200000000 Samples.finished_session) as He
    by (vm_compute; reflexivity).
  split; [vm_compute; reflexivity|]. split; [exact Hs|]. split; [exact He|].
  apply (swept_session_is_unknown Samples.finished 7200000000 1 _ "session_a"
           Samples.finished_session); [vm_compute; reflexivity|exact Hs|exact He].
Defined.

(** X17.  The status breakdown counts, for every status, exactly the
    sessions of the store that are in it; a status that no session is
    in has no entry. *)
Theorem status_breakdown_counts m st :
  default 0 (_get_status_breakdown m !! st)
    = size (filter (λ kv, status kv.2 = st) (sessions m)) ∧
  _get_status_breakdown m !! st ≠ Some 0.
Proof.
  unfold _get_status_breakdown.
  apply (map_fold_weak_ind
           (λ r (ss : gmap string Session),
              default 0 (r !! st) = size (filter (λ kv, status kv.2 = st) ss)
              ∧ r !! st ≠ Some 0)).
  - rewrite lookup_empty, map_filter_empty, map_size_empty. by split.
  - intros i x ss r Hi [Hcount Hnz].
    destruct (decide (status x = st)) as [E|E].
    + rewrite E, lookup_insert_eq. simpl.
      rewrite map_filter_insert_True by done.
      rewrite map_size_insert_None by (by rewrite map_lookup_filter, Hi).
      split; [lia|]. intros [=]. lia.
    + rewrite lookup_insert_ne by done.
      rewrite map_filter_insert_False by done. by rewrite delete_id.
Qed.

Lemma len_take n s : Py.len (Py.take n s) ≤ n.
Proof.
  revert s. induction n as [|n IH]; intros [|c s]; simpl; try lia.
  unfold Py.len in *. simpl. specialize (IH s). lia.
Qed.

Lemma len_app s t : Py.len (s +:+ t) = Py.len s + Py.len t.
Proof.
  unfold Py.len. induction s as [|c s IH]; [done|]. rewrite string_app_cons. simpl. lia.
Qed.

(** X18.  The dictionary of a session shows its problem text whole
    when it has at most 100 characters, and else its first 100
    characters followed by three dots: never more than 103
    characters. *)
Theorem to_dict_truncates s :
  ∃ shown,
    to_dict s !! 5 = Some ("problem_text", JStr shown) ∧
    Py.len shown ≤ 103 ∧
    (Py.len (problem_text s) ≤ 100 → shown = problem_text s) ∧
    (100 < Py.len (problem_text s) → shown = Py.take 100 (problem_text s) +:+ "...").
Proof.
  eexists. split; [reflexivity|].
  destruct (Nat.ltb_spec 100 (Py.len (problem_text s))) as [Hlong|Hshort].
  - split_and!; [|lia|done]. rewrite len_app. pose proof (len_take 100 (problem_text s)).
    change (Py.len "...") with 3. lia.
  - split_and!; [lia|done|lia].
Qed.

End sessions_reachable.

(** ** The rate limit *)

Section rate_limit.
Import Model Exn Sessions Inv SessionViews.

(** C3, as stated, fails.  The manager [revived], under a cap of one,
    holds one session of the client that is not in a terminal status:
    the session that was completed, dropped from the list of the
    client, and set back to streaming.  [create_session] does not
    count it, and grants the client a second session that is not in a
    terminal status. *)
Lemma live_session_not_counted :
  max_concurrent_per_ip revived = 1%Z ∧
  live_count revived "10.0.0.1" = 1 ∧
  ∃ m',
    create_session revived "10.0.0.1" "session_c" 2
    = (Return (new_session "session_c" "10.0.0.1" 2), m') ∧
    live_count m' "10.0.0.1" = 2.
Proof.
  split; [reflexivity|]. split; [vm_compute; reflexivity|].
  eexists. split; vm_compute; reflexivity.
Qed.

(** So it is with a session that was given another address: the
    list of that address does not name it. *)
Lemma moved_session_not_counted :
  max_concurrent_per_ip moved = 1%Z ∧
  live_count moved "10.0.0.2" = 1 ∧
  ∃ m',
    create_session moved "10.0.0.2" "session_b" 1
    = (Return (new_session "session_b" "10.0.0.2" 1), m') ∧
    live_count m' "10.0.0.2" = 2.
Proof.
  split; [reflexivity|]. split; [vm_compute; reflexivity|].
  eexists. split; vm_compute; reflexivity.
Qed.

Lemma create_session_raises m ip session_id now e m' :
  create_session m ip session_id now = (Raise e, m') →
  e = Exception (rate_limit_message (max_concurrent_per_ip m)).
Proof.
  unfold create_session. destruct (pruning_keeps_store m ip) as [_ Hmax].
  destruct (_get_active_sessions_for_ip m ip) as [active m1]. simpl in *.
  destruct (_ <=? _)%Z; [|done]. intros [= <- _]. by rewrite Hmax.
Qed.

(** C3, amended.  In every manager that orderly calls can reach from
    a new one, when the sessions of a client in the store that are
    not in a terminal status are as many as the cap, or more,
    [create_session] raises the builtin [Exception] with the
    rate-limit message, which names the configured cap, and leaves
    the session store as it was; when they are fewer it creates the
    session.  Hence no client ever has more such sessions than the
    cap: under a cap of three, a fourth is never created.  The
    exception has no class of its own: it is the only one that
    [create_session] raises, and its caller tells it from another
    failure by the words of its message alone, answering 429 exactly
    when the message contains them. *)
Theorem create_session_rate_limit :
  (∀ m ip session_id now,
     reachable m →
     (max_concurrent_per_ip m ≤ Z.of_nat (live_count m ip))%Z →
     ∃ m',
       create_session m ip session_id now
       = (Raise (Exception ("Rate limit exceeded: Maximum "
                            +:+ pretty (max_concurrent_per_ip m)
                            +:+ " concurrent sessions per IP")), m') ∧
       sessions m' = sessions m) ∧
  (∀ m ip session_id now,
     reachable m →
     (Z.of_nat (live_count m ip) < max_concurrent_per_ip m)%Z →
     ∃ m', create_session m ip session_id now
           = (Return (new_session session_id ip now), m')) ∧
  (∀ m ip,
     reachable m →
     (Z.of_nat (live_count m ip) ≤ Z.max 0 (max_concurrent_per_ip m))%Z) ∧
  (∀ m ip session_id now e m',
     create_session m ip session_id now = (Raise e, m') →
     e = Exception (rate_limit_message (max_concurrent_per_ip m)) ∧
     http_status_of e = 429) ∧
  (∀ e, http_status_of e = 429 ↔ Py.contains "Rate limit" (Exn.str e) = true).
Proof.
  split_and!.
  - intros m ip session_id now Hr Hcap.
    destruct (reachable_sound m Hr) as (Hok & Hcov & _).
    rewrite <- active_count_live in Hcap by done.
    exists (_get_active_sessions_for_ip m ip).2.
    split; [by apply create_session_refused|apply pruning_keeps_store].
  - intros m ip session_id now Hr Hcap.
    destruct (reachable_sound m Hr) as (Hok & Hcov & _).
    rewrite <- active_count_live in Hcap by done.
    eexists. by apply create_session_below_cap.
  - intros m ip Hr. by apply reachable_sound.
  - intros m ip session_id now e m' ->%create_session_raises.
    split; [done|apply rate_limit_status].
  - intros e. unfold http_status_of. by destruct (Py.contains _ _).
Qed.

Lemma create_session_rate_limit_witness :
  reachable Samples.busy ∧
  (max_concurrent_per_ip Samples.busy ≤ Z.of_nat (live_count Samples.busy "10.0.0.1"))%Z ∧
  ∃ m',
    create_session Samples.busy "10.0.0.1" "session_d" 3
    = (Raise (Exception ("Rate limit exceeded: Maximum "
                         +:+ pretty (max_concurrent_per_ip Samples.busy)
                         +:+ " concurrent sessions per IP")), m') ∧
    sessions m' = sessions Samples.busy.
Proof.
  assert ((max_concurrent_per_ip Samples.busy
           ≤ Z.of_nat (live_count Samples.busy "10.0.0.1"))%Z) as H
    by (vm_compute; discriminate).
  split; [exact busy_reachable|]. split; [exact H|].
  exact (proj1 create_session_rate_limit Samples.busy "10.0.0.1" "session_d" 3%Z
           busy_reachable H).
Defined.

End rate_limit.

(** ** The connection registry *)

Section registry.
Import Model WS Connections.

Lemma no_empty_new : no_empty_list new_manager.
Proof. intros sid. unfold new_manager. simpl. by rewrite lookup_empty. Qed.

Lemma no_empty_connect fails m session_id websocket now :
  no_empty_list m → no_empty_list (connect fails m session_id websocket now).2.
Proof.
  intros Hm sid. unfold connect. simpl.
  destruct (decide (sid = session_id)) as [->|Hne].
  - rewrite lookup_insert_eq. intros [= H]. by destruct (default [] _).
  - rewrite lookup_insert_ne by done. apply Hm.
Qed.

Lemma no_empty_disconnect m session_id websocket :
  no_empty_list m → no_empty_list (disconnect m session_id websocket).
Proof.
  intros Hm sid. unfold disconnect.
  destruct (active_connections m !! session_id) as [conns|] eqn:Hc; [|apply Hm].
  destruct (if bool_decide _ then _ else _) as [|c l]; simpl.
  - destruct (decide (sid = session_id)) as [->|Hne].
    + by rewrite lookup_delete_eq.
    + rewrite lookup_delete_ne by done. apply Hm.
  - destruct (decide (sid = session_id)) as [->|Hne].
    + by rewrite lookup_insert_eq.
    + rewrite lookup_insert_ne by done. apply Hm.
Qed.

Lemma no_empty_broadcast fails m session_id event_type data now :
  no_empty_list m → no_empty_list (broadcast fails m session_id event_type data now).2.
Proof.
  intros Hm. unfold broadcast.
  destruct (active_connections m !! session_id) as [conns|]; [|done].
  destruct (foldl _ _ conns) as [sent disconnected]. simpl.
  clear sent conns. revert m Hm.
  induction disconnected as [|c l IH]; intros m Hm; simpl; [done|].
  by apply IH, no_empty_disconnect.
Qed.

Lemma no_empty_call m c : no_empty_list m → no_empty_list (do_call m c).2.
Proof.
  intros Hm. destruct c as [fails [sid ws|sid d|sid d|sid d|sid msg ty] now|sid ws];
    unfold do_call, do_send, broadcast_new_thought, broadcast_thinking_complete,
      broadcast_solution_ready, broadcast_error; cbn [snd].
  - by apply no_empty_connect.
  - by apply no_empty_broadcast.
  - by apply no_empty_broadcast.
  - by apply no_empty_broadcast.
  - by apply no_empty_broadcast.
  - by apply no_empty_disconnect.
Qed.

Lemma no_empty_calls calls : ∀ m, no_empty_list m → no_empty_list (do_calls m calls).
Proof.
  unfold do_calls. induction calls as [|c calls IH]; intros m Hm; simpl; [done|].
  by apply IH, no_empty_call.
Qed.

(** X19.  In every registry that calls can reach from the empty one,
    no session is registered with an empty list of connections: a
    session is registered exactly when it has a connection, which is
    what [has_connections] answers, and a count of zero means that
    the session is not registered. *)
Theorem registry_has_no_empty_list calls session_id :
  let m := do_calls new_manager calls in
  active_connections m !! session_id ≠ Some [] ∧
  (has_connections m session_id = true ↔ is_Some (active_connections m !! session_id)) ∧
  (get_connection_count m session_id = 0 ↔ active_connections m !! session_id = None).
Proof.
  intros m. pose proof (no_empty_calls calls new_manager no_empty_new session_id) as Hm.
  fold m in Hm. split; [done|].
  unfold has_connections, get_connection_count.
  destruct (active_connections m !! session_id) as [[|c l]|]; simpl.
  - done.
  - split; [split; [by eexists|done]|split; [lia|done]].
  - split; [split; [done|by intros [? ?]]|done].
Qed.

Lemma list_remove_snoc x l : x ∉ l → list_remove x (l ++ [x]) = l.
Proof. intros H. by rewrite list_remove_middle, app_nil_r. Qed.

Lemma manager_eq m m' : active_connections m = active_connections m' → m = m'.
Proof. destruct m, m'. simpl. by intros ->. Qed.

(** X20.  The WebSocket endpoint leaves a registry without empty
    lists as it found it, when the connection it serves was not
    registered for the session before: registering and removing
    cancel.  All the endpoint sends is the acknowledgment, to its own
    connection. *)
Theorem endpoint_round_trip fails m session_id websocket now :
  no_empty_list m →
  websocket ∉ subscribers m session_id →
  (websocket_endpoint fails m session_id websocket now).2 = m ∧
  ∀ d, d ∈ (websocket_endpoint fails m session_id websocket now).1 →
       d = (websocket, connected_message session_id now).
Proof.
  intros Hm Hnew. unfold websocket_endpoint, connect. cbv zeta. cbn [snd fst]. split.
  - apply manager_eq. unfold disconnect. cbn [active_connections].
    rewrite lookup_insert_eq.
    rewrite bool_decide_eq_true_2 by (apply elem_of_app; right; apply list_elem_of_here).
    fold (subscribers m session_id). rewrite list_remove_snoc by done.
    unfold subscribers in *.
    destruct (active_connections m !! session_id) as [[|c l]|] eqn:Hc; simpl.
    + by destruct (Hm session_id).
    + by rewrite insert_insert_eq, insert_id.
    + by rewrite delete_insert_eq, delete_id.
  - intros d. unfold send_personal_message. destruct (fails websocket).
    + by intros ?%elem_of_nil.
    + by intros ->%list_elem_of_singleton.
Qed.

Lemma endpoint_round_trip_witness :
  no_empty_list Samples.two_subscribers ∧
  ({| ws_id := 7 |} ∉ subscribers Samples.two_subscribers "session_a") ∧
  (websocket_endpoint Samples.fails Samples.two_subscribers "session_a" {| ws_id := 7 |} 5).2
  = Samples.two_subscribers ∧
  ∀ d, d ∈ (websocket_endpoint Samples.fails Samples.two_subscribers "session_a"
              {| ws_id := 7 |} 5).1 →
       d = ({| ws_id := 7 |}, connected_message "session_a" 5).
Proof.
  assert (no_empty_list Samples.two_subscribers) as Hm.
  { unfold Samples.two_subscribers. by apply no_empty_connect, no_empty_connect, no_empty_new. }
  assert ({| ws_id := 7 |} ∉ subscribers Samples.two_subscribers "session_a") as Hnew.
  { apply (proj1 (bool_decide_eq_false _)). vm_compute. reflexivity. }
  split; [exact Hm|]. split; [exact Hnew|].
  exact (endpoint_round_trip Samples.fails Samples.two_subscribers "session_a"
           {| ws_id := 7 |} 5%Z Hm Hnew).
Defined.

Lemma filter_healthy_settled (fails : WebSocket → bool) l :
  List.filter fails (List.filter (λ c, negb (fails c)) l) = [] ∧
  List.filter (λ c, negb (fails c)) (List.filter (λ c, negb (fails c)) l)
  = List.filter (λ c, negb (fails c)) l.
Proof.
  induction l as [|c l [IH1 IH2]]; [done|]. simpl.
  destruct (fails c) eqn:Hc; simpl; [done|]. rewrite Hc. simpl. by rewrite IH2.
Qed.

(** X21.  A broadcast settles the session: a second broadcast with
    the same failing connections, right after it, delivers its event
    to every subscriber the first one left, once each and in the
    order of registration, and changes nothing in the registry. *)
Theorem broadcast_settles fails m session_id event_type data now event_type' data' now' :
  let m' := (broadcast fails m session_id event_type data now).2 in
  broadcast fails m' session_id event_type' data' now'
  = ((λ c, (c, event_message session_id event_type' data' now')) <$> subscribers m' session_id,
     m').
Proof.
  intros m'.
  assert (∃ l, subscribers m' session_id = List.filter (λ c, negb (fails c)) l) as [l Hl].
  { subst m'. destruct (active_connections m !! session_id) as [conns|] eqn:Hc.
    - destruct (broadcast_spec fails m session_id event_type data now conns Hc)
        as (m1 & -> & Hsub & _). by exists conns.
    - exists []. unfold broadcast, subscribers. by rewrite Hc; simpl; rewrite Hc. }
  unfold broadcast at 1. unfold subscribers in *.
  destruct (active_connections m' !! session_id) as [conns'|]; [|done].
  simpl in Hl. rewrite send_loop, Hl.
  destruct (filter_healthy_settled fails l) as [-> ->]. done.
Qed.

Lemma length_list_remove x l :
  length (list_remove x l) = length l - (if bool_decide (x ∈ l) then 1 else 0).
Proof.
  induction l as [|y l IH]; [done|]. simpl.
  destruct (decide (x = y)) as [->|Hne].
  - rewrite bool_decide_eq_true_2 by apply list_elem_of_here. lia.
  - cbn [length]. rewrite IH. destruct (bool_decide_reflect (x ∈ l)) as [Hin|Hnin].
    + rewrite bool_decide_eq_true_2 by (by apply list_elem_of_further).
      destruct l; [by apply elem_of_nil in Hin|simpl; lia].
    + rewrite bool_decide_eq_false_2; [lia|].
      by intros [?|?]%elem_of_cons.
Qed.

(** X22.  Registering a connection raises the count of its session by
    one, also when the connection is registered there already;
    removing a connection lowers the count by one when the connection
    is registered and leaves it otherwise, so that a connection
    registered twice stays registered after one removal.  Neither
    touches the count of another session. *)
Theorem connection_count_steps fails m session_id websocket now other :
  get_connection_count (connect fails m session_id websocket now).2 session_id
  = S (get_connection_count m session_id) ∧
  get_connection_count (disconnect m session_id websocket) session_id
  = get_connection_count m session_id
    - (if bool_decide (websocket ∈ subscribers m session_id) then 1 else 0) ∧
  (other ≠ session_id →
   get_connection_count (connect fails m session_id websocket now).2 other
   = get_connection_count m other ∧
   get_connection_count (disconnect m session_id websocket) other
   = get_connection_count m other).
Proof.
  split_and!.
  - unfold get_connection_count, connect. simpl. rewrite lookup_insert_eq. simpl.
    rewrite length_app. simpl. lia.
  - pose proof (disconnect_subscribers m session_id websocket) as H.
    unfold get_connection_count. unfold subscribers in *. rewrite H.
    apply length_list_remove.
  - intros Hne. unfold get_connection_count. rewrite disconnect_other by done.
    unfold connect. simpl. by rewrite lookup_insert_ne.
Qed.

End registry.

(** ** One analysis *)

Section analysis_stage.
Import Model Parser Exn Sessions WS Analysis.
Variable fails : WebSocket → bool.
Variable clock : nat → Z.
Variable stamp : ThoughtNode → Z.
Variable m : SessionManager.
Variable sid : string.
Variable to : list WebSocket.
Variable before : list delivery.

Lemma set_sessions_id m0 : set_sessions m0 (sessions m0) = m0.
Proof. by destruct m0. Qed.

Lemma stored_self : stored m sid (get_session m sid) = m.
Proof.
  unfold stored, get_session. destruct (sessions m !! sid) as [s|] eqn:Hs; [|done].
  by rewrite insert_id, set_sessions_id.
Qed.

Lemma stored_get os :
  (os = None → get_session m sid = None) → get_session (stored m sid os) sid = os.
Proof.
  destruct os as [s|]; simpl; [intros _|by intros ->].
  unfold get_session. simpl. by rewrite lookup_insert_eq.
Qed.

Lemma stored_other os other :
  other ≠ sid → get_session (stored m sid os) other = get_session m other.
Proof.
  intros Hne. destruct os as [s|]; [|done]. unfold get_session. simpl.
  by rewrite lookup_insert_ne.
Qed.

Lemma stored_update os kwargs :
  (os = None → get_session m sid = None) →
  update_session (stored m sid os) sid kwargs
  = stored m sid ((λ s, foldl setattr s kwargs) <$> os).
Proof.
  intros Hos. unfold update_session. rewrite stored_get by done.
  destruct os as [s|]; [|done]. unfold stored, set_sessions. cbn [fmap option_fmap option_map
    sessions ip_sessions max_concurrent_per_ip cleanup_hours].
  by rewrite insert_insert_eq.
Qed.

Lemma stored_add os thought_node :
  (os = None → get_session m sid = None) →
  add_thought_node (stored m sid os) sid thought_node
  = stored m sid ((λ s, append_node s thought_node) <$> os).
Proof.
  intros Hos. unfold add_thought_node. rewrite stored_get by done.
  destruct os as [s|]; [|done]. unfold stored, set_sessions. cbn [fmap option_fmap option_map
    sessions ip_sessions max_concurrent_per_ip cleanup_hours].
  by rewrite insert_insert_eq.
Qed.

Lemma advance_nil s : advance s [] None = s.
Proof. destruct s. unfold advance. simpl. by rewrite app_nil_r. Qed.

Lemma advance_append s nodes tokens d :
  append_node (advance s nodes tokens) d = advance s (nodes ++ [d]) tokens.
Proof. unfold append_node, advance. simpl. by rewrite app_assoc. Qed.

Lemma aired_refl : aired sid to before before [].
Proof. exists []. split; [constructor|]. simpl. by rewrite app_nil_r. Qed.

Lemma aired_snoc after events message e :
  aired sid to before after events →
  carries sid message e →
  aired sid to before (after ++ ((λ c, (c, message)) <$> to)) (events ++ [e]).
Proof.
  intros (messages & HF & ->) He. exists (messages ++ [message]). split.
  - apply Forall2_app; [done|]. by constructor.
  - rewrite bind_app. simpl. by rewrite app_nil_r, app_assoc.
Qed.

(** What one broadcast does to the world. *)
Lemma broadcast_event_spec w event_type data :
  let w' := broadcast_event fails clock w sid event_type data in
  session_manager w' = session_manager w ∧
  listeners fails w' sid = listeners fails w sid ∧
  sent w' = sent w ++ ((λ c, (c, event_message sid event_type (PDict data) (clock (reads w))))
                         <$> listeners fails w sid).
Proof.
  unfold broadcast_event, listeners, subscribers.
  destruct (active_connections (websocket_manager w) !! sid) as [conns|] eqn:Hc.
  - cbn [utcnow websocket_manager session_manager reads sent default].
    destruct (broadcast_spec fails (websocket_manager w) sid event_type (PDict data)
                (clock (reads w)) conns Hc) as (m' & -> & Hsub & _).
    cbn [websocket_manager session_manager reads sent].
    unfold subscribers in Hsub. rewrite Hsub.
    by destruct (filter_healthy_settled fails conns) as [_ ->].
  - simpl. rewrite Hc. simpl. by rewrite app_nil_r.
Qed.

Lemma stage_broadcast w os events event_type data :
  at_stage fails m sid to before w os events →
  at_stage fails m sid to before (broadcast_event fails clock w sid event_type data) os
    (events ++ [(event_type, data)]).
Proof.
  intros (Hm & Hto & Hair).
  destruct (broadcast_event_spec w event_type data) as (Hm' & Hto' & Hsent).
  split_and!.
  - by rewrite Hm'.
  - by rewrite Hto'.
  - rewrite Hsent, Hto. apply aired_snoc; [done|]. by eexists.
Qed.

Lemma stage_sessions w os os' events m' :
  at_stage fails m sid to before w os events →
  m' = stored m sid os' →
  at_stage fails m sid to before (with_sessions w m') os' events.
Proof. by intros (Hm & Hto & Hair) ->. Qed.

Lemma stage_update w os events kwargs :
  (os = None → get_session m sid = None) →
  at_stage fails m sid to before w os events →
  at_stage fails m sid to before
    (with_sessions w (update_session (session_manager w) sid kwargs))
    ((λ s, foldl setattr s kwargs) <$> os) events.
Proof.
  intros Hos Hst. eapply stage_sessions; [done|].
  destruct Hst as (-> & _). by apply stored_update.
Qed.

Lemma stage_utcnow w os events :
  at_stage fails m sid to before w os events →
  at_stage fails m sid to before (utcnow clock w).2 os events.
Proof. done. Qed.

Lemma stage_ext w os os' events :
  os = os' →
  at_stage fails m sid to before w os events →
  at_stage fails m sid to before w os' events.
Proof. by intros ->. Qed.

Lemma stage_publish w os events nodes tokens node :
  (os = None → get_session m sid = None) →
  at_stage fails m sid to before w ((λ s, advance s nodes tokens) <$> os) events →
  at_stage fails m sid to before (publish fails clock stamp sid w node)
    ((λ s, advance s (nodes ++ [model_dump (stamp node) node]) tokens) <$> os)
    (events ++ [("new_thought", model_dump (stamp node) node)]).
Proof.
  intros Hos Hst. unfold publish. apply stage_broadcast.
  eapply stage_sessions; [done|]. destruct Hst as (-> & _).
  rewrite stored_add by (by destruct os; [|intros _; apply Hos]).
  f_equal. destruct os as [s|]; [|done]. simpl. by rewrite advance_append.
Qed.

Lemma stage_publish_all out : ∀ w os events nodes tokens,
  (os = None → get_session m sid = None) →
  at_stage fails m sid to before w ((λ s, advance s nodes tokens) <$> os) events →
  at_stage fails m sid to before (foldl (publish fails clock stamp sid) w out)
    ((λ s, advance s (nodes ++ ((λ n, model_dump (stamp n) n) <$> out)) tokens) <$> os)
    (events ++ ((λ n, ("new_thought", model_dump (stamp n) n)) <$> out)).
Proof.
  induction out as [|node out IH]; intros w os events nodes tokens Hos Hst; simpl.
  - by rewrite !app_nil_r.
  - rewrite (cons_middle _ nodes), (cons_middle _ events), !app_assoc.
    apply IH; [done|]. by apply stage_publish.
Qed.

(** The loop over the events of the stream. *)
Lemma event_loop events : ∀ acc p w os evs nodes tokens,
  (os = None → get_session m sid = None) →
  at_stage fails m sid to before w ((λ s, advance s nodes tokens) <$> os) evs →
  ∃ w',
    foldl (on_event fails clock stamp sid) (acc, p, w) events
    = (acc +:+ solution_of events, (feed_all p (thinking_of events)).2, w') ∧
    at_stage fails m sid to before w'
      ((λ s, advance s (nodes ++ ((λ n, model_dump (stamp n) n)
                                    <$> (feed_all p (thinking_of events)).1))
                     (usage_of tokens events)) <$> os)
      (evs ++ ((λ n, ("new_thought", model_dump (stamp n) n))
                 <$> (feed_all p (thinking_of events)).1)).
Proof.
  induction events as [|e events IH]; intros acc p w os evs nodes tokens Hos Hst.
  - exists w. simpl. by rewrite string_app_nil_r, !app_nil_r.
  - destruct e as [chunk|chunk|[u|]|].
    + change (thinking_of (ThinkingDelta chunk :: events))
        with (chunk :: thinking_of events).
      cbn [foldl on_event feed_all solution_of]. unfold on_thinking_chunk.
      destruct (parse_incremental p chunk) as [out p1]. cbv beta iota zeta.
      pose proof (stage_publish_all out _ _ _ _ _ Hos Hst) as Hst1.
      destruct (IH acc p1 _ os _ _ tokens Hos Hst1) as (w' & Heq & Hst').
      rewrite Heq.
      exists w'. destruct (feed_all p1 (thinking_of events)) as [out' p2].
      cbn [fst snd] in *. split; [done|]. by rewrite fmap_app, fmap_app, !app_assoc.
    + change (thinking_of (TextDelta chunk :: events)) with (thinking_of events).
      cbn [foldl on_event solution_of].
      destruct (IH (acc +:+ chunk) p w os evs nodes tokens Hos Hst)
        as (w' & -> & Hst').
      exists w'. by rewrite string_app_assoc.
    + change (thinking_of (MessageDelta (Some u) :: events)) with (thinking_of events).
      cbn [foldl on_event solution_of]. unfold on_token_usage.
      assert (at_stage fails m sid to before
                (with_sessions w (update_session (session_manager w) sid [kw_tokens_used u]))
                ((λ s, advance s nodes (Some u)) <$> os) evs) as Hst1.
      { apply (stage_ext _ ((λ s, foldl setattr s [kw_tokens_used u])
                              <$> ((λ s, advance s nodes tokens) <$> os))).
        - by destruct os.
        - apply stage_update; [|done]. by destruct os; [|intros _; apply Hos]. }
      destruct (IH acc p _ os evs nodes (Some u) Hos Hst1) as (w' & -> & Hst').
      by exists w'.
    + change (thinking_of (MessageDelta None :: events)) with (thinking_of events).
      cbn [foldl on_event solution_of].
      exact (IH acc p w os evs nodes tokens Hos Hst).
    + change (thinking_of (OtherEvent :: events)) with (thinking_of events).
      cbn [foldl on_event solution_of].
      exact (IH acc p w os evs nodes tokens Hos Hst).
Qed.

End analysis_stage.

Section analysis_run.
Import Model Parser Exn Sessions WS Analysis.
Variable fails : WebSocket → bool.
Variable clock : nat → Z.
Variable stamp : ThoughtNode → Z.
Variable sid : string.

(** The world at the end of an analysis whose stream ends with its
    final message. *)
Lemma run_stage_completed problem events output_tokens w os :
  os = get_session (session_manager w) sid →
  let nodes := (λ n, model_dump (stamp n) n) <$> run sid (thinking_of events) in
  let total := from_option (λ s, length (thought_nodes s ++ nodes)) 0 os in
  ∃ duration,
    at_stage fails (session_manager w) sid (listeners fails w sid) (sent w)
      (run_analysis fails clock stamp sid problem events (FinalMessage output_tokens) w)
      ((λ s, completed s problem (solution_of events) nodes output_tokens) <$> os)
      (((λ d, ("new_thought", d)) <$> nodes)
       ++ ("thinking_complete", summary total output_tokens duration)
          :: (if bool_decide (solution_of events = "") then []
              else [("solution_ready", solution (solution_of events) total)])).
Proof.
  intros Hos nodes total.
  set (m := session_manager w) in *.
  set (to := listeners fails w sid). set (before := sent w).
  assert (∀ f : Session → Session, f <$> os = None → get_session m sid = None) as Hunk.
  { intros f E. rewrite <- Hos. by destruct os. }
  assert (at_stage fails m sid to before w os []) as H0.
  { split_and!; [|done|apply aired_refl]. subst os m. symmetry. apply stored_self. }
  apply (stage_update fails m sid to before w os [] [kw_status "streaming"; kw_problem_text problem])
    in H0; [|intros E; apply (Hunk (λ s, s)); by rewrite E].
  unfold run_analysis. fold m.
  set (w1 := with_sessions w _) in *.
  apply (stage_utcnow fails clock) in H0.
  destruct (utcnow clock w1) as [start_time w2]. cbn [snd] in H0.
  set (os1 := _ <$> os) in H0.
  apply (stage_ext _ _ _ _ _ _ _ ((λ s, advance s [] None) <$> os1)) in H0;
    [|subst os1; destruct os as [s|]; [|done]; simpl; by rewrite advance_nil].
  destruct (event_loop fails clock stamp m sid to before events "" (init sid) w2 os1 []
              [] None (Hunk _) H0) as (w3 & Heq & H3).
  unfold analyze_problem. rewrite Heq. clear Heq H0.
  change ("" +:+ solution_of events) with (solution_of events).
  subst nodes. unfold run in *.
  destruct (feed_all (init sid) (thinking_of events)) as [out p']. cbn [fst snd] in *.
  cbv beta iota zeta.
  set (w4 := if bool_decide (solution_of events = "") then w3 else _).
  set (os3 := _ <$> os1) in H3.
  assert (at_stage fails m sid to before w4
            ((λ s, if bool_decide (solution_of events = "") then s
                   else foldl setattr s [kw_solution_text (solution_of events)]) <$> os3)
            ([] ++ ((λ n, ("new_thought", model_dump (stamp n) n)) <$> out))) as H4.
  { subst w4. destruct (bool_decide (solution_of events = "")).
    - eapply stage_ext; [|exact H3]. by destruct os3.
    - apply stage_update; [|done]. subst os3 os1. rewrite <- !option_fmap_compose.
      apply Hunk. }
  clearbody w4. clear H3. set (os4 := _ <$> os3) in H4.
  destruct (finalize p') as [fin p''].
  apply (stage_ext _ _ _ _ _ _ _ ((λ s, advance s [] None) <$> os4)) in H4;
    [|destruct os4 as [s|]; [|done]; simpl; by rewrite advance_nil].
  apply (stage_publish_all fails clock stamp m sid to before fin) in H4;
    [|subst os4 os3 os1; rewrite <- !option_fmap_compose; apply Hunk].
  set (w5 := foldl _ w4 fin) in *.
  apply (stage_utcnow fails clock) in H4.
  destruct (utcnow clock w5) as [end_time w6]. cbn [snd] in H4.
  set (os5 := _ <$> os4) in H4.
  apply (stage_update fails m sid to before w6 os5 _
           [kw_status "completed"; kw_tokens_used output_tokens]) in H4;
    [|subst os5 os4 os3 os1; rewrite <- !option_fmap_compose; apply Hunk].
  set (w7 := with_sessions w6 _) in *.
  assert ((λ s, foldl setattr s [kw_status "completed"; kw_tokens_used output_tokens]) <$> os5
          = (λ s, completed s problem (solution_of events)
                    ((λ n, model_dump (stamp n) n) <$> out ++ fin) output_tokens) <$> os) as Hfinal.
  { subst os5 os4 os3 os1. destruct os as [s|]; [|done]. simpl. f_equal.
    unfold completed, advance. rewrite fmap_app.
    destruct (bool_decide (solution_of events = "")); simpl; by rewrite <- !app_assoc. }
  rewrite Hfinal in H4. clear Hfinal.
  assert (thought_count (session_manager w7) sid = total) as ->.
  { unfold thought_count. destruct H4 as (-> & _). rewrite stored_get by apply Hunk.
    subst total. by destruct os. }
  eexists.
  apply (stage_broadcast fails clock m sid to before w7 _ _ "thinking_complete"
           (summary total output_tokens (inject_Z (end_time - start_time) / 1000000))) in H4.
  simpl in H4. rewrite <- fmap_app in H4.
  destruct (bool_decide (solution_of events = "")).
  - rewrite <- list_fmap_compose. exact H4.
  - apply (stage_broadcast fails clock m sid to before _ _ _ "solution_ready"
             (solution (solution_of events) total)) in H4.
    rewrite <- app_assoc in H4. rewrite <- list_fmap_compose. exact H4.
Qed.

(** The world at the end of an analysis whose stream raises. *)
Lemma run_stage_failed problem events e w os :
  os = get_session (session_manager w) sid →
  let nodes := (λ n, model_dump (stamp n) n) <$> (feed_all (init sid) (thinking_of events)).1 in
  let error_msg := "Anthropic API error: " +:+ Exn.str e in
  at_stage fails (session_manager w) sid (listeners fails w sid) (sent w)
    (run_analysis fails clock stamp sid problem events (StreamRaises e) w)
    ((λ s, failed s problem error_msg nodes (usage_of None events)) <$> os)
    (((λ d, ("new_thought", d)) <$> nodes)
     ++ [("error", error error_msg "api_error"); ("error", error error_msg "analysis_error")]).
Proof.
  intros Hos nodes error_msg.
  set (m := session_manager w) in *.
  set (to := listeners fails w sid). set (before := sent w).
  assert (∀ f : Session → Session, f <$> os = None → get_session m sid = None) as Hunk.
  { intros f E. rewrite <- Hos. by destruct os. }
  assert (at_stage fails m sid to before w os []) as H0.
  { split_and!; [|done|apply aired_refl]. subst os m. symmetry. apply stored_self. }
  apply (stage_update fails m sid to before w os [] [kw_status "streaming"; kw_problem_text problem])
    in H0; [|intros E; apply (Hunk (λ s, s)); by rewrite E].
  unfold run_analysis. fold m.
  set (w1 := with_sessions w _) in *.
  apply (stage_utcnow fails clock) in H0.
  destruct (utcnow clock w1) as [start_time w2]. cbn [snd] in H0.
  set (os1 := _ <$> os) in H0.
  apply (stage_ext _ _ _ _ _ _ _ ((λ s, advance s [] None) <$> os1)) in H0;
    [|subst os1; destruct os as [s|]; [|done]; simpl; by rewrite advance_nil].
  destruct (event_loop fails clock stamp m sid to before events "" (init sid) w2 os1 []
              [] None (Hunk _) H0) as (w3 & Heq & H3).
  unfold analyze_problem. rewrite Heq. clear Heq H0.
  subst nodes.
  destruct (feed_all (init sid) (thinking_of events)) as [out p']. cbn [fst snd] in *.
  cbv beta iota zeta. fold error_msg. unfold on_error.
  change (Exn.str (Exception error_msg)) with error_msg.
  set (os3 := _ <$> os1) in H3.
  apply (stage_broadcast fails clock m sid to before w3 _ _ "error"
           (error error_msg "api_error")) in H3.
  set (w4 := broadcast_event fails clock w3 sid "error" _) in *.
  apply (stage_update fails m sid to before w4 os3 _
           [kw_status "error"; kw_error_message (Some error_msg)]) in H3;
    [|subst os3 os1; rewrite <- !option_fmap_compose; apply Hunk].
  set (w5 := with_sessions w4 _) in *.
  apply (stage_broadcast fails clock m sid to before w5 _ _ "error"
           (error error_msg "analysis_error")) in H3.
  simpl in H3. rewrite <- app_assoc in H3. simpl in H3. rewrite <- list_fmap_compose.
  eapply stage_ext; [|exact H3].
  subst os3 os1. by destruct os.
Qed.

End analysis_run.

Section analysis_statements.
Import Model Parser Exn Sessions WS Analysis.

(** X23.  An analysis of a known session whose stream ends with its
    final message leaves the session completed: with the problem
    text, the output tokens of the final message, the solution text
    when there is one, and, after the nodes it had, the nodes that
    the parser builds from the thinking text, the rest of the buffer
    included; no other session changes.  The listeners of the session
    receive these nodes as [new_thought] events, in this order, then
    [thinking_complete] with the count of the nodes of the session,
    then [solution_ready] when there is a solution text. *)
Theorem run_analysis_completes fails clock stamp session_id problem events output_tokens w s :
  get_session (session_manager w) session_id = Some s →
  let w' := run_analysis fails clock stamp session_id problem events
              (FinalMessage output_tokens) w in
  let nodes := (λ n, model_dump (stamp n) n) <$> run session_id (thinking_of events) in
  let total := length (thought_nodes s ++ nodes) in
  sessions (session_manager w')
  = <[session_id := completed s problem (solution_of events) nodes output_tokens]>
      (sessions (session_manager w)) ∧
  ∃ duration,
    aired session_id (listeners fails w session_id) (sent w) (sent w')
      (((λ d, ("new_thought", d)) <$> nodes)
       ++ ("thinking_complete", summary total output_tokens duration)
          :: (if bool_decide (solution_of events = "") then []
              else [("solution_ready", solution (solution_of events) total)])).
Proof.
  intros Hs w' nodes total.
  destruct (run_stage_completed fails clock stamp session_id problem events output_tokens
              w (Some s) (eq_sym Hs)) as (duration & Hm & _ & Hair).
  fold w' in Hm, Hair. split; [by rewrite Hm|]. by exists duration.
Qed.

Lemma run_analysis_completes_witness :
  get_session (session_manager Scenes.start) "session_a"
    = Some (new_session "session_a" "10.0.0.1" 0) ∧
  sessions (session_manager
              (run_analysis Samples.fails Scenes.clock Scenes.stamp "session_a"
                 "Sort a list of numbers." Scenes.events (FinalMessage 40) Scenes.start))
  = <["session_a" :=
        completed (new_session "session_a" "10.0.0.1" 0) "Sort a list of numbers."
          (solution_of Scenes.events)
          ((λ n, model_dump (Scenes.stamp n) n) <$> run "session_a" (thinking_of Scenes.events))
          40]>
      (sessions (session_manager Scenes.start)).
Proof.
  assert (get_session (session_manager Scenes.start) "session_a"
          = Some (new_session "session_a" "10.0.0.1" 0)) as H by (vm_compute; reflexivity).
  split; [exact H|].
  exact (proj1 (run_analysis_completes Samples.fails Scenes.clock Scenes.stamp "session_a"
                  "Sort a list of numbers." Scenes.events 40%Z Scenes.start _ H)).
Defined.

(** X24.  An analysis of a known session whose stream raises leaves
    the session in status [error], with the message of the exception
    behind a fixed prefix; the session has the nodes built from the
    thinking text read before, without the rest of the buffer, and
    the output tokens reported last, and its solution text is as
    before; no other session changes.  After the [new_thought] events
    the listeners receive the error twice, with the same message:
    once as [api_error], once as [analysis_error]. *)
Theorem run_analysis_reports_failure fails clock stamp session_id problem events e w s :
  get_session (session_manager w) session_id = Some s →
  let w' := run_analysis fails clock stamp session_id problem events (StreamRaises e) w in
  let nodes :=
    (λ n, model_dump (stamp n) n) <$> (feed_all (init session_id) (thinking_of events)).1 in
  let error_msg := "Anthropic API error: " +:+ Exn.str e in
  sessions (session_manager w')
  = <[session_id := failed s problem error_msg nodes (usage_of None events)]>
      (sessions (session_manager w)) ∧
  aired session_id (listeners fails w session_id) (sent w) (sent w')
    (((λ d, ("new_thought", d)) <$> nodes)
     ++ [("error", error error_msg "api_error"); ("error", error error_msg "analysis_error")]).
Proof.
  intros Hs w' nodes error_msg.
  destruct (run_stage_failed fails clock stamp session_id problem events e
              w (Some s) (eq_sym Hs)) as (Hm & _ & Hair).
  fold w' in Hm, Hair. split; [by rewrite Hm|done].
Qed.

Lemma run_analysis_reports_failure_witness :
  get_session (session_manager Scenes.start) "session_a"
    = Some (new_session "session_a" "10.0.0.1" 0) ∧
  sessions (session_manager
              (run_analysis Samples.fails Scenes.clock Scenes.stamp "session_a"
                 "Sort a list of numbers." Scenes.events
                 (StreamRaises (Exception "Connection reset")) Scenes.start))
  = <["session_a" :=
        failed (new_session "session_a" "10.0.0.1" 0) "Sort a list of numbers."
          ("Anthropic API error: " +:+ "Connection reset")
          ((λ n, model_dump (Scenes.stamp n) n)
             <$> (feed_all (init "session_a") (thinking_of Scenes.events)).1)
          (usage_of None Scenes.events)]>
      (sessions (session_manager Scenes.start)).
Proof.
  assert (get_session (session_manager Scenes.start) "session_a"
          = Some (new_session "session_a" "10.0.0.1" 0)) as H by (vm_compute; reflexivity).
  split; [exact H|].
  exact (proj1 (run_analysis_reports_failure Samples.fails Scenes.clock Scenes.stamp
                  "session_a" "Sort a list of numbers." Scenes.events
                  (Exception "Connection reset") Scenes.start _ H)).
Defined.

(** X25.  An analysis of a session that the store does not know
    changes nothing in the store, however the stream ends: it creates
    no session.  When the stream ends with its final message, the
    listeners still receive the nodes and the closing events, which
    count zero thoughts. *)
Theorem run_analysis_without_session fails clock stamp session_id problem events w :
  get_session (session_manager w) session_id = None →
  (∀ e, session_manager (run_analysis fails clock stamp session_id problem events e w)
        = session_manager w) ∧
  (∀ output_tokens,
     ∃ duration,
       aired session_id (listeners fails w session_id) (sent w)
         (sent (run_analysis fails clock stamp session_id problem events
                  (FinalMessage output_tokens) w))
         (((λ n, ("new_thought", model_dump (stamp n) n)) <$> run session_id (thinking_of events))
          ++ ("thinking_complete", summary 0 output_tokens duration)
             :: (if bool_decide (solution_of events = "") then []
                 else [("solution_ready", solution (solution_of events) 0)]))).
Proof.
  intros Hs. split.
  - intros [output_tokens|e].
    + by destruct (run_stage_completed fails clock stamp session_id problem events
                     output_tokens w None (eq_sym Hs)) as (duration & Hm & _).
    + by destruct (run_stage_failed fails clock stamp session_id problem events e
                     w None (eq_sym Hs)) as (Hm & _).
  - intros output_tokens.
    destruct (run_stage_completed fails clock stamp session_id problem events
                output_tokens w None (eq_sym Hs)) as (duration & _ & _ & Hair).
    exists duration. simpl in Hair. by rewrite <- list_fmap_compose in Hair.
Qed.

Lemma run_analysis_without_session_witness :
  get_session (session_manager Scenes.nowhere) "session_a" = None ∧
  ∀ e, session_manager (run_analysis Samples.fails Scenes.clock Scenes.stamp "session_a"
                          "Sort a list of numbers." Scenes.events e Scenes.nowhere)
       = session_manager Scenes.nowhere.
Proof.
  assert (get_session (session_manager Scenes.nowhere) "session_a" = None) as H
    by (vm_compute; reflexivity).
  split; [exact H|].
  exact (proj1 (run_analysis_without_session Samples.fails Scenes.clock Scenes.stamp
                  "session_a" "Sort a list of numbers." Scenes.events Scenes.nowhere H)).
Defined.

End analysis_statements.

Section analysis_slot.
Import Model Parser Exn Sessions WS Inv Analysis.

Lemma active_without m m' session_id ip :
  ip_sessions m' = ip_sessions m →
  is_active m' session_id = false →
  (∀ x, x ≠ session_id → is_active m' x = is_active m x) →
  (_get_active_sessions_for_ip m' ip).1
  = List.filter (λ x, negb (bool_decide (x = session_id)))
                (_get_active_sessions_for_ip m ip).1.
Proof.
  intros Hips Hoff Hother. unfold _get_active_sessions_for_ip. cbn [fst]. rewrite Hips.
  induction (default [] (ip_sessions m !! ip)) as [|x l IH]; [done|]. cbn [List.filter].
  destruct (decide (x = session_id)) as [->|Hne].
  - rewrite Hoff. destruct (is_active m session_id); [|done].
    cbn [List.filter]. by rewrite bool_decide_eq_true_2.
  - rewrite Hother by done. destruct (is_active m x); [|done].
    cbn [List.filter]. rewrite bool_decide_eq_false_2 by done. cbn [negb]. by rewrite IH.
Qed.

(** X26.  However its stream ends, the analysis of a known session
    takes the session, and only it, out of the active list of every
    IP: when the analysis is over the session no longer counts
    against the cap of its client. *)
Theorem analysis_frees_slot fails clock stamp session_id problem events e w s ip :
  get_session (session_manager w) session_id = Some s →
  let m' := session_manager (run_analysis fails clock stamp session_id problem events e w) in
  is_active m' session_id = false ∧
  (_get_active_sessions_for_ip m' ip).1
  = List.filter (λ x, negb (bool_decide (x = session_id)))
                (_get_active_sessions_for_ip (session_manager w) ip).1 ∧
  active_count m' ip ≤ active_count (session_manager w) ip.
Proof.
  intros Hs m'.
  assert (∃ s', m' = stored (session_manager w) session_id (Some s') ∧
                status s' ∈ ["completed"; "error"]) as (s' & Hm & Hst).
  { subst m'. destruct e as [output_tokens|e].
    - destruct (run_stage_completed fails clock stamp session_id problem events
                  output_tokens w (Some s) (eq_sym Hs)) as (duration & Hm & _).
      eexists. split; [exact Hm|]. by left.
    - destruct (run_stage_failed fails clock stamp session_id problem events e
                  w (Some s) (eq_sym Hs)) as (Hm & _).
      eexists. split; [exact Hm|]. right. by left. }
  clearbody m'. subst m'.
  set (m := session_manager w) in *.
  assert (is_active (stored m session_id (Some s')) session_id = false) as Hoff.
  { unfold is_active. simpl. rewrite lookup_insert_eq.
    by rewrite bool_decide_eq_true_2. }
  assert ((_get_active_sessions_for_ip (stored m session_id (Some s')) ip).1
          = List.filter (λ x, negb (bool_decide (x = session_id)))
                        (_get_active_sessions_for_ip m ip).1) as Heq.
  { apply active_without; [done|done|].
    intros x Hne. unfold is_active. simpl. by rewrite lookup_insert_ne. }
  split_and!; [done|done|]. unfold active_count. rewrite Heq. apply filter_length_le.
Qed.

Lemma analysis_frees_slot_witness :
  get_session (session_manager Scenes.start) "session_a"
    = Some (new_session "session_a" "10.0.0.1" 0) ∧
  is_active (session_manager
               (run_analysis Samples.fails Scenes.clock Scenes.stamp "session_a"
                  "Sort a list of numbers." Scenes.events
                  (StreamRaises (Exception "Connection reset")) Scenes.start))
            "session_a" = false.
Proof.
  assert (get_session (session_manager Scenes.start) "session_a"
          = Some (new_session "session_a" "10.0.0.1" 0)) as H by (vm_compute; reflexivity).
  split; [exact H|].
  exact (proj1 (analysis_frees_slot Samples.fails Scenes.clock Scenes.stamp "session_a"
                  "Sort a list of numbers." Scenes.events
                  (StreamRaises (Exception "Connection reset")) Scenes.start _ "10.0.0.1" H)).
Defined.

End analysis_slot.

(** ** Configuration *)

Section config.
Import Config.

Lemma rev_app_app s : ∀ t, String.rev_app s t = String.rev s +:+ t.
Proof.
  unfold String.rev. induction s as [|c s IH]; intros t; [done|]. simpl.
  rewrite (IH (String c t)), (IH (String c "")). by rewrite string_app_assoc.
Qed.

Lemma rev_cons c s : String.rev (String c s) = String.rev s +:+ String c "".
Proof. unfold String.rev at 1. simpl. apply rev_app_app. Qed.

Lemma rev_snoc s c : String.rev (s +:+ String c "") = String c (String.rev s).
Proof.
  induction s as [|a s IH]; [done|].
  rewrite string_app_cons, !rev_cons, IH. by rewrite string_app_cons.
Qed.

Lemma rev_rev s : String.rev (String.rev s) = s.
Proof. induction s as [|c s IH]; [done|]. by rewrite rev_cons, rev_snoc, IH. Qed.

Lemma rev_append s t : String.rev (s +:+ t) = String.rev t +:+ String.rev s.
Proof.
  induction s as [|c s IH]; simpl.
  - by rewrite string_app_nil_r.
  - rewrite string_app_cons, !rev_cons, IH. by rewrite string_app_assoc.
Qed.

Lemma lstrip_suffix s : ∃ pre, s = pre +:+ Py.lstrip s.
Proof.
  induction s as [|c s [pre IH]]; [by exists ""|]. simpl.
  destruct (Py.is_space c).
  - exists (String c pre). by rewrite string_app_cons, <- IH.
  - by exists "".
Qed.

Lemma lstrip_length s : String.length (Py.lstrip s) ≤ String.length s.
Proof. induction s as [|c s IH]; [done|]. simpl. destruct (Py.is_space c); simpl; lia. Qed.

Lemma lstrip_fixed c s : Py.lstrip (String c s) = String c s → Py.is_space c = false.
Proof.
  simpl. destruct (Py.is_space c); [|done]. intros H.
  pose proof (lstrip_length s) as Hl. rewrite H in Hl. simpl in Hl. lia.
Qed.

Lemma lstrip_idem s : Py.lstrip (Py.lstrip s) = Py.lstrip s.
Proof.
  induction s as [|c s IH]; [done|]. simpl.
  destruct (Py.is_space c) eqn:Hc; [done|]. simpl. by rewrite Hc.
Qed.

Lemma strip_idem s : Py.strip (Py.strip s) = Py.strip s.
Proof.
  unfold Py.strip. set (t := Py.lstrip s).
  assert (Py.lstrip (Py.rstrip t) = Py.rstrip t) as ->.
  { unfold Py.rstrip. destruct (lstrip_suffix (String.rev t)) as [pre Hpre].
    apply (f_equal String.rev) in Hpre. rewrite rev_rev, rev_append in Hpre.
    destruct (String.rev (Py.lstrip (String.rev t))) as [|c r]; [done|].
    rewrite string_app_cons in Hpre.
    assert (Py.lstrip t = t) as Ht by apply lstrip_idem.
    rewrite Hpre in Ht. apply lstrip_fixed in Ht. simpl. by rewrite Ht. }
  unfold Py.rstrip. by rewrite rev_rev, lstrip_idem.
Qed.

Lemma count_char_app c s t :
  Py.count_char c (s +:+ t) = Py.count_char c s + Py.count_char c t.
Proof.
  induction s as [|d s IH]; [done|]. rewrite string_app_cons. simpl. rewrite IH. lia.
Qed.

Lemma count_char_rev c s : Py.count_char c (String.rev s) = Py.count_char c s.
Proof.
  induction s as [|d s IH]; [done|]. rewrite rev_cons, count_char_app, IH. simpl. lia.
Qed.

Lemma count_char_lstrip c s : Py.count_char c (Py.lstrip s) ≤ Py.count_char c s.
Proof.
  induction s as [|d s IH]; [done|]. simpl. destruct (Py.is_space d); simpl; lia.
Qed.

Lemma count_char_strip c s : Py.count_char c (Py.strip s) ≤ Py.count_char c s.
Proof.
  unfold Py.strip, Py.rstrip. rewrite count_char_rev.
  etrans; [apply count_char_lstrip|]. rewrite count_char_rev. apply count_char_lstrip.
Qed.

Lemma split_sep_spec sep s :
  length (split_sep sep s) = S (Py.count_char sep s) ∧
  Forall (λ piece, Py.count_char sep piece = 0) (split_sep sep s).
Proof.
  induction s as [|c s [IHl IHf]]; simpl.
  - split; [done|]. by repeat constructor.
  - destruct (Ascii.eqb sep c) eqn:Hc.
    + simpl. split; [by rewrite IHl|]. by constructor.
    + destruct (split_sep sep s) as [|piece pieces]; [done|]. simpl in *.
      split; [done|]. inversion IHf as [|? ? Hp Hps]; subst.
      constructor; [|done]. simpl. by rewrite Hc.
Qed.

(** X27.  The list of CORS origins has one entry for every comma of
    the setting, and one more; no entry contains a comma, and no
    entry begins or ends with white space, so that blanks around the
    commas of the setting do no harm. *)
Theorem cors_origins_list_shape cors_origins :
  length (cors_origins_list cors_origins) = S (Py.count_char "," cors_origins) ∧
  ∀ origin, origin ∈ cors_origins_list cors_origins →
    Py.count_char "," origin = 0 ∧ Py.strip origin = origin.
Proof.
  unfold cors_origins_list. destruct (split_sep_spec "," cors_origins) as [Hl Hf].
  split; [by rewrite length_fmap|].
  intros origin (piece & -> & Hin)%list_elem_of_fmap. split; [|apply strip_idem].
  rewrite Forall_forall in Hf. specialize (Hf piece Hin).
  pose proof (count_char_strip "," piece). lia.
Qed.

End config.

Section sessions_stats.
Import Model Exn Sessions Inv SessionViews.

Lemma sum_counts_bump (r : gmap string nat) st :
  map_fold (λ _ n acc, n + acc) 0 (<[st := default 0 (r !! st) + 1]> r)
  = S (map_fold (λ _ n acc, n + acc) 0 r).
Proof.
  destruct (r !! st) as [n|] eqn:Hst; simpl.
  - rewrite <- (insert_delete_id r st n) at 2 by done.
    rewrite <- (insert_delete_eq r).
    rewrite !map_fold_insert_L; [lia|intros; lia|apply lookup_delete_eq|intros; lia
                                |apply lookup_delete_eq].
  - rewrite map_fold_insert_L; [lia|intros; lia|done].
Qed.

(** X28.  The counts of the status breakdown add up to the number of
    sessions in the store. *)
Theorem status_breakdown_total m :
  map_fold (λ _ n acc, n + acc) 0 (_get_status_breakdown m) = get_session_count m.
Proof.
  unfold _get_status_breakdown, get_session_count.
  apply (map_fold_weak_ind
           (λ r (ss : gmap string Session), map_fold (λ _ n acc, n + acc) 0 r = size ss)).
  - by rewrite map_fold_empty, map_size_empty.
  - intros i x ss r Hi IH. rewrite sum_counts_bump, IH.
    by rewrite map_size_insert_None.
Qed.

End sessions_stats.

(** ** Cutting a text at a call that emits *)

Section cut_strings.
Import Model Parser Inv Cuts.

Lemma terminator_no_space c : Py.is_terminator c = true → Py.is_space c = false.
Proof.
  unfold Py.is_terminator. rewrite !orb_true_iff, !Ascii.eqb_eq. by intros [[->| ->]| ->].
Qed.

Lemma drop_0 s : Py.drop 0 s = s.
Proof. by destruct s. Qed.

Lemma drop_app n s R :
  n ≤ String.length s → Py.drop n (s +:+ R) = Py.drop n s +:+ R.
Proof.
  revert s. induction n as [|n IH]; intros s H.
  - by rewrite !drop_0.
  - destruct s as [|c s]; simpl in *; [lia|]. apply IH. lia.
Qed.

Lemma drop_length n s : String.length (Py.drop n s) = String.length s - n.
Proof.
  revert s. induction n as [|n IH]; intros s; [rewrite drop_0; lia|].
  destruct s as [|c s]; simpl; [done|apply IH].
Qed.

Lemma prefix_len_le p s : Py.prefix_len p s ≤ String.length s.
Proof. induction s as [|c s IH]; simpl; [done|]. destruct (p c); simpl; lia. Qed.

Lemma prefix_len_app p s R :
  Py.prefix_len p s < String.length s → Py.prefix_len p (s +:+ R) = Py.prefix_len p s.
Proof.
  induction s as [|c s IH]; simpl; [lia|]. destruct (p c); [|done]. intros H.
  rewrite IH; [done|lia].
Qed.

Lemma prefix_len_all p s :
  Py.prefix_len p s = String.length s → Py.all_chars p s = true.
Proof.
  induction s as [|c s IH]; simpl; [done|]. destruct (p c); [|done]. intros [= H].
  by rewrite IH.
Qed.

Lemma rev_nil_inv s : String.rev s = "" → s = "".
Proof. intros H. by rewrite <- (rev_rev s), H. Qed.

Lemma ends_solid_app a b : b ≠ "" → ends_solid (a +:+ b) = ends_solid b.
Proof.
  intros Hb. unfold ends_solid. rewrite rev_append.
  destruct (String.rev b) as [|c z] eqn:E; [by apply rev_nil_inv in E|done].
Qed.

Lemma ends_solid_cons c s : s ≠ "" → ends_solid (String c s) = ends_solid s.
Proof. intros H. by apply (ends_solid_app (String c "") s). Qed.

Lemma ends_solid_nonempty s : ends_solid s = true → s ≠ "".
Proof. by intros H ->. Qed.

Lemma ends_solid_drop n s :
  n < String.length s → ends_solid s = true → ends_solid (Py.drop n s) = true.
Proof.
  revert s. induction n as [|n IH]; intros s Hn Hs; [by rewrite drop_0|].
  destruct s as [|c s]; simpl in *; [lia|].
  apply IH; [lia|]. rewrite ends_solid_cons in Hs; [done|]. intros ->. simpl in Hn. lia.
Qed.

Lemma ends_solid_rstrip s : ends_solid s = true → Py.rstrip s = s.
Proof.
  unfold ends_solid, Py.rstrip. destruct (String.rev s) as [|c z] eqn:E; [done|].
  intros Hc. simpl. apply negb_true_iff in Hc. by rewrite Hc, <- E, rev_rev.
Qed.

Lemma all_space_not_solid s :
  s ≠ "" → Py.all_chars Py.is_space s = true → ends_solid s = false.
Proof.
  induction s as [|c s IH]; [done|]. intros _. simpl. intros [Hc Hs]%andb_true_iff.
  destruct s as [|d s].
  - unfold ends_solid. simpl. by rewrite Hc.
  - rewrite ends_solid_cons by done. by apply IH.
Qed.

End cut_strings.

Section cut_pieces.
Import Model Parser Inv Cuts.

Lemma re_split_go_prev s : ∀ p p' k cur,
  Py.re_split_go Py.sentence_end p k cur s = Py.re_split_go Py.sentence_end p' k cur s.
Proof.
  induction s as [|c r IH]; intros p p' k cur; simpl; [done|].
  destruct k as [|k]; [|apply IH].
  change (Py.sentence_end p (String c r)) with (Py.sentence_end p' (String c r)).
  destruct (Py.sentence_end p' (String c r)) as [[|n]|]; [apply IH|f_equal; apply IH|apply IH].
Qed.

Lemma re_split_go_skip k : ∀ s p cur,
  Py.re_split_go Py.sentence_end p k cur s
  = Py.re_split_go Py.sentence_end None 0 cur (Py.drop k s).
Proof.
  induction k as [|k IH]; intros s p cur.
  - rewrite drop_0. apply re_split_go_prev.
  - destruct s as [|c r]; simpl; [done|]. apply IH.
Qed.

(** [re.split] by first matches. *)
Lemma re_split_go_first s : ∀ p cur,
  Py.re_split_go Py.sentence_end p 0 cur s =
  match first_match s with
  | Some (piece, rest) => (String.rev cur +:+ piece) :: Py.re_split Py.sentence_end rest
  | None => [String.rev cur +:+ s]
  end.
Proof.
  induction s as [|c r IH]; intros p cur; simpl.
  - by rewrite string_app_nil_r.
  - change (Py.sentence_end p (String c r)) with (Py.sentence_end None (String c r)).
    destruct (Py.sentence_end None (String c r)) as [[|n]|] eqn:E.
    + rewrite IH. destruct (first_match r) as [[q rest]|];
        by rewrite rev_cons, string_app_assoc.
    + by rewrite re_split_go_skip, string_app_nil_r.
    + rewrite IH. destruct (first_match r) as [[q rest]|];
        by rewrite rev_cons, string_app_assoc.
Qed.

Lemma re_split_first s :
  Py.re_split Py.sentence_end s =
  match first_match s with
  | Some (piece, rest) => piece :: Py.re_split Py.sentence_end rest
  | None => [s]
  end.
Proof. unfold Py.re_split at 1. rewrite re_split_go_first. by destruct (first_match s) as [[? ?]|]. Qed.

Lemma re_split_nonempty s : Py.re_split Py.sentence_end s ≠ [].
Proof. rewrite re_split_first. by destruct (first_match s) as [[? ?]|]. Qed.

Lemma first_match_length s : ∀ q rest,
  first_match s = Some (q, rest) → String.length rest < String.length s.
Proof.
  induction s as [|c r IH]; intros q rest; simpl; [done|].
  destruct (Py.sentence_end None (String c r)) as [[|n]|].
  - destruct (first_match r) as [[q' rest']|]; [|done]. intros [= <- <-].
    specialize (IH _ _ eq_refl). lia.
  - intros [= <- <-]. rewrite drop_length. lia.
  - destruct (first_match r) as [[q' rest']|]; [|done]. intros [= <- <-].
    specialize (IH _ _ eq_refl). lia.
Qed.

(** The sentence end at the head of a text, by cases. *)
Lemma sentence_end_unfold p s :
  Py.sentence_end p s =
  let t := Py.prefix_len Py.is_terminator s in
  let w := Py.prefix_len Py.is_space (Py.drop t s) in
  if (0 <? t) && (0 <? w) then Some (t + w) else None.
Proof. done. Qed.

Lemma sentence_end_pos p s : Py.sentence_end p s ≠ Some 0.
Proof.
  rewrite sentence_end_unfold. cbv zeta.
  destruct (Nat.ltb_spec 0 (Py.prefix_len Py.is_terminator s)); [|done].
  destruct (0 <? _); simpl; [|done]. intros [= E]. lia.
Qed.

Lemma sentence_end_no_terminator p c r :
  Py.is_terminator c = false → Py.sentence_end p (String c r) = None.
Proof. intros H. rewrite sentence_end_unfold. simpl. by rewrite H. Qed.

Lemma sentence_end_grows p c r n :
  Py.is_terminator c = true →
  Py.sentence_end p r = Some (S n) → Py.sentence_end p (String c r) = Some (S (S n)).
Proof.
  intros Hc. rewrite !sentence_end_unfold. simpl. rewrite Hc. simpl.
  destruct (Py.prefix_len Py.is_terminator r) as [|t]; [done|]. simpl.
  destruct (0 <? _); [|done]. by intros [= <-].
Qed.

Lemma sentence_end_before_space p c d r :
  Py.is_terminator c = true → Py.is_space d = true →
  ∃ n, Py.sentence_end p (String c (String d r)) = Some (S n).
Proof.
  intros Hc Hd. rewrite sentence_end_unfold. simpl. rewrite Hc.
  assert (Py.is_terminator d = false) as Hd'.
  { destruct (Py.is_terminator d) eqn:E; [|done]. apply terminator_no_space in E. congruence. }
  rewrite Hd'. simpl. rewrite Hd. simpl. by eexists.
Qed.

Lemma first_match_nil_piece s rest :
  first_match s = Some ("", rest) → ∃ n, Py.sentence_end None s = Some (S n).
Proof.
  destruct s as [|c r]; simpl; [done|].
  destruct (Py.sentence_end None (String c r)) as [[|n]|]; [|by eexists|];
    by destruct (first_match r) as [[? ?]|].
Qed.

Lemma first_match_head s d q rest :
  first_match s = Some (String d q, rest) → ∃ r, s = String d r.
Proof.
  destruct s as [|c r]; simpl; [done|].
  destruct (Py.sentence_end None (String c r)) as [[|n]|]; [|done|];
    (destruct (first_match r) as [[? ?]|]; [|done]); intros [= -> _ _]; by eexists.
Qed.

(** The piece before a match is tight. *)
Lemma first_match_tight s : ∀ q rest, first_match s = Some (q, rest) → tight q = true.
Proof.
  induction s as [|c r IH]; intros q rest; simpl; [done|].
  destruct (Py.sentence_end None (String c r)) as [[|n]|] eqn:E; [|by intros [= <- _]|].
  all: destruct (first_match r) as [[q' rest']|] eqn:F; [|done]; intros [= <- <-].
  all: specialize (IH _ _ eq_refl); destruct q' as [|d q'']; simpl.
  all: destruct (Py.is_terminator c) eqn:Hc; try done.
  - apply first_match_nil_piece in F as [n F].
    by rewrite (sentence_end_grows _ _ _ _ Hc F) in E.
  - apply first_match_head in F as [r0 ->]. destruct (Py.is_space d) eqn:Hd; [|done].
    destruct (sentence_end_before_space None c d r0 Hc Hd) as [n Hn]. congruence.
  - apply first_match_nil_piece in F as [n F].
    by rewrite (sentence_end_grows _ _ _ _ Hc F) in E.
  - apply first_match_head in F as [r0 ->]. destruct (Py.is_space d) eqn:Hd; [|done].
    destruct (sentence_end_before_space None c d r0 Hc Hd) as [n Hn]. congruence.
Qed.

Lemma prefix_len_all_chars p s :
  Py.all_chars p s = true → Py.prefix_len p s = String.length s.
Proof.
  induction s as [|c s IH]; [done|]. simpl. intros [-> Hs]%andb_true_iff. by rewrite IH.
Qed.

Lemma drop_all s : Py.drop (String.length s) s = "".
Proof. induction s as [|c s IH]; done. Qed.

Lemma first_match_all_terminators r :
  Py.all_chars Py.is_terminator r = true → first_match r = None.
Proof.
  induction r as [|c r IH]; [done|]. intros Hall.
  assert (Py.sentence_end None (String c r) = None) as Hse.
  { rewrite sentence_end_unfold. cbv zeta.
    rewrite (prefix_len_all_chars _ _ Hall), drop_all.
    change (Py.prefix_len Py.is_space "") with 0. by rewrite Nat.ltb_irrefl, andb_false_r. }
  cbn [first_match]. rewrite Hse. simpl in Hall. apply andb_true_iff in Hall as [_ Hall].
  by rewrite IH.
Qed.

(** A sentence end in a text that ends in no white space ends before
    the end of the text, and does not depend on what follows the
    text. *)
Lemma sentence_end_solid t n R :
  ends_solid t = true → Py.sentence_end None t = Some n →
  Py.sentence_end None (t +:+ R) = Some n ∧ n < String.length t.
Proof.
  intros Hsolid. rewrite !sentence_end_unfold. cbv zeta.
  set (tc := Py.prefix_len Py.is_terminator t).
  set (w := Py.prefix_len Py.is_space (Py.drop tc t)).
  destruct (Nat.ltb_spec 0 tc) as [Htc|]; [|done].
  destruct (Nat.ltb_spec 0 w) as [Hw|]; [|done]. simpl. intros [= <-].
  pose proof (prefix_len_le Py.is_terminator t) as Hle. fold tc in Hle.
  pose proof (prefix_len_le Py.is_space (Py.drop tc t)) as Hle'. fold w in Hle'.
  rewrite drop_length in Hle'.
  assert (tc < String.length t) as Hlt by lia.
  assert (w < String.length t - tc) as Hlt'.
  { destruct (decide (w = String.length t - tc)) as [E|]; [|lia].
    assert (ends_solid (Py.drop tc t) = false) as Hno.
    { apply all_space_not_solid.
      - intros E'. apply (f_equal String.length) in E'. rewrite drop_length in E'.
        simpl in E'. lia.
      - apply prefix_len_all. fold w. by rewrite drop_length. }
    by rewrite ends_solid_drop in Hno. }
  split; [|lia].
  rewrite (prefix_len_app _ t R) by done. fold tc.
  rewrite drop_app by lia. rewrite prefix_len_app by (by rewrite drop_length).
  fold w. destruct (Nat.ltb_spec 0 tc); [|lia]. destruct (Nat.ltb_spec 0 w); [|lia]. done.
Qed.

Lemma first_match_app t R : ∀ q t',
  ends_solid t = true → first_match t = Some (q, t') →
  first_match (t +:+ R) = Some (q, t' +:+ R) ∧ ends_solid t' = true.
Proof.
  induction t as [|c r IH]; intros q t' Hsolid; [done|].
  rewrite string_app_cons. cbn [first_match]. rewrite <- string_app_cons.
  destruct (Py.sentence_end None (String c r)) as [[|n]|] eqn:E.
  - by apply sentence_end_pos in E.
  - destruct (sentence_end_solid _ _ R Hsolid E) as [-> Hn]. intros [= <- <-].
    simpl in Hn. rewrite drop_app by lia. split; [done|].
    apply (ends_solid_drop (S n) (String c r)); [simpl; lia|done].
  - destruct (first_match r) as [[q' rest']|] eqn:F; [|done]. intros [= <- <-].
    assert (r ≠ "") as Hr by (by intros ->).
    rewrite ends_solid_cons in Hsolid by done.
    destruct (IH _ _ Hsolid eq_refl) as [-> Hsolid']. split; [|done].
    assert (Py.sentence_end None (String c r +:+ R) = None) as ->; [|done].
    rewrite sentence_end_unfold in *. cbv zeta in *.
    set (tc := Py.prefix_len Py.is_terminator (String c r)) in *.
    pose proof (prefix_len_le Py.is_terminator (String c r)) as Hle. fold tc in Hle.
    destruct (decide (tc = String.length (String c r))) as [Hall|Hnot].
    { apply prefix_len_all in Hall. simpl in Hall. apply andb_true_iff in Hall as [_ Hall].
      by rewrite first_match_all_terminators in F. }
    rewrite (prefix_len_app _ (String c r) R) by (fold tc; lia). fold tc.
    rewrite drop_app by lia.
    destruct (Nat.ltb_spec 0 tc) as [Htc|]; [|done]. simpl in *.
    destruct (Py.drop tc (String c r)) as [|d z] eqn:Hd.
    { apply (f_equal String.length) in Hd. rewrite drop_length in Hd. simpl in Hd. lia. }
    rewrite string_app_cons. simpl in *. by destruct (Py.is_space d).
Qed.

(** [re.split] of a text that goes on: the pieces but the last stay,
    and the last piece goes on. *)
Lemma re_split_app R : ∀ n t,
  String.length t ≤ n → ends_solid t = true →
  Py.re_split Py.sentence_end (t +:+ R)
  = removelast (Py.re_split Py.sentence_end t)
    ++ Py.re_split Py.sentence_end (List.last (Py.re_split Py.sentence_end t) "" +:+ R).
Proof.
  induction n as [|n IH]; intros t Hn Hsolid.
  { destruct t; [done|simpl in Hn; lia]. }
  rewrite (re_split_first t). destruct (first_match t) as [[q t']|] eqn:F; [|done].
  destruct (first_match_app t R _ _ Hsolid F) as [F' Hsolid'].
  rewrite (re_split_first (t +:+ R)), F'.
  pose proof (first_match_length _ _ _ F) as Hlen.
  rewrite (IH t') by (done || lia).
  pose proof (re_split_nonempty t') as Hne.
  destruct (Py.re_split Py.sentence_end t') as [|x l]; [done|]. done.
Qed.

Lemma re_split_pieces : ∀ n t,
  String.length t ≤ n →
  Forall (λ q, tight q = true) (removelast (Py.re_split Py.sentence_end t)) ∧
  (ends_solid t = true →
   ends_solid (List.last (Py.re_split Py.sentence_end t) "") = true).
Proof.
  induction n as [|n IH]; intros t Hn.
  { destruct t; [|simpl in Hn; lia]. split; [constructor|done]. }
  rewrite (re_split_first t). destruct (first_match t) as [[q t']|] eqn:F.
  - pose proof (first_match_length _ _ _ F) as Hlen.
    destruct (IH t') as [IH1 IH2]; [lia|].
    pose proof (re_split_nonempty t') as Hne.
    destruct (Py.re_split Py.sentence_end t') as [|x l] eqn:E; [done|]. split.
    + change (removelast (q :: x :: l)) with (q :: removelast (x :: l)).
      constructor; [by eapply first_match_tight|done].
    + intros Hsolid. change (List.last (q :: x :: l) "") with (List.last (x :: l) "").
      apply IH2. by destruct (first_match_app t "" _ _ Hsolid F).
  - split; [constructor|done].
Qed.

End cut_pieces.

Section cut_segments.
Import Model Parser Inv Cuts.

Lemma space_no_terminator c : Py.is_space c = true → Py.is_terminator c = false.
Proof.
  intros H. destruct (Py.is_terminator c) eqn:E; [|done].
  apply terminator_no_space in E. congruence.
Qed.

Lemma sentence_end_grows_none p c d r :
  Py.is_terminator c = true → Py.is_terminator d = true →
  Py.sentence_end p (String d r) = None → Py.sentence_end p (String c (String d r)) = None.
Proof.
  intros Hc Hd. rewrite !sentence_end_unfold. simpl. rewrite Hc, Hd. simpl.
  by destruct (0 <? _).
Qed.

Lemma tight_tail c r : tight (String c r) = true → tight r = true.
Proof. destruct r as [|d r]; [done|]. simpl. by intros [_ ?]%andb_true_iff. Qed.

(** No sentence end begins at the head of a tight text, whatever
    follows the text. *)
Lemma tight_head_no_match u : ∀ y,
  tight u = true → u ≠ "" → Py.sentence_end None (u +:+ y) = None.
Proof.
  induction u as [|c r IH]; intros y Ht Hne; [done|]. clear Hne.
  destruct (Py.is_terminator c) eqn:Hc; [|by apply sentence_end_no_terminator].
  destruct r as [|d r]; [by simpl in Ht; rewrite Hc in Ht|].
  pose proof (tight_tail _ _ Ht) as Ht'.
  change (tight (String c (String d r)))
    with (negb (Py.is_terminator c && Py.is_space d) && tight (String d r)) in Ht.
  rewrite Hc in Ht. apply andb_true_iff in Ht as [Hd _]. simpl in Hd.
  apply negb_true_iff in Hd. rewrite !string_app_cons.
  destruct (Py.is_terminator d) eqn:Hd'.
  - apply sentence_end_grows_none; [done..|]. rewrite <- string_app_cons. by apply IH.
  - rewrite sentence_end_unfold. cbn [Py.prefix_len]. rewrite Hc, Hd'. cbn [Py.drop Py.prefix_len]. by rewrite Hd.
Qed.

Lemma first_match_tight_sep s : ∀ x,
  tight s = true → starts_solid x = true →
  first_match (s +:+ ". " +:+ x) = Some (s, x).
Proof.
  induction s as [|c r IH]; intros x Ht Hx.
  - destruct x as [|d x]; [done|]. simpl in Hx. apply negb_true_iff in Hx.
    change ("" +:+ ". " +:+ String d x) with (String "." (String " " (String d x))).
    cbn [first_match]. rewrite sentence_end_unfold.
    cbn [Py.prefix_len Py.drop]. change (Py.is_terminator ".") with true.
    change (Py.is_terminator " ") with false. cbn [Py.drop Py.prefix_len].
    change (Py.is_space " ") with true. rewrite Hx. cbn [Nat.ltb Nat.leb andb Nat.add].
    done.
  - assert (String c r ≠ "") as Hne by done.
    pose proof (tight_head_no_match (String c r) (". " +:+ x) Ht Hne) as Hn.
    rewrite string_app_cons in Hn |- *. cbn [first_match]. rewrite Hn.
    by rewrite IH by (by apply tight_tail in Ht).
Qed.

(** A tight text before the separator is one piece. *)
Lemma re_split_tight s x :
  tight s = true → starts_solid x = true →
  Py.re_split Py.sentence_end (s +:+ ". " +:+ x) = s :: Py.re_split Py.sentence_end x.
Proof. intros Ht Hx. by rewrite re_split_first, first_match_tight_sep. Qed.

Lemma tight_suffix a : ∀ b, tight (a +:+ b) = true → tight b = true.
Proof.
  induction a as [|c a IH]; intros b H; [done|]. apply IH.
  rewrite string_app_cons in H. by apply tight_tail in H.
Qed.

Lemma tight_app_spaces a : ∀ ws,
  Py.all_chars Py.is_space ws = true → tight (a +:+ ws) = true → tight a = true.
Proof.
  induction a as [|c a IH]; intros ws Hws H; [done|]. rewrite string_app_cons in H.
  destruct a as [|d a].
  - simpl in *. destruct ws as [|e ws]; [done|]. simpl in *.
    apply andb_true_iff in Hws as [He _]. apply andb_true_iff in H as [H _].
    rewrite He, andb_true_r in H. by destruct (Py.is_terminator c).
  - rewrite string_app_cons in H. cbn [tight] in *.
    apply andb_true_iff in H as [-> H]. simpl. apply (IH ws); [done|].
    by rewrite string_app_cons.
Qed.

Lemma lstrip_decomp s :
  ∃ pre, s = pre +:+ Py.lstrip s ∧ Py.all_chars Py.is_space pre = true.
Proof.
  induction s as [|c s (pre & IH & Hpre)]; [by exists ""|]. simpl.
  destruct (Py.is_space c) eqn:Hc.
  - exists (String c pre). rewrite string_app_cons, <- IH. simpl. by rewrite Hc.
  - by exists "".
Qed.

Lemma all_chars_rev p s : Py.all_chars p (String.rev s) = Py.all_chars p s.
Proof.
  induction s as [|c s IH]; [done|]. rewrite rev_cons, all_chars_app, IH. simpl.
  by rewrite andb_true_r, andb_comm.
Qed.

Lemma rstrip_decomp s :
  ∃ post, s = Py.rstrip s +:+ post ∧ Py.all_chars Py.is_space post = true.
Proof.
  destruct (lstrip_decomp (String.rev s)) as (pre & E & Hpre).
  exists (String.rev pre). split; [|by rewrite all_chars_rev].
  apply (f_equal String.rev) in E. by rewrite rev_rev, rev_append in E.
Qed.

Lemma tight_strip q : tight q = true → tight (Py.strip q) = true.
Proof.
  intros H. unfold Py.strip.
  destruct (lstrip_decomp q) as (pre & E & _). rewrite E in H. apply tight_suffix in H.
  destruct (rstrip_decomp (Py.lstrip q)) as (post & E' & Hpost). rewrite E' in H.
  by apply tight_app_spaces in H.
Qed.

Lemma lstrip_head s c z : Py.lstrip s = String c z → Py.is_space c = false.
Proof.
  induction s as [|d s IH]; [done|]. simpl. destruct (Py.is_space d) eqn:Hd; [done|].
  by intros [= <- _].
Qed.

Lemma strip_starts_solid q : Py.strip q ≠ "" → starts_solid (Py.strip q) = true.
Proof.
  unfold Py.strip. destruct (rstrip_decomp (Py.lstrip q)) as (post & E & _).
  destruct (Py.rstrip (Py.lstrip q)) as [|c z]; [done|]. intros _.
  rewrite string_app_cons in E. apply lstrip_head in E. simpl. by rewrite E.
Qed.

Lemma lstrip_spaces pre y :
  Py.all_chars Py.is_space pre = true → Py.lstrip (pre +:+ y) = Py.lstrip y.
Proof.
  induction pre as [|c pre IH]; [done|]. simpl. intros [-> H]%andb_true_iff. by apply IH.
Qed.

(** The last piece of a text that ends in no white space: trimming
    it takes white space from its head only. *)
Lemma strip_solid lp :
  ends_solid lp = true →
  ∃ pre, lp = pre +:+ Py.strip lp ∧ Py.all_chars Py.is_space pre = true ∧
         starts_solid (Py.strip lp) = true ∧ ends_solid (Py.strip lp) = true.
Proof.
  intros Hsolid. destruct (lstrip_decomp lp) as (pre & E & Hpre).
  assert (Py.lstrip lp ≠ "") as Hne.
  { intros E'. rewrite E', string_app_nil_r in E. subst pre.
    rewrite all_space_not_solid in Hsolid; [done|by apply ends_solid_nonempty|done]. }
  assert (ends_solid (Py.lstrip lp) = true) as Hsolid'.
  { rewrite E, ends_solid_app in Hsolid; done. }
  assert (Py.strip lp = Py.lstrip lp) as Hs by (by apply ends_solid_rstrip).
  exists pre. rewrite Hs. split_and!; [done|done| |done].
  rewrite <- Hs. apply strip_starts_solid. by rewrite Hs.
Qed.

Lemma first_match_spaces pre y :
  Py.all_chars Py.is_space pre = true →
  first_match (pre +:+ y) =
  match first_match y with
  | Some (q, rest) => Some (pre +:+ q, rest)
  | None => None
  end.
Proof.
  induction pre as [|c pre IH].
  { intros _. change ("" +:+ y) with y. by destruct (first_match y) as [[? ?]|]. }
  cbn [Py.all_chars]. intros [Hc Hpre]%andb_true_iff. rewrite string_app_cons.
  cbn [first_match].
  rewrite sentence_end_no_terminator by (by apply space_no_terminator).
  rewrite IH by done. by destruct (first_match y) as [[? ?]|].
Qed.

Lemma segment_step_strip n st q : segment_step n st (Py.strip q) = segment_step n st q.
Proof. unfold segment_step. destruct st. by rewrite strip_idem. Qed.

(** Folding the loop over the pieces of a text with white space
    before it. *)
Lemma fold_spaces n st pre y :
  Py.all_chars Py.is_space pre = true →
  foldl (segment_step n) st (Py.re_split Py.sentence_end (pre +:+ y))
  = foldl (segment_step n) st (Py.re_split Py.sentence_end y).
Proof.
  intros Hpre. rewrite (re_split_first (pre +:+ y)), (re_split_first y).
  rewrite first_match_spaces by done.
  assert (∀ h, segment_step n st (pre +:+ h) = segment_step n st h) as Hstep.
  { intros h. rewrite <- (segment_step_strip n st (pre +:+ h)), <- (segment_step_strip n st h).
    unfold Py.strip. by rewrite lstrip_spaces. }
  destruct (first_match y) as [[q rest]|]; simpl; by rewrite Hstep.
Qed.

Lemma fold_prefix n l : ∀ pre segs c,
  foldl (segment_step n) (pre ++ segs, c) l
  = (pre ++ (foldl (segment_step n) (segs, c) l).1, (foldl (segment_step n) (segs, c) l).2).
Proof.
  induction l as [|q l IH]; intros pre segs c; [done|]. cbn [foldl].
  assert (segment_step n (pre ++ segs, c) q
          = (pre ++ (segment_step n (segs, c) q).1, (segment_step n (segs, c) q).2)) as ->.
  { unfold segment_step. destruct (decide (Py.strip q = "")); [done|].
    destruct (n <=? _); simpl; [by rewrite app_assoc|done]. }
  destruct (segment_step n (segs, c) q) as [segs' c']. apply IH.
Qed.

Lemma finish_prefix pre st : finish (pre ++ st.1, st.2) = pre ++ finish st.
Proof. unfold finish. simpl. destruct (_ && _); [by rewrite app_assoc|done]. Qed.

Lemma split_into_segments_finish text :
  split_into_segments text
  = finish (foldl (segment_step 20) ([], "") (Py.re_split Py.sentence_end text)).
Proof.
  unfold split_into_segments, split_into_segments_n, finish.
  by destruct (foldl _ _ _) as [segs cur].
Qed.

(** One turn of the loop on a sentence that it does not skip. *)
Lemma segment_step_solid segs cur s :
  Py.strip s = s → s ≠ "" →
  segment_step 20 (segs, cur) s =
  let cur1 := if decide (cur = "") then s else cur +:+ ". " +:+ s in
  if 20 <=? length (Py.split cur1) then (segs ++ [cur1], "") else (segs, cur1).
Proof. intros Hs Hne. unfold segment_step. rewrite Hs. by rewrite decide_False. Qed.

Lemma joins_step segs cur q :
  joins cur → tight q = true → joins (segment_step 20 (segs, cur) q).2.
Proof.
  intros Hj Ht. rewrite <- segment_step_strip. apply tight_strip in Ht.
  destruct (decide (Py.strip q = "")) as [E|Hne].
  { rewrite E. unfold segment_step. simpl. done. }
  pose proof (strip_starts_solid q Hne) as Hsolid.
  pose proof (strip_idem q) as Hidem.
  set (s := Py.strip q) in *. rewrite segment_step_solid by done. cbv zeta.
  destruct (20 <=? _) eqn:Hcut; simpl; [by left|]. right. intros x Hx.
  assert (∀ l c, (c = if decide (cur = "") then s else cur +:+ ". " +:+ s) →
            foldl (segment_step 20) ([], cur) (s :: l) = foldl (segment_step 20) ([], c) l)
    as Hfold.
  { intros l c ->. cbn [foldl]. rewrite segment_step_solid by done. cbv zeta. by rewrite Hcut. }
  destruct (decide (cur = "")) as [->|Hcur].
  - rewrite re_split_tight by done. by apply Hfold.
  - destruct Hj as [?|Hj]; [done|].
    replace ((cur +:+ ". " +:+ s) +:+ ". " +:+ x) with (cur +:+ ". " +:+ (s +:+ ". " +:+ x))
      by (by rewrite !string_app_assoc).
    rewrite Hj.
    + rewrite re_split_tight by done. by apply Hfold.
    + destruct s; [done|]. done.
Qed.

Lemma joins_fold ps : ∀ st,
  joins st.2 → Forall (λ q, tight q = true) ps →
  joins (foldl (segment_step 20) st ps).2.
Proof.
  induction ps as [|q ps IH]; intros [segs cur] Hj Hps; [done|].
  apply Forall_cons in Hps as [Hq Hps]. cbn [foldl]. apply IH; [|done].
  pose proof (joins_step segs cur q Hj Hq) as H.
  by destruct (segment_step 20 (segs, cur) q).
Qed.

(** The cut.  Of a text that is cut cleanly, the segments but the
    last are segments of every text that goes on from it, and the
    other segments of that text are those of the last segment going
    on in the same way. *)
Lemma cut_segments t R :
  clean_cut t = true →
  split_into_segments (t +:+ R)
  = removelast (split_into_segments t)
    ++ split_into_segments (List.last (split_into_segments t) "" +:+ R).
Proof.
  intros [Hsolid Hkept]%andb_true_iff.
  destruct (re_split_pieces (String.length t) t) as [Htight Hlast]; [done|].
  specialize (Hlast Hsolid).
  pose proof (re_split_app R (String.length t) t (le_n _) Hsolid) as Happ.
  pose proof (re_split_nonempty t) as Hne.
  unfold remainder in Hkept. rewrite !split_into_segments_finish.
  destruct (exists_last Hne) as (ps & lp & E). rewrite E in *.
  rewrite removelast_last in Htight, Happ. rewrite last_last in Hlast, Happ.
  rewrite Happ, !foldl_app. rewrite foldl_app in Hkept. clear Happ E Hne.
  pose proof (joins_fold ps ([], "") (or_introl eq_refl) Htight) as Hj.
  revert Hkept Hj. destruct (foldl (segment_step 20) ([], "") ps) as [segs0 cur0].
  cbn [snd]. intros Hkept Hj.
  destruct (strip_solid lp Hlast) as (pre & Elp & Hpre & Hstart & Hend).
  assert (Py.strip lp ≠ "") as Hlp by (by destruct (Py.strip lp)).
  cbn [foldl] in Hkept |- *. rewrite <- segment_step_strip in Hkept |- *.
  rewrite segment_step_solid in Hkept |- * by (apply strip_idem || done).
  cbv zeta in Hkept |- *.
  set (cur1 := if decide (cur0 = "") then Py.strip lp else cur0 +:+ ". " +:+ Py.strip lp)
    in *.
  assert (cur1 ≠ "") as Hcur1.
  { subst cur1. destruct (decide (cur0 = "")); [done|]. by destruct cur0. }
  assert (finish (if 20 <=? length (Py.split cur1) then (segs0 ++ [cur1], "")
                  else (segs0, cur1)) = segs0 ++ [cur1]) as Hfin.
  { revert Hkept. destruct (20 <=? length (Py.split cur1)); [done|].
    unfold finish. cbn [fst snd]. rewrite (bool_decide_eq_false_2 (cur1 = "")) by done.
    rewrite orb_false_l. change (20 / 2) with 10. by intros ->. }
  rewrite Hfin, removelast_last, last_last.
  rewrite <- (app_nil_r segs0) at 1. rewrite fold_prefix, finish_prefix. f_equal. f_equal.
  rewrite Elp at 1. rewrite string_app_assoc, fold_spaces by done.
  subst cur1. destruct (decide (cur0 = "")) as [->|Hcur0]; [done|].
  destruct Hj as [?|Hj]; [done|].
  rewrite string_app_assoc. change ((". " +:+ Py.strip lp) +:+ R)
    with (". " +:+ (Py.strip lp +:+ R)).
  rewrite Hj; [done|]. destruct (Py.strip lp); done.
Qed.

End cut_segments.

Section cut_feeding.
Import Model Parser Inv Cuts.

Lemma set_accumulated_text_twice p x y :
  set_accumulated_text (set_accumulated_text p x) y = set_accumulated_text p y.
Proof. done. Qed.

(** Building a node does not read the buffer. *)
Lemma create_node_buffer p x segment :
  _create_node_from_segment (set_accumulated_text p x) segment =
  ((_create_node_from_segment p segment).1,
   set_accumulated_text (_create_node_from_segment p segment).2 x).
Proof.
  unfold _create_node_from_segment. destruct (_ || _); [done|].
  unfold generate_node_id, generate_position. cbn [node_counter set_accumulated_text
    p_session_id recent_nodes x_position y_position accumulated_text].
  by destruct (_ =? 0).
Qed.

Lemma emit_segments_buffer segments : ∀ out p x,
  foldl emit_segment (out, set_accumulated_text p x) segments =
  ((foldl emit_segment (out, p) segments).1,
   set_accumulated_text (foldl emit_segment (out, p) segments).2 x).
Proof.
  induction segments as [|seg segments IH]; intros out p x; [done|]. cbn [foldl].
  unfold emit_segment at 2 4 6. rewrite create_node_buffer.
  destruct (_create_node_from_segment p seg) as [[node|] p1]; cbn [fst snd]; apply IH.
Qed.

(** A call reads the parser but for the buffer, and the text that
    the buffer and the fragment make up. *)
Lemma parse_incremental_text p q chunk chunk' :
  set_accumulated_text p "" = set_accumulated_text q "" →
  accumulated_text p +:+ chunk = accumulated_text q +:+ chunk' →
  parse_incremental p chunk = parse_incremental q chunk'.
Proof.
  intros Hpq Htext. unfold parse_incremental. cbv zeta.
  change (accumulated_text (set_accumulated_text ?a ?b)) with b.
  rewrite !set_accumulated_text_twice, Htext.
  assert (∀ y, set_accumulated_text p y = set_accumulated_text q y) as Hy.
  { intros y. by rewrite <- (set_accumulated_text_twice p "" y), Hpq. }
  by rewrite !Hy.
Qed.

Lemma run_from_cons p chunk rest :
  run_from p (chunk :: rest)
  = (parse_incremental p chunk).1 ++ run_from (parse_incremental p chunk).2 rest.
Proof.
  unfold run_from. cbn [feed_all]. destruct (parse_incremental p chunk) as [out p1].
  cbn [fst snd]. destruct (feed_all p1 rest) as [out' p2]. destruct (finalize p2).
  by rewrite app_assoc.
Qed.

Lemma run_from_nil p : run_from p [] = (finalize p).1.
Proof. unfold run_from. cbn [feed_all]. by destruct (finalize p). Qed.

Lemma whole_cons chunk rest : whole (chunk :: rest) = chunk +:+ whole rest.
Proof. done. Qed.

Lemma whole_one chunk : whole [chunk] = chunk.
Proof. apply string_app_nil_r. Qed.

(** A call that does not emit. *)
Lemma parse_incremental_quiet p chunk :
  length (split_into_segments (accumulated_text p +:+ chunk)) ≤ 1 →
  parse_incremental p chunk
  = ([], set_accumulated_text p (accumulated_text p +:+ chunk)).
Proof.
  intros H. unfold parse_incremental. cbv zeta.
  change (accumulated_text (set_accumulated_text ?a ?b)) with b.
  by destruct (Nat.ltb_spec 1 (length (split_into_segments (accumulated_text p +:+ chunk))));
    [lia|].
Qed.

(** A call that emits. *)
Lemma parse_incremental_emits p chunk :
  1 < length (split_into_segments (accumulated_text p +:+ chunk)) →
  parse_incremental p chunk
  = ((foldl emit_segment ([], p)
        (removelast (split_into_segments (accumulated_text p +:+ chunk)))).1,
     set_accumulated_text
       (foldl emit_segment ([], p)
          (removelast (split_into_segments (accumulated_text p +:+ chunk)))).2
       (List.last (split_into_segments (accumulated_text p +:+ chunk)) "")).
Proof.
  intros H. unfold parse_incremental. cbv zeta.
  change (accumulated_text (set_accumulated_text ?a ?b)) with b.
  destruct (Nat.ltb_spec 1 (length (split_into_segments (accumulated_text p +:+ chunk))));
    [|lia].
  by rewrite set_accumulated_text_twice, emit_segments_buffer.
Qed.

Lemma settled_quiet buf chunk rest :
  length (split_into_segments (buf +:+ chunk)) ≤ 1 →
  settled buf (chunk :: rest) = true → settled (buf +:+ chunk) rest = true.
Proof.
  intros H. unfold settled. cbn [buffers forallb]. rewrite whole_cons, string_app_assoc.
  by rewrite (proj2 (Nat.leb_le _ _) H).
Qed.

Lemma last_app_r {A} (l1 l2 : list A) d :
  l2 ≠ [] → List.last (l1 ++ l2) d = List.last l2 d.
Proof.
  intros Hne. induction l1 as [|a l1 IH]; [done|]. cbn [app List.last].
  destruct (l1 ++ l2) eqn:E; [by apply app_eq_nil in E as [_ ?]|]. exact IH.
Qed.

(** After a clean cut that settles, the text of the calls that
    follow is good. *)
Lemma clean_good rest : ∀ buf,
  rest ≠ [] → settled buf rest = true → clean buf rest = true → good (buf +:+ whole rest).
Proof.
  induction rest as [|chunk rest IH]; intros buf Hne Hs Hc; [done|]. clear Hne.
  rewrite whole_cons, <- string_app_assoc. cbn [clean] in Hc. cbv zeta in Hc.
  destruct (Nat.ltb_spec 1 (length (split_into_segments (buf +:+ chunk)))) as [Hlt|Hle].
  - destruct rest as [|chunk' rest].
    { change (whole []) with ""; rewrite string_app_nil_r. by left. }
    apply andb_true_iff in Hc as [[Hcut Hs']%andb_true_iff Hc].
    specialize (IH _ ltac:(done) Hs' Hc).
    left. rewrite cut_segments, length_app by done.
    assert (1 ≤ length (removelast (split_into_segments (buf +:+ chunk)))).
    { destruct (split_into_segments (buf +:+ chunk)) as [|a [|b l]]; simpl in *; lia. }
    assert (1 ≤ length (split_into_segments
              (List.last (split_into_segments (buf +:+ chunk)) "" +:+ whole (chunk' :: rest)))).
    { unfold good in IH. destruct IH as [? | E]; [lia|]. rewrite E. simpl. lia. }
    lia.
  - destruct rest as [|chunk' rest].
    { change (whole []) with ""; rewrite string_app_nil_r. right. unfold settled in Hs. cbn [buffers forallb] in Hs.
      rewrite (proj2 (Nat.leb_le _ _) Hle), whole_one in Hs. cbn [andb implb] in Hs.
      by apply bool_decide_eq_true in Hs. }
    apply IH; [done|by apply settled_quiet|done].
Qed.

(** The round trip from any parser: when the fragments are cut
    cleanly, feeding them in order gives the nodes of feeding the
    text that they make up. *)
Lemma run_from_clean fragments : ∀ p,
  fragments ≠ [] → clean (accumulated_text p) fragments = true →
  run_from p fragments = run_from p [whole fragments].
Proof.
  induction fragments as [|chunk rest IH]; intros p Hne Hc; [done|]. clear Hne.
  destruct rest as [|chunk' rest]; [by rewrite whole_one|].
  set (rest' := chunk' :: rest) in *. assert (rest' ≠ []) as Hne by done. clearbody rest'.
  rewrite run_from_cons, (run_from_cons p (whole (chunk :: rest'))), run_from_nil.
  rewrite whole_cons. cbn [clean] in Hc. cbv zeta in Hc.
  set (text := accumulated_text p +:+ chunk) in *.
  destruct (Nat.ltb_spec 1 (length (split_into_segments text))) as [Hlt|Hle].
  - destruct rest' as [|c r] eqn:Er; [done|]. rewrite <- Er in *.
    apply andb_true_iff in Hc as [[Hcut Hs]%andb_true_iff Hc].
    rewrite (parse_incremental_emits p chunk Hlt). fold text. cbn [fst snd].
    destruct (foldl emit_segment ([], p) (removelast (split_into_segments text)))
      as [out1 q1] eqn:Hem. cbn [fst snd].
    set (p1 := set_accumulated_text q1 (List.last (split_into_segments text) "")).
    assert (accumulated_text p1 = List.last (split_into_segments text) "") as Hacc by done.
    rewrite IH by (done || by rewrite Hacc).
    rewrite run_from_cons, run_from_nil.
    pose proof (clean_good rest' _ Hne Hs Hc) as Hgood.
    pose proof (cut_segments text (whole rest') Hcut) as Hsplit.
    set (y := List.last (split_into_segments text) "" +:+ whole rest') in *.
    assert (removelast (split_into_segments text) ≠ []) as Hfront.
    { destruct (split_into_segments text) as [|a [|b l]]; simpl in *; done || lia. }
    assert (split_into_segments y ≠ []) as Hy.
    { unfold good in Hgood. destruct Hgood as [? | E]; [|by rewrite E].
      destruct (split_into_segments y); [simpl in *; lia|done]. }
    assert (1 < length (split_into_segments (accumulated_text p +:+ chunk +:+ whole rest')))
      as Hlong.
    { rewrite <- string_app_assoc. fold text. rewrite Hsplit, length_app.
      destruct (removelast (split_into_segments text)); [done|].
      destruct (split_into_segments y); [done|]. simpl. lia. }
    rewrite (parse_incremental_emits p _ Hlong). rewrite <- string_app_assoc. fold text.
    rewrite Hsplit. cbn [fst snd].
    rewrite removelast_app, last_app_r, foldl_app by done. rewrite Hem.
    destruct Hgood as [Hmany|Hone].
    + assert (1 < length (split_into_segments (accumulated_text p1 +:+ whole rest')))
        as Hmany' by (rewrite Hacc; fold y; lia).
      rewrite (parse_incremental_emits p1 _ Hmany'). rewrite Hacc. fold y. cbn [fst snd].
      unfold p1. rewrite emit_segments_buffer. cbn [fst snd].
      rewrite set_accumulated_text_twice.
      rewrite (emit_segments_acc _ out1 q1).
      destruct (foldl emit_segment ([], q1) (removelast (split_into_segments y)))
        as [out2 q2]. cbn [fst snd]. by rewrite app_assoc.
    + assert (length (split_into_segments (accumulated_text p1 +:+ whole rest')) ≤ 1)
        as Hone' by (rewrite Hacc; fold y; rewrite Hone; simpl; lia).
      rewrite (parse_incremental_quiet p1 _ Hone'). rewrite Hacc. fold y. rewrite Hone.
      cbn [fst snd removelast foldl List.last app]. unfold p1.
      by rewrite set_accumulated_text_twice.
  - rewrite (parse_incremental_quiet p chunk Hle). fold text. cbn [fst snd app].
    rewrite IH by done. rewrite run_from_cons, run_from_nil.
    by rewrite (parse_incremental_text (set_accumulated_text p text) p
                  (whole rest') (chunk +:+ whole rest'))
      by (done || by cbn [accumulated_text set_accumulated_text];
                     unfold text; rewrite string_app_assoc).
Qed.

Lemma run_run_from sid fragments : run sid fragments = run_from (init sid) fragments.
Proof. done. Qed.

(** Fragments of which none but the last makes the parser emit are
    cut cleanly. *)
Lemma quiet_prefix_clean fragments : ∀ buf,
  forallb (λ b, length (split_into_segments b) <=? 1) (buffers buf (removelast fragments))
  = true →
  clean buf fragments = true.
Proof.
  induction fragments as [|chunk rest IH]; intros buf H; [done|].
  cbn [clean]. cbv zeta. destruct rest as [|chunk' rest].
  { by destruct (1 <? _). }
  change (removelast (chunk :: chunk' :: rest)) with (chunk :: removelast (chunk' :: rest)) in H.
  cbn [buffers forallb] in H. apply andb_true_iff in H as [Hq H].
  apply Nat.leb_le in Hq.
  destruct (Nat.ltb_spec 1 (length (split_into_segments (buf +:+ chunk)))); [lia|].
  by apply IH.
Qed.

End cut_feeding.

(** ** The round trip of the parser *)

Section round_trip.
Import Model Parser Inv Cuts.

(** C1, amended.  The round trip holds for the fragments that are
    cut cleanly ([clean]).  Follow the buffer of the parser through
    the calls.  A call that does not emit, and the last call, are
    free.  A call that emits before the last must make a clean cut:
    its text (the buffer with the fragment) ends in a character that
    is not white space, and the words that the loop of
    [split_into_segments] is left with are none or at least ten, so
    that they are the last segment and not dropped; and if none of
    the calls after it emits, the text that they leave must be one
    segment as it stands.  For such fragments, feeding them one at a
    time and then finalizing yields the same nodes, hence the same
    contents, as feeding the text that they make up in one call and
    then finalizing.  Fragments of which none but the last makes the
    parser emit are of this kind ([quiet_prefix_clean]), and so are
    streams in which calls before the last emit, as [Cuts.stream].
    Each of the three conditions is needed
    ([clean_conditions_needed]). *)
Theorem round_trip_clean sid fragments :
  clean "" fragments = true →
  run sid fragments = run sid [whole fragments] ∧
  contents (run sid fragments) = contents (run sid [whole fragments]).
Proof.
  intros H.
  assert (run sid fragments = run sid [whole fragments]) as Heq.
  { destruct fragments as [|chunk rest]; [done|].
    rewrite !run_run_from. by apply run_from_clean. }
  by rewrite Heq.
Qed.

Lemma round_trip_clean_witness :
  clean "" Cuts.stream = true ∧
  (feed_all (init "s") (removelast Cuts.stream)).1 ≠ [] ∧
  run "s" Cuts.stream = run "s" [whole Cuts.stream].
Proof.
  split; [vm_compute; reflexivity|]. split; [by vm_compute|].
  exact (proj1 (round_trip_clean "s" Cuts.stream ltac:(vm_compute; reflexivity))).
Defined.

(** The round trip when no call but the last emits. *)
Lemma round_trip_quiet_prefix sid fragments :
  quiet (removelast fragments) = true →
  run sid fragments = run sid [whole fragments].
Proof.
  intros H. destruct fragments as [|chunk rest]; [done|].
  rewrite !run_run_from. apply run_from_clean; [done|]. by apply quiet_prefix_clean.
Qed.

(** The conditions of a clean cut are needed.  In [Samples.stream]
    the first call emits on a text that ends in white space, in
    [dropping] on a text whose last words are dropped, in
    [unsettled] the text after the cut is not a segment as it
    stands; the other conditions hold, and the round trip fails. *)
Lemma clean_conditions_needed :
  (ends_solid Samples.stream_head = false ∧ remainder Samples.stream_head = "" ∧
   contents (run "s" Samples.stream) ≠ contents (run "s" [whole Samples.stream])) ∧
  (∃ chunk rest, dropping = chunk :: rest ∧ ends_solid chunk = true ∧
     length (Py.split (remainder chunk)) = 3 ∧
     settled (List.last (split_into_segments chunk) "") rest = true ∧
     contents (run "s" dropping) ≠ contents (run "s" [whole dropping])) ∧
  (∃ chunk rest, unsettled = chunk :: rest ∧ clean_cut chunk = true ∧
     settled (List.last (split_into_segments chunk) "") rest = false ∧
     contents (run "s" unsettled) ≠ contents (run "s" [whole unsettled])).
Proof.
  split; [|split].
  - split_and!; [by vm_compute..|]. apply (bool_decide_eq_false_1 _). by vm_compute.
  - eexists _, _. split; [done|]. split_and!; [by vm_compute..|].
    apply (bool_decide_eq_false_1 _). by vm_compute.
  - eexists _, _. split; [done|]. split_and!; [by vm_compute..|].
    apply (bool_decide_eq_false_1 _). by vm_compute.
Qed.

End round_trip.
